(** * lxs-dice: the dice-expression parser and its expression trees

    A shallow embedding of [parser.ts] (class [DiceParser] and the
    [DiceExpression] classes) together with the properties its
    specification states about it.

    Conventions of the embedding.

    - A JavaScript string is a list of code units, [jsstring]; the code
      units are restricted to the Latin-1 range (type [ascii]).
    - A JavaScript [number] is modelled by the type [number]: an exact
      rational, the two infinities, the negative zero and [NaN].  The
      arithmetic of finite values is exact: rounding to binary64,
      overflow and underflow are not modelled.
    - [Math.random()] reads the next sample of a stream [nat -> Q]; the
      position in the stream is the only state of [roll].  A roll that
      does not return (a count of [Infinity]) is [None].
    - An array used as a stack ([push], [pop], [top]) is a list whose head
      is the top of the stack; the array itself is the reversed list.
    - [throw] is the constructor [Throw] of the type [Result]. *)

From Stdlib Require Import List Ascii String ZArith QArith Qround Qreduction.
From Stdlib Require Import Bool Lia Permutation.
Import ListNotations.

Local Open Scope list_scope.
Local Open Scope bool_scope.
Local Open Scope char_scope.

(* ------------------------------------------------------------------ *)
(** ** Strings *)

Abbreviation jsstring := (list ascii).

Definition str (s : string) : jsstring := list_ascii_of_string s.

Definition codeUnit (c : ascii) : N := N_of_ascii c.

Definition inRange (lo hi : N) (c : ascii) : bool :=
  (lo <=? codeUnit c)%N && (codeUnit c <=? hi)%N.

(** [/\d/] *)
Definition isDigitChar (c : ascii) : bool := inRange 48 57 c.

(** [/\w/] : letters, digits and the underscore *)
Definition isWordChar (c : ascii) : bool :=
  inRange 97 122 c || inRange 65 90 c || isDigitChar c || (codeUnit c =? 95)%N.

(** [/\s/], also the characters removed by [trim]: tab, line feed,
    vertical tab, form feed, carriage return, space, no-break space. *)
Definition isWhiteSpace (c : ascii) : bool :=
  inRange 9 13 c || (codeUnit c =? 32)%N || (codeUnit c =? 160)%N.

(** A regular expression tested against [charAt(i)], which is the empty
    string when [i] is out of range. *)
Definition testChar (p : ascii -> bool) (c : option ascii) : bool :=
  match c with
  | Some c => p c
  | None => false
  end.

Definition strEq (a b : jsstring) : bool :=
  if list_eq_dec ascii_dec a b then true else false.

Fixpoint dropWhile {A} (p : A -> bool) (l : list A) : list A :=
  match l with
  | [] => []
  | x :: l' => if p x then dropWhile p l' else l
  end.

Fixpoint takeWhile {A} (p : A -> bool) (l : list A) : list A :=
  match l with
  | [] => []
  | x :: l' => if p x then x :: takeWhile p l' else []
  end.

Definition trimStart (s : jsstring) : jsstring := dropWhile isWhiteSpace s.

Definition trimEnd (s : jsstring) : jsstring :=
  rev (dropWhile isWhiteSpace (rev s)).

(** [String.prototype.trim] *)
Definition trim (s : jsstring) : jsstring := trimEnd (trimStart s).

(** [s.replace(/\s+/g, ' ')] : every maximal run of white space becomes
    one space.  [inRun] tells that the previous character was white space
    too, so that the run has already been replaced. *)
Fixpoint collapseFrom (inRun : bool) (s : jsstring) : jsstring :=
  match s with
  | [] => []
  | c :: s' =>
      if isWhiteSpace c
      then (if inRun then collapseFrom true s'
            else " " :: collapseFrom true s')
      else c :: collapseFrom false s'
  end.

Definition collapseSpaces (s : jsstring) : jsstring := collapseFrom false s.

(** [String.prototype.toLowerCase] on Latin-1 code units. *)
Definition lowerChar (c : ascii) : ascii :=
  if inRange 65 90 c
     || (inRange 192 222 c && negb (codeUnit c =? 215)%N)
  then ascii_of_N (codeUnit c + 32)
  else c.

Definition toLowerCase (s : jsstring) : jsstring := map lowerChar s.

Definition charEq (a b : ascii) : bool := Ascii.eqb a b.

(** [s.includes(c)] for a one-character needle. *)
Definition includes (c : ascii) (s : jsstring) : bool := existsb (charEq c) s.

(** [s.split(c)] for a one-character separator: the parts between the
    occurrences of [c]; there is always at least one part. *)
Fixpoint split (sep : ascii) (s : jsstring) : list jsstring :=
  match s with
  | [] => [[]]
  | c :: s' =>
      if charEq c sep then [] :: split sep s'
      else match split sep s' with
           | p :: ps => (c :: p) :: ps
           | [] => [[c]]
           end
  end.

(** [s.slice(from, to)] for non-negative bounds. *)
Definition slice (from to : nat) (s : jsstring) : jsstring :=
  firstn (to - from) (skipn from s).

(* ------------------------------------------------------------------ *)
(** ** Numbers *)

(** The values of the JavaScript type [number].  A finite value is kept
    as a reduced fraction, so that equal values are equal terms; [Fin 0]
    is the positive zero. *)
Inductive number : Type :=
  | Fin (q : Q)
  | NegZero
  | PosInf
  | NegInf
  | NaN.

Definition fin (q : Q) : number := Fin (Qred q).

Definition ofZ (z : Z) : number := Fin (inject_Z z).

Definition isNaN (n : number) : bool :=
  match n with NaN => true | _ => false end.

Definition isInfinite (n : number) : bool :=
  match n with PosInf | NegInf => true | _ => false end.

Definition isZero (n : number) : bool :=
  match n with
  | Fin q => (Qnum q =? 0)%Z
  | NegZero => true
  | _ => false
  end.

Definition signBit (n : number) : bool :=
  match n with
  | Fin q => (Qnum q <? 0)%Z
  | NegZero | NegInf => true
  | PosInf | NaN => false
  end.

(** The rational a finite number stands for (both zeros stand for 0). *)
Definition toQ (n : number) : Q :=
  match n with Fin q => q | _ => 0 end.

Definition zero (negative : bool) : number :=
  if negative then NegZero else Fin 0.

Definition inf (negative : bool) : number :=
  if negative then NegInf else PosInf.

(** Unary [-] *)
Definition jsNeg (n : number) : number :=
  match n with
  | Fin q => if (Qnum q =? 0)%Z then NegZero else Fin (Qopp q)
  | NegZero => Fin 0
  | PosInf => NegInf
  | NegInf => PosInf
  | NaN => NaN
  end.

(** [a + b] *)
Definition jsAdd (a b : number) : number :=
  match a, b with
  | NaN, _ | _, NaN => NaN
  | PosInf, NegInf | NegInf, PosInf => NaN
  | PosInf, _ | _, PosInf => PosInf
  | NegInf, _ | _, NegInf => NegInf
  | NegZero, NegZero => NegZero
  | NegZero, Fin q | Fin q, NegZero => Fin q
  | Fin p, Fin q => fin (p + q)
  end.

(** [a - b] *)
Definition jsSub (a b : number) : number := jsAdd a (jsNeg b).

(** [a * b] *)
Definition jsMul (a b : number) : number :=
  if isNaN a || isNaN b then NaN
  else if (isInfinite a && isZero b) || (isZero a && isInfinite b) then NaN
  else
    let s := xorb (signBit a) (signBit b) in
    if isInfinite a || isInfinite b then inf s
    else if isZero a || isZero b then zero s
    else fin (toQ a * toQ b).

(** [a / b]: the quotient itself, never its integer part; a zero divisor
    gives an infinity or [NaN]. *)
Definition jsDiv (a b : number) : number :=
  if isNaN a || isNaN b then NaN
  else
    let s := xorb (signBit a) (signBit b) in
    if isInfinite a then (if isInfinite b then NaN else inf s)
    else if isInfinite b then zero s
    else if isZero b then (if isZero a then NaN else inf s)
    else if isZero a then zero s
    else fin (toQ a / toQ b).

Definition Qltb (p q : Q) : bool := negb (Qle_bool q p).

(** [a < b] *)
Definition jsLt (a b : number) : bool :=
  match a, b with
  | NaN, _ | _, NaN => false
  | PosInf, _ => false
  | _, PosInf => true
  | _, NegInf => false
  | NegInf, _ => true
  | _, _ => Qltb (toQ a) (toQ b)
  end.

(** [a > b] *)
Definition jsGt (a b : number) : bool := jsLt b a.

(** [a === b] on numbers *)
Definition strictEq (a b : number) : bool :=
  match a, b with
  | NaN, _ | _, NaN => false
  | PosInf, PosInf | NegInf, NegInf => true
  | PosInf, _ | _, PosInf | NegInf, _ | _, NegInf => false
  | _, _ => Qeq_bool (toQ a) (toQ b)
  end.

(** [Math.floor] *)
Definition mathFloor (n : number) : number :=
  match n with
  | Fin q => ofZ (Qfloor q)
  | _ => n
  end.

(** *** Numeric literals in strings *)

Definition digitValue (c : ascii) : Z :=
  if isDigitChar c then Z.of_N (codeUnit c) - 48
  else if inRange 97 102 c then Z.of_N (codeUnit c) - 87
  else if inRange 65 70 c then Z.of_N (codeUnit c) - 55
  else 0.

Definition radixValue (radix : Z) (ds : jsstring) : Z :=
  fold_left (fun acc c => radix * acc + digitValue c)%Z ds 0%Z.

Definition digitsValue (ds : jsstring) : Z := radixValue 10 ds.

Definition pow10 (e : Z) : Q :=
  if (0 <=? e)%Z then inject_Z (10 ^ e) else / inject_Z (10 ^ (- e)).

(** The value of the decimal literal with sign [negative], digits [mant]
    and decimal exponent [e]. *)
Definition decimalValue (negative : bool) (mant e : Z) : number :=
  if (mant =? 0)%Z then zero negative
  else fin (inject_Z (if negative then - mant else mant) * pow10 e).

Definition startsWith (p s : jsstring) : bool :=
  strEq (firstn (List.length p) s) p.

Definition scanSign (s : jsstring) : bool * jsstring :=
  match s with
  | c :: r =>
      if charEq c "-" then (true, r)
      else if charEq c "+" then (false, r)
      else (false, s)
  | [] => (false, s)
  end.

(** ExponentPart, when one is present at the head of [s]. *)
Definition scanExponent (s : jsstring) : Z * jsstring :=
  match s with
  | c :: r =>
      if charEq c "e" || charEq c "E" then
        let (negative, r1) := scanSign r in
        match takeWhile isDigitChar r1 with
        | [] => (0%Z, s)
        | ds => ((if negative then - digitsValue ds else digitsValue ds)%Z,
                 dropWhile isDigitChar r1)
        end
      else (0%Z, s)
  | [] => (0%Z, s)
  end.

(** The longest prefix of [s] that is a StrUnsignedDecimalLiteral: its
    value and the rest of [s]. *)
Definition scanUnsigned (negative : bool) (s : jsstring)
  : option (number * jsstring) :=
  if startsWith (str "Infinity") s then Some (inf negative, skipn 8 s)
  else
    let ip := takeWhile isDigitChar s in
    let r1 := dropWhile isDigitChar s in
    let '(fp, r2) :=
      match r1 with
      | c :: r =>
          if charEq c "."
          then (takeWhile isDigitChar r, dropWhile isDigitChar r)
          else ([], r1)
      | [] => ([], r1)
      end in
    match ip ++ fp with
    | [] => None
    | ds =>
        let (e, r3) := scanExponent r2 in
        Some (decimalValue negative (digitsValue ds)
                           (e - Z.of_nat (List.length fp)),
              r3)
    end.

(** The longest prefix of [s] that is a StrDecimalLiteral. *)
Definition scanStrDecimalLiteral (s : jsstring) : option (number * jsstring) :=
  let (negative, r) := scanSign s in scanUnsigned negative r.

(** [parseFloat(s)] *)
Definition parseFloat (s : jsstring) : number :=
  match scanStrDecimalLiteral (trimStart s) with
  | Some (v, _) => v
  | None => NaN
  end.

Definition isRadixDigit (radix : Z) (c : ascii) : bool :=
  (isDigitChar c || inRange 97 102 c || inRange 65 70 c)
  && (digitValue c <? radix)%Z.

(** NonDecimalIntegerLiteral: [0x..], [0o..], [0b..] *)
Definition nonDecimalIntegerLiteral (s : jsstring) : option number :=
  match s with
  | z :: x :: ds =>
      let radix :=
        if charEq x "x" || charEq x "X" then Some 16%Z
        else if charEq x "o" || charEq x "O" then Some 8%Z
        else if charEq x "b" || charEq x "B" then Some 2%Z
        else None in
      match radix, ds with
      | Some r, _ :: _ =>
          if charEq z "0" && forallb (isRadixDigit r) ds
          then Some (ofZ (radixValue r ds)) else None
      | _, _ => None
      end
  | _ => None
  end.

(** [+s], the conversion of a string to a number. *)
Definition toNumber (s : jsstring) : number :=
  match trim s with
  | [] => Fin 0
  | t =>
      match scanStrDecimalLiteral t with
      | Some (v, []) => v
      | _ =>
          match nonDecimalIntegerLiteral t with
          | Some v => v
          | None => NaN
          end
      end
  end.

(* ------------------------------------------------------------------ *)
(** ** Expressions and results *)

Inductive ArithmeticOperator : Type := Plus | Minus | Times | Divide.

(** [class DiceRollExpression]: one die of a given size. *)
Record DiceRollExpression : Type := Die { die_size : number }.

(** The subclasses of [DiceExpression].  [SingleDie] is a
    [DiceRollExpression] used as an expression of its own;
    [CountedDiceRollExpression] holds its die in the field [dice]. *)
Inductive DiceExpression : Type :=
  | NumericalExpression (value : number)
  | SingleDie (die : DiceRollExpression)
  | CountedDiceRollExpression (count : number) (dice : DiceRollExpression)
  | InfixArithmeticExpression (left right : DiceExpression)
                              (operator : ArithmeticOperator).

(** [interface DiceRolled]; an optional flag that is not set is [false]. *)
Record DiceRolled : Type := mkRolled {
  rolled_size : number;
  rolled_value : number;
  isMax : bool;
  isMin : bool
}.

(** [class AccumulatedResult], the only [DiceResult]. *)
Record DiceResult : Type := AccumulatedResult {
  result_value : number;
  diceRolled : list DiceRolled
}.

(* ------------------------------------------------------------------ *)
(** ** Errors *)

Inductive Error : Type :=
  | DiceParserEmptyError
  | DiceParserSyntaxError (issue : jsstring) (location : option jsstring)
  | DiceParserDiceCount (allowed : number)
  | TypeError. (* raised by the engine itself, not a DiceParserError *)

Inductive Result (A : Type) : Type :=
  | OK (a : A)
  | Throw (e : Error).

Arguments OK {A} a.
Arguments Throw {A} e.

Definition bind {A B} (r : Result A) (f : A -> Result B) : Result B :=
  match r with
  | OK a => f a
  | Throw e => Throw e
  end.

Notation "x <- r ;; k" := (bind r (fun x => k))
  (at level 61, r at next level, right associativity).

Definition isSyntaxError {A} (r : Result A) : Prop :=
  exists issue location, r = Throw (DiceParserSyntaxError issue location).


Definition throws {A} (r : Result A) : Prop := exists e, r = Throw e.

(* ------------------------------------------------------------------ *)
(** ** The parser *)

Record DiceParser : Type := { maximumDiceCount : option number }.

Record Operator : Type := {
  operation : DiceExpression -> DiceExpression -> DiceExpression;
  arguments : nat;
  precedence : Z
}.

(** What [this.operators[key]] finds: an [Operator] of the table itself,
    or a property inherited from [Object.prototype], which is truthy but
    no [Operator]. *)
Inductive Property : Type :=
  | OwnOperator (o : Operator)
  | Inherited.

Definition objectPrototypeKeys : list jsstring :=
  map str [ "constructor"; "hasOwnProperty"; "isPrototypeOf";
            "propertyIsEnumerable"; "toLocaleString"; "toString"; "valueOf";
            "__defineGetter__"; "__defineSetter__"; "__lookupGetter__";
            "__lookupSetter__"; "__proto__" ]%string.

Definition infix (op : ArithmeticOperator) (prec : Z) : Operator :=
  {| operation := fun l r => InfixArithmeticExpression l r op;
     arguments := 2;
     precedence := prec |}.

Definition operators (key : jsstring) : option Property :=
  if strEq key (str "+") then Some (OwnOperator (infix Plus 1))
  else if strEq key (str "-") then Some (OwnOperator (infix Minus 1))
  else if strEq key (str "*") then Some (OwnOperator (infix Times 2))
  else if strEq key (str "/") then Some (OwnOperator (infix Divide 2))
  else if existsb (strEq key) objectPrototypeKeys then Some Inherited
  else None.

(** A token is [None] when it is [undefined]. *)
Definition isTokenGroupStart (token : option jsstring) : bool :=
  match token with Some t => strEq t (str "(") | None => false end.

Definition isTokenGroupEnd (token : option jsstring) : bool :=
  match token with Some t => strEq t (str ")") | None => false end.

Definition isTokenOperator (token : option jsstring) : bool :=
  match token with
  | Some t =>
      negb (strEq t [])
      && match operators t with Some _ => true | None => false end
  | None => false
  end.

(** [top(stack)] *)
Definition top {A} (stack : list A) : option A := hd_error stack.

Definition quote : ascii := ascii_of_nat 34.

Definition syntaxError {A} (issue : jsstring) (location : option jsstring)
  : Result A :=
  Throw (DiceParserSyntaxError issue location).

(** *** tokenize *)

Record TokenizerState : Type := {
  tokens : list jsstring;      (* the last token pushed is the head *)
  current : jsstring;
  currentAdded : bool          (* ['.'] or [undefined] *)
}.

Definition isCharPrimitive (c : ascii) : bool := isWordChar c.

Definition isCharOperator (c : option jsstring) : bool := isTokenOperator c.

(** The loop of [tokenize] from index [i] on: [rest] is what is left of
    [trimmedValue] at [i], [prevC] is [charAt(i - 1)]. *)
Fixpoint tokenizeLoop (trimmedValue : jsstring) (i : nat)
    (prevC : option ascii) (rest : jsstring) (st : TokenizerState)
  : Result TokenizerState :=
  match rest with
  | [] => OK st
  | c :: rest' =>
      let nextC := hd_error rest' in
      let lastToken := top (tokens st) in
      let currentParsingStarted := negb (strEq (current st) []) in
      let location := Some (slice (i - 20) (i + 20) trimmedValue) in
      let continue := tokenizeLoop trimmedValue (S i) (Some c) rest' in
      if isCharPrimitive c
         || (charEq c "-"
             && negb currentParsingStarted
             && (match lastToken with None => true | Some _ => false end
                 || match lastToken with
                    | Some t => strEq t (str ",")
                    | None => false
                    end
                 || isTokenGroupStart lastToken
                 || isCharOperator lastToken)
             && testChar isDigitChar nextC)
      then
        continue {| tokens := tokens st;
                    current := current st ++ [c];
                    currentAdded := currentAdded st |}
      else if charEq c "." then
        if currentParsingStarted && currentAdded st
        then syntaxError
               (str "Invalid " ++ [quote; "."; quote] ++ str " character")
               location
        else continue {| tokens := tokens st;
                         current := current st ++ [c];
                         currentAdded := true |}
      else if charEq c " " then
        if testChar isCharPrimitive prevC && testChar isCharPrimitive nextC
        then syntaxError (str "Extraneous space between tokens") location
        else continue st
      else if isCharOperator (Some [c])
              || isTokenGroupStart (Some [c])
              || isTokenGroupEnd (Some [c])
              || charEq c ","
      then
        if isCharOperator (Some [c])
           && negb currentParsingStarted
           && isCharOperator
                (Some match lastToken with Some t => t | None => [] end)
        then syntaxError (str "Consecutive operators") location
        else
          continue
            {| tokens :=
                 [c] :: (if currentParsingStarted
                         then current st :: tokens st
                         else tokens st);
               current := [];
               currentAdded := false |}
      else syntaxError (str "Invalid character " ++ [c]) location
  end.

Definition tokenize (value : jsstring) : Result (list jsstring) :=
  let trimmedValue := collapseSpaces (trim value) in
  st <- tokenizeLoop trimmedValue 0 None trimmedValue
          {| tokens := []; current := []; currentAdded := false |} ;;
  OK (rev (if negb (strEq (current st) [])
           then current st :: tokens st
           else tokens st)).

(** *** shuntingYardConversion *)

Record YardState : Type := {
  outputStack : list jsstring;
  operatorStack : list jsstring
}.

(** [while (operatorStack.length && p(top(operatorStack)))
       outputStack.push(operatorStack.pop())] *)
Fixpoint popWhile (p : jsstring -> bool) (st : YardState) (ops : list jsstring)
  : YardState :=
  match ops with
  | t :: ops' =>
      if p t
      then popWhile p {| outputStack := t :: outputStack st;
                         operatorStack := ops' |} ops'
      else st
  | [] => st
  end.

(** [operators[token].precedence], [None] when it is [undefined]. *)
Definition precedenceOf (token : jsstring) : option Z :=
  match operators token with
  | Some (OwnOperator o) => Some (precedence o)
  | _ => None
  end.

(** [a >= b]; a comparison with [undefined] is false. *)
Definition geNumbers (a b : option Z) : bool :=
  match a, b with
  | Some x, Some y => (y <=? x)%Z
  | _, _ => false
  end.

Definition misplacedComma : jsstring := str "Misplaced " ++ [quote; ","; quote].

Definition yardStep (st : YardState) (token : jsstring) : Result YardState :=
  if isTokenGroupStart (Some token) then
    OK {| outputStack := outputStack st;
          operatorStack := token :: operatorStack st |}
  else if isTokenGroupEnd (Some token) then
    let st1 := popWhile (fun t => negb (isTokenGroupStart (Some t)))
                 st (operatorStack st) in
    match operatorStack st1 with
    | t :: ops' =>
        if isTokenGroupStart (Some t)
        then OK {| outputStack := outputStack st1; operatorStack := ops' |}
        else syntaxError (str "Parenthesis mismatch") None
    | [] => syntaxError (str "Parenthesis mismatch") None
    end
  else if strEq token (str ",") then
    let st1 := popWhile (fun t => negb (isTokenGroupStart (Some t)))
                 st (operatorStack st) in
    match operatorStack st1 with
    | [] => syntaxError misplacedComma None
    | _ :: _ => OK st1
    end
  else if isTokenOperator (Some token) then
    let st1 := popWhile
                 (fun t => isTokenOperator (Some t)
                           && geNumbers (precedenceOf t) (precedenceOf token))
                 st (operatorStack st) in
    OK {| outputStack := outputStack st1;
          operatorStack := token :: operatorStack st1 |}
  else
    OK {| outputStack := token :: outputStack st;
          operatorStack := operatorStack st |}.

(** [tokens.forEach(step)] *)
Fixpoint forEach {St A} (step : St -> A -> Result St) (st : St) (l : list A)
  : Result St :=
  match l with
  | [] => OK st
  | x :: l' => st' <- step st x ;; forEach step st' l'
  end.

(** The final loop: every pending operator goes to the output; an opening
    parenthesis left among them is an error. *)
Fixpoint drainOperators (st : YardState) (ops : list jsstring)
  : Result YardState :=
  match ops with
  | t :: ops' =>
      if negb (isTokenGroupStart (Some t))
      then drainOperators {| outputStack := t :: outputStack st;
                             operatorStack := ops' |} ops'
      else syntaxError (str "Parenthesis mismatch") None
  | [] => OK st
  end.

Definition shuntingYardConversion (tokens : list jsstring)
  : Result (list jsstring) :=
  st <- forEach yardStep {| outputStack := []; operatorStack := [] |} tokens ;;
  st' <- drainOperators st (operatorStack st) ;;
  OK (rev (outputStack st')).

(** *** expressionForPrimitive *)

Definition isNumeric (value : jsstring) : bool :=
  negb (isNaN (toNumber value)) && negb (isNaN (parseFloat value)).

Definition expressionForPrimitive (token : jsstring) : Result DiceExpression :=
  let tokenLower := toLowerCase token in
  if includes "d" tokenLower then
    match split "d" tokenLower with
    | [part0; part1] =>
        if negb (isNumeric part1) then
          syntaxError (str "Unrecognized input following letter d: " ++ token)
                      None
        else
          let countPart := if strEq part0 [] then str "1" else part0 in
          if negb (isNumeric countPart) then
            syntaxError (str "Unrecognized input before letter d: " ++ token)
                        None
          else
            let count := parseFloat countPart in
            if jsLt count (ofZ 1) then
              syntaxError (str "Unallowed count before letter d: " ++ token)
                          None
            else
              OK (CountedDiceRollExpression count (Die (parseFloat part1)))
    | _ =>
        syntaxError
          (str "Unrecognized input with too may letter d's: " ++ token) None
    end
  else if isNumeric token then OK (NumericalExpression (parseFloat token))
  else syntaxError (str "Unrecognized input: " ++ token) None.

(** *** expressionForReversePolishNotation *)

Record BuilderState : Type := {
  stack : list DiceExpression;
  diceCount : number
}.

(** [for (i = 0; i < n; i++) params.push(stack.pop())], which throws when
    the stack runs empty; [params] is kept in array order. *)
Fixpoint popParams (n : nat) (stack params : list DiceExpression)
  : Result (list DiceExpression * list DiceExpression) :=
  match n with
  | O => OK (params, stack)
  | S n' =>
      match stack with
      | [] => syntaxError (str "Incorrect amount of arguments") None
      | e :: stack' => popParams n' stack' (params ++ [e])
      end
  end.

Definition builderStep (this : DiceParser) (st : BuilderState)
    (token : jsstring) : Result BuilderState :=
  if isTokenOperator (Some token) then
    match operators token with
    | Some (OwnOperator operator) =>
        ps <- popParams (arguments operator) (stack st) [] ;;
        match rev (fst ps) with
        | [l; r] =>
            OK {| stack := operation operator l r :: snd ps;
                  diceCount := diceCount st |}
        | _ => Throw TypeError (* no operator has another arity *)
        end
    | _ =>
        (* a property of Object.prototype is not an Operator: reading
           its [arguments] or calling its [operation] throws *)
        Throw TypeError
    end
  else
    exp <- expressionForPrimitive token ;;
    match maximumDiceCount this, exp with
    | Some maximum, CountedDiceRollExpression count _ =>
        let diceCount' := jsAdd (diceCount st) count in
        if jsGt diceCount' maximum then Throw (DiceParserDiceCount maximum)
        else OK {| stack := exp :: stack st; diceCount := diceCount' |}
    | _, _ => OK {| stack := exp :: stack st; diceCount := diceCount st |}
    end.

(** The result is [stack[0]], the bottom of the stack; it is [undefined]
    ([None]) when no token was given. *)
Definition expressionForReversePolishNotation (this : DiceParser)
    (tokens : list jsstring) : Result (option DiceExpression) :=
  st <- forEach (builderStep this)
          {| stack := []; diceCount := ofZ 0 |} tokens ;;
  match stack st with
  | _ :: _ :: _ => syntaxError (str "Insufficient operators") None
  | l => OK (hd_error l)
  end.

(** *** parse *)

Definition parse (this : DiceParser) (value : jsstring)
  : Result (option DiceExpression) :=
  tokens <- tokenize value ;;
  match tokens with
  | [] => Throw DiceParserEmptyError
  | _ =>
      rpnStack <- shuntingYardConversion tokens ;;
      expressionForReversePolishNotation this rpnStack
  end.

(* ------------------------------------------------------------------ *)
(** ** Rolling *)

(** The samples [Math.random()] returns, one after the other. *)
Definition Random := nat -> Q.

(** [DiceRollExpression.roll]; [k] is the number of samples drawn so far. *)
Definition rollDie (rnd : Random) (d : DiceRollExpression) (k : nat)
  : DiceResult * nat :=
  let value := jsAdd (mathFloor (jsMul (fin (rnd k)) (die_size d))) (ofZ 1) in
  let max := strictEq value (die_size d) in
  let min := negb max && strictEq value (ofZ 1) in
  (AccumulatedResult value [mkRolled (die_size d) value max min], S k).

(** How often the body of [for (i = 1; i < count; i++)] runs; [None] when
    the loop never ends.  It bounds the number of turns of the loop of
    [countedLoop]. *)
Definition loopTrips (count : number) : option nat :=
  match count with
  | Fin q => Some (Z.to_nat (Qceiling q - 1))
  | PosInf => None
  | NegZero | NegInf | NaN => Some O
  end.

(** The loop of [CountedDiceRollExpression.roll] from the value [i] of the
    loop variable on; [fuel] bounds the number of turns, and the result
    is [None] when the loop would go on after [fuel] turns. *)
Fixpoint countedLoop (rnd : Random) (d : DiceRollExpression) (count : number)
    (fuel : nat) (i : number) (acc : DiceResult) (k : nat)
  : option (DiceResult * nat) :=
  if jsLt i count then
    match fuel with
    | O => None
    | S fuel' =>
        let (next, k') := rollDie rnd d k in
        countedLoop rnd d count fuel' (jsAdd i (ofZ 1))
          (AccumulatedResult (jsAdd (result_value acc) (result_value next))
                             (diceRolled acc ++ diceRolled next))
          k'
    end
  else Some (acc, k).

Definition applyOperator (op : ArithmeticOperator) (l r : number) : number :=
  match op with
  | Plus => jsAdd l r
  | Minus => jsSub l r
  | Times => jsMul l r
  | Divide => jsDiv l r
  end.

(** [roll()], started after [k] samples: the result and the number of
    samples drawn when it returns, or [None] when it does not return. *)
Fixpoint roll (rnd : Random) (e : DiceExpression) (k : nat)
  : option (DiceResult * nat) :=
  match e with
  | NumericalExpression value => Some (AccumulatedResult value [], k)
  | SingleDie d => Some (rollDie rnd d k)
  | CountedDiceRollExpression count d =>
      let (acc, k1) := rollDie rnd d k in
      match loopTrips count with
      | Some trips => countedLoop rnd d count trips (ofZ 1) acc k1
      | None => None
      end
  | InfixArithmeticExpression l r op =>
      match roll rnd l k with
      | Some (lres, k1) =>
          match roll rnd r k1 with
          | Some (rres, k2) =>
              Some (AccumulatedResult
                      (applyOperator op (result_value lres) (result_value rres))
                      (diceRolled lres ++ diceRolled rres),
                    k2)
          | None => None
          end
      | None => None
      end
  end.


(* ------------------------------------------------------------------ *)
(** * The earlier parser and the command line

    [src/parser.ts] is the parser [main.ts] runs.  It differs from the
    parser above in three respects: it throws plain [Error]s with a
    message, its check of a numeric text is [!isNaN(parseFloat(value))]
    alone, and it has no maximum dice count.  The expression classes and
    their [roll] are the same. *)

Module Legacy.

(** [Error(message)], or the [TypeError] of the engine. *)
Inductive Error : Type :=
  | mkError (message : jsstring)
  | TypeError.

Inductive Result (A : Type) : Type :=
  | OK (a : A)
  | Throw (e : Error).

Arguments OK {A} a.
Arguments Throw {A} e.

Definition bind {A B} (r : Result A) (f : A -> Result B) : Result B :=
  match r with
  | OK a => f a
  | Throw e => Throw e
  end.

Definition error {A} (message : jsstring) : Result A := Throw (mkError message).

(** A character read by [charAt], which is the empty string out of
    range, inside a template literal. *)
Definition charText (c : option ascii) : jsstring :=
  match c with Some x => [x] | None => [] end.

(** A token inside a template literal. *)
Definition tokenText (t : option jsstring) : jsstring :=
  match t with Some x => x | None => str "undefined" end.

Fixpoint tokenizeLoop (trimmedValue : jsstring) (i : nat)
    (prevC : option ascii) (rest : jsstring) (st : TokenizerState)
  : Result TokenizerState :=
  match rest with
  | [] => OK st
  | c :: rest' =>
      let nextC := hd_error rest' in
      let lastToken := top (tokens st) in
      let currentParsingStarted := negb (strEq (current st) []) in
      let continue := tokenizeLoop trimmedValue (S i) (Some c) rest' in
      if isCharPrimitive c
         || (charEq c "-"
             && negb currentParsingStarted
             && (match lastToken with None => true | Some _ => false end
                 || match lastToken with
                    | Some t => strEq t (str ",")
                    | None => false
                    end
                 || isTokenGroupStart lastToken
                 || isCharOperator lastToken)
             && testChar isDigitChar nextC)
      then
        continue {| tokens := tokens st;
                    current := current st ++ [c];
                    currentAdded := currentAdded st |}
      else if charEq c "." then
        if currentParsingStarted && currentAdded st
        then error (str "Invalid '.' in: '" ++ current st ++ [c] ++ str "'")
        else continue {| tokens := tokens st;
                         current := current st ++ [c];
                         currentAdded := true |}
      else if charEq c " " then
        if testChar isCharPrimitive prevC && testChar isCharPrimitive nextC
        then error (str "Space in token: '" ++ current st ++ [c]
                    ++ charText nextC ++ str "'")
        else continue st
      else if isCharOperator (Some [c])
              || isTokenGroupStart (Some [c])
              || isTokenGroupEnd (Some [c])
              || charEq c ","
      then
        if isCharOperator (Some [c])
           && negb currentParsingStarted
           && isCharOperator
                (Some match lastToken with Some t => t | None => [] end)
        then error (str "Consecutive operators: '" ++ tokenText lastToken
                    ++ [c] ++ str "'")
        else
          continue
            {| tokens :=
                 [c] :: (if currentParsingStarted
                         then current st :: tokens st
                         else tokens st);
               current := [];
               currentAdded := false |}
      else error (str "Invalid characters: '" ++ [c] ++ str "'")
  end.

Definition tokenize (value : jsstring) : Result (list jsstring) :=
  let trimmedValue := collapseSpaces (trim value) in
  bind (tokenizeLoop trimmedValue 0 None trimmedValue
          {| tokens := []; current := []; currentAdded := false |})
       (fun st =>
          OK (rev (if negb (strEq (current st) [])
                   then current st :: tokens st
                   else tokens st))).

Definition yardStep (st : YardState) (token : jsstring) : Result YardState :=
  if isTokenGroupStart (Some token) then
    OK {| outputStack := outputStack st;
          operatorStack := token :: operatorStack st |}
  else if isTokenGroupEnd (Some token) then
    let st1 := popWhile (fun t => negb (isTokenGroupStart (Some t)))
                 st (operatorStack st) in
    match operatorStack st1 with
    | t :: ops' =>
        if isTokenGroupStart (Some t)
        then OK {| outputStack := outputStack st1; operatorStack := ops' |}
        else error (str "Parens mismatch")
    | [] => error (str "Parens mismatch")
    end
  else if strEq token (str ",") then
    let st1 := popWhile (fun t => negb (isTokenGroupStart (Some t)))
                 st (operatorStack st) in
    match operatorStack st1 with
    | [] => error misplacedComma
    | _ :: _ => OK st1
    end
  else if isTokenOperator (Some token) then
    let st1 := popWhile
                 (fun t => isTokenOperator (Some t)
                           && geNumbers (precedenceOf t) (precedenceOf token))
                 st (operatorStack st) in
    OK {| outputStack := outputStack st1;
          operatorStack := token :: operatorStack st1 |}
  else
    OK {| outputStack := token :: outputStack st;
          operatorStack := operatorStack st |}.

Fixpoint forEach {St A} (step : St -> A -> Result St) (st : St) (l : list A)
  : Result St :=
  match l with
  | [] => OK st
  | x :: l' => bind (step st x) (fun st' => forEach step st' l')
  end.

Fixpoint drainOperators (st : YardState) (ops : list jsstring)
  : Result YardState :=
  match ops with
  | t :: ops' =>
      if negb (isTokenGroupStart (Some t))
      then drainOperators {| outputStack := t :: outputStack st;
                             operatorStack := ops' |} ops'
      else error (str "Parens mismatch")
  | [] => OK st
  end.

Definition shuntingYardConversion (tokens : list jsstring)
  : Result (list jsstring) :=
  bind (forEach yardStep {| outputStack := []; operatorStack := [] |} tokens)
       (fun st =>
          bind (drainOperators st (operatorStack st))
               (fun st' => OK (rev (outputStack st')))).

Definition isNumeric (value : jsstring) : bool := negb (isNaN (parseFloat value)).

Definition expressionForPrimitive (token : jsstring) : Result DiceExpression :=
  let tokenLower := toLowerCase token in
  if includes "d" tokenLower then
    match split "d" tokenLower with
    | [part0; part1] =>
        if negb (isNumeric part1) then
          error (str "Unrecognized input following letter d: " ++ token)
        else
          let countPart := if strEq part0 [] then str "1" else part0 in
          if negb (isNumeric countPart) then
            error (str "Unrecognized input before letter d: " ++ token)
          else
            let count := parseFloat countPart in
            if jsLt count (ofZ 1) then
              error (str "Unallowed count before letter d: " ++ token)
            else
              OK (CountedDiceRollExpression count (Die (parseFloat part1)))
    | _ =>
        error (str "Unrecognized input with too may letter d's: " ++ token)
    end
  else if isNumeric token then OK (NumericalExpression (parseFloat token))
  else error (str "Unrecognized input: " ++ token).

Fixpoint popParams (n : nat) (stack params : list DiceExpression)
  : Result (list DiceExpression * list DiceExpression) :=
  match n with
  | O => OK (params, stack)
  | S n' =>
      match stack with
      | [] => error (str "Incorrect amount of arguments")
      | e :: stack' => popParams n' stack' (params ++ [e])
      end
  end.

(** The state of the builder is its stack alone. *)
Definition builderStep (stack : list DiceExpression) (token : jsstring)
  : Result (list DiceExpression) :=
  if isTokenOperator (Some token) then
    match operators token with
    | Some (OwnOperator operator) =>
        bind (popParams (arguments operator) stack [])
             (fun ps =>
                match rev (fst ps) with
                | [l; r] => OK (operation operator l r :: snd ps)
                | _ => Throw TypeError
                end)
    | _ => Throw TypeError
    end
  else
    bind (expressionForPrimitive token) (fun exp => OK (exp :: stack)).

Definition expressionForReversePolishNotation (tokens : list jsstring)
  : Result (option DiceExpression) :=
  bind (forEach builderStep [] tokens)
       (fun stack =>
          match stack with
          | _ :: _ :: _ => error (str "Insufficient operators")
          | l => OK (hd_error l)
          end).

Definition parse (value : jsstring) : Result (option DiceExpression) :=
  bind (tokenize value)
       (fun tokens =>
          match tokens with
          | [] => error (str "Empty expression")
          | _ =>
              bind (shuntingYardConversion tokens)
                   expressionForReversePolishNotation
          end).

End Legacy.

(** [args.join(sep)] *)
Fixpoint join (sep : jsstring) (args : list jsstring) : jsstring :=
  match args with
  | [] => []
  | [a] => a
  | a :: args' => a ++ sep ++ join sep args'
  end.

(** [main.ts], run with the arguments [argv] of the process: what it
    prints, [None] when the roll does not return, or what it throws. *)
Definition main (rnd : Random) (argv : list jsstring)
  : Legacy.Result (option number) :=
  let args := skipn 2 argv in
  let text := join (str " ") args in
  Legacy.bind (Legacy.parse text)
    (fun exp =>
       match exp with
       | Some e =>
           Legacy.OK (option_map (fun r => result_value (fst r)) (roll rnd e 0))
       | None => Legacy.Throw Legacy.TypeError  (* [undefined.roll()] *)
       end).

(* ------------------------------------------------------------------ *)
(** * Notions used by the statements *)

(** The results of [n] successive rolls of the die [d], the first one
    reading sample [k]. *)
Definition dieRolls (rnd : Random) (d : DiceRollExpression) (k n : nat)
  : list DiceResult :=
  map (fun i => fst (rollDie rnd d (k + i))) (seq 0 n).

(** [v1 + v2 + ... + vn], added from the left. *)
Definition sumValues (vs : list number) : number :=
  match vs with
  | [] => ofZ 0
  | v :: vs' => fold_left jsAdd vs' v
  end.

(** A stream of samples of [0, 1) that is not constant. *)
Definition cycle4 : Random := fun i => Z.of_nat (i mod 4) # 4.

(** The operands of an expression tree, from left to right. *)
Fixpoint leaves (e : DiceExpression) : list DiceExpression :=
  match e with
  | InfixArithmeticExpression l r _ => leaves l ++ leaves r
  | _ => [e]
  end.


(** The sizes of the dice a roll of [e] reports, in order. *)
Fixpoint diceShape (e : DiceExpression) : list number :=
  match e with
  | NumericalExpression _ => []
  | SingleDie d => [die_size d]
  | CountedDiceRollExpression count d =>
      match loopTrips count with
      | Some trips => repeat (die_size d) (S trips)
      | None => []
      end
  | InfixArithmeticExpression l r _ => diceShape l ++ diceShape r
  end.



(** A token that is neither an operator, a parenthesis nor a comma: the
    tokens [expressionForPrimitive] is applied to. *)
Definition isOperandToken (t : jsstring) : bool :=
  negb (isTokenOperator (Some t) || isTokenGroupStart (Some t)
        || isTokenGroupEnd (Some t) || strEq t (str ",")).

Definition operandTokens (tokens : list jsstring) : list jsstring :=
  filter isOperandToken tokens.

(** [v] is the finite number of value [q]. *)
Definition finiteValue (v : number) (q : Q) : Prop :=
  isNaN v = false /\ isInfinite v = false /\ toQ v == q.

(** The shape of the tokens [tokenize] cuts out of an expression for its
    operands: word characters with at most one ["."], possibly after a
    unary minus that a digit follows. *)
Definition isWordOrDot (c : ascii) : bool := isWordChar c || charEq c ".".

Definition isUnsignedToken (t : jsstring) : bool :=
  negb (strEq t [])
  && forallb isWordOrDot t
  && (count_occ ascii_dec t "." <=? 1)%nat.

Definition isPrimitiveToken (t : jsstring) : bool :=
  match t with
  | c :: body =>
      if charEq c "-" then testChar isDigitChar (hd_error body)
                           && isUnsignedToken body
      else isUnsignedToken t
  | [] => false
  end.


(** A numeric literal of the grammar
    [number := ['-'] digits ['.' digits]]: its sign, the digits before the
    point and, when there is a point, the digits after it. *)
Record NumericLiteral : Type := {
  negative : bool;
  integerPart : jsstring;
  fractionPart : option jsstring
}.

Definition isDigits (ds : jsstring) : bool :=
  negb (strEq ds []) && forallb isDigitChar ds.

Definition validLiteral (n : NumericLiteral) : bool :=
  isDigits (integerPart n)
  && match fractionPart n with Some fp => isDigits fp | None => true end.

(** The text of the literal. *)
Definition literalText (n : NumericLiteral) : jsstring :=
  (if negative n then ["-"] else [])
  ++ integerPart n
  ++ match fractionPart n with Some fp => "." :: fp | None => [] end.

(** The natural number a string of decimal digits denotes: every digit
    counts for its place. *)
Fixpoint digitsDenote (ds : jsstring) : Z :=
  match ds with
  | [] => 0
  | d :: ds' =>
      ((Z.of_N (codeUnit d) - 48) * 10 ^ Z.of_nat (List.length ds')
       + digitsDenote ds')%Z
  end.

(** The number the literal denotes: integer part plus fraction. *)
Definition literalValue (n : NumericLiteral) : Q :=
  let magnitude :=
    inject_Z (digitsDenote (integerPart n))
    + match fractionPart n with
      | Some fp => inject_Z (digitsDenote fp)
                   / inject_Z (10 ^ Z.of_nat (List.length fp))
      | None => 0
      end in
  if negative n then - magnitude else magnitude.

(** The Die nodes of a tree and the counts of its Counted-Dice nodes,
    from left to right. *)
Fixpoint dieNodes (e : DiceExpression) : list DiceRollExpression :=
  match e with
  | NumericalExpression _ => []
  | SingleDie d => [d]
  | CountedDiceRollExpression _ d => [d]
  | InfixArithmeticExpression l r _ => dieNodes l ++ dieNodes r
  end.






(** No character of [s] is white space. *)
Definition noWhiteSpace (s : jsstring) : Prop :=
  Forall (fun c => isWhiteSpace c = false) s.

(** The condition on the last token under which a ["-"] is unary. *)
Definition unaryAllowed (lastToken : option jsstring) : bool :=
  match lastToken with None => true | Some _ => false end
  || match lastToken with Some t => strEq t (str ",") | None => false end
  || isTokenGroupStart lastToken
  || isCharOperator lastToken.

(** The four operator characters. *)
Definition isOperatorChar (c : ascii) : bool :=
  charEq c "+" || charEq c "-" || charEq c "*" || charEq c "/".

(** The tokens that wait above the incoming operator [token] and leave
    first: the operators whose precedence is not below its own. *)
Definition bindsFirst (token t : jsstring) : bool :=
  isTokenOperator (Some t) && geNumbers (precedenceOf t) (precedenceOf token).

(** The operator an operator character stands for. *)
Definition operatorOfChar (c : ascii) : ArithmeticOperator :=
  if charEq c "+" then Plus
  else if charEq c "-" then Minus
  else if charEq c "*" then Times
  else Divide.

(** What [parseFloat] reads in the text of a literal. *)
Definition literalNumber (n : NumericLiteral) : number :=
  let fp := match fractionPart n with Some f => f | None => [] end in
  decimalValue (negative n) (digitsValue (integerPart n ++ fp))
               (- Z.of_nat (List.length fp)).

(** The characters of the literals. *)
Definition isLiteralChar (c : ascii) : bool :=
  isDigitChar c || charEq c "-" || charEq c ".".

(** A token other than the opening parenthesis. *)
Definition notGroupStart (t : jsstring) : bool :=
  negb (isTokenGroupStart (Some t)).

(** A token the builder parses as a primitive. *)
Definition nonOperator (t : jsstring) : bool := negb (isTokenOperator (Some t)).

(** What can wait on the stack of pending operators. *)
Definition pendingOK (t : jsstring) : bool :=
  isTokenOperator (Some t) || isTokenGroupStart (Some t).

(** A parser without a maximum dice count, and one with the maximum [M]. *)
Definition unlimited : DiceParser := {| maximumDiceCount := None |}.


(* ------------------------------------------------------------------ *)
(** * Further notions: the steps of the tokenizer *)

(** The characters that are tokens of their own. *)
Definition isDelimiterChar (c : ascii) : bool :=
  isCharOperator (Some [c]) || isTokenGroupStart (Some [c])
  || isTokenGroupEnd (Some [c]) || charEq c ",".

(** One turn of the loop of [tokenize] that does not throw: from the
    state [st], on the character [c] with [next] after it. *)
Inductive tokenStep (next : option ascii)
  : TokenizerState -> ascii -> TokenizerState -> Prop :=
  | step_word st c :
      isCharPrimitive c = true ->
      tokenStep next st c
        {| tokens := tokens st; current := current st ++ [c];
           currentAdded := currentAdded st |}
  | step_minus st :
      current st = [] -> unaryAllowed (top (tokens st)) = true ->
      testChar isDigitChar next = true ->
      tokenStep next st "-"
        {| tokens := tokens st; current := current st ++ ["-"];
           currentAdded := currentAdded st |}
  | step_dot st :
      negb (strEq (current st) []) && currentAdded st = false ->
      tokenStep next st "."
        {| tokens := tokens st; current := current st ++ ["."];
           currentAdded := true |}
  | step_space st :
      tokenStep next st " " st
  | step_delimiter st c :
      isDelimiterChar c = true -> isCharPrimitive c = false ->
      tokenStep next st c
        {| tokens := [c] :: (if negb (strEq (current st) [])
                             then current st :: tokens st else tokens st);
           current := [];
           currentAdded := false |}.

(** The tokens a state of the tokenizer gives when the input ends there. *)
Definition flush (st : TokenizerState) : list jsstring :=
  rev (if negb (strEq (current st) []) then current st :: tokens st
       else tokens st).

(** What [tokenize] makes of its argument before the loop. *)
Definition normalize (value : jsstring) : jsstring :=
  collapseSpaces (trim value).

(** A token of the tokenizer: a delimiter or an operand. *)
Definition isToken (t : jsstring) : bool :=
  isPrimitiveToken t
  || match t with [c] => isDelimiterChar c | _ => false end.

(** A character other than the space. *)
Definition notSpace (c : ascii) : bool := negb (charEq c " ").

(** What [current] can be while [rest] is still to be read. *)
Definition currentShape (st : TokenizerState) (rest : jsstring) : Prop :=
  (current st = [] /\ currentAdded st = false)
  \/ (isPrimitiveToken (current st) = true /\
      currentAdded st = includes "." (current st))
  \/ (current st = ["-"] /\ currentAdded st = false /\
      testChar isDigitChar (hd_error rest) = true).

(** The kinds of errors of one step of the builder. *)
Definition builderError (this : DiceParser) (t : jsstring) (e : Error) : Prop :=
  (exists issue, e = DiceParserSyntaxError issue None)
  \/ (exists m, e = DiceParserDiceCount m /\ maximumDiceCount this = Some m)
  \/ (e = TypeError /\ In t objectPrototypeKeys).

(** The characters the tokenizer has a branch for. *)
Definition isAllowedChar (c : ascii) : bool :=
  isCharPrimitive c || charEq c "." || isWhiteSpace c || isDelimiterChar c.

(** The opening parentheses that wait on the operator stack. *)
Definition opens (ops : list jsstring) : nat :=
  List.length (filter (fun t => isTokenGroupStart (Some t)) ops).

(** The parentheses of [toks] match and every comma stands inside a
    pair, [depth] pairs being open in front of [toks]. *)
Fixpoint wellNested (depth : nat) (toks : list jsstring) : bool :=
  match toks with
  | [] => (depth =? 0)%nat
  | t :: toks' =>
      if isTokenGroupStart (Some t) then wellNested (S depth) toks'
      else if isTokenGroupEnd (Some t) then
        match depth with
        | O => false
        | S depth' => wellNested depth' toks'
        end
      else if strEq t (str ",") then
        negb (depth =? 0)%nat && wellNested depth toks'
      else wellNested depth toks'
  end.

(** The tokens that only group: parentheses and commas. *)
Definition isGrouping (t : jsstring) : bool :=
  isTokenGroupStart (Some t) || isTokenGroupEnd (Some t) || strEq t (str ",").

(** The tokens that reach the postfix order. *)
Definition notGrouping (t : jsstring) : bool := negb (isGrouping t).

(** The tokens the builder takes for operators. *)
Definition isOperatorToken (t : jsstring) : bool := isTokenOperator (Some t).

Definition operatorTokens (tokens : list jsstring) : list jsstring :=
  filter isOperatorToken tokens.

(** The operator nodes of a tree. *)
Fixpoint infixNodes (e : DiceExpression) : nat :=
  match e with
  | InfixArithmeticExpression l r _ => S (infixNodes l + infixNodes r)
  | _ => O
  end.

Definition stackNodes (s : list DiceExpression) : nat :=
  fold_right (fun e n => (infixNodes e + n)%nat) O s.

(** The same outcome but for the dice counted: the same stack or the
    same error. *)
Definition sameOutcome (r r0 : Result BuilderState) : Prop :=
  match r, r0 with
  | OK a, OK b => stack a = stack b
  | Throw e, Throw e' => e = e'
  | _, _ => False
  end.

(** The value of a tree without dice. *)
Fixpoint evaluate (e : DiceExpression) : number :=
  match e with
  | NumericalExpression value => value
  | InfixArithmeticExpression l r op =>
      applyOperator op (evaluate l) (evaluate r)
  | _ => NaN
  end.

(** The record of one roll of the die [d] on sample [j]. *)
Definition recordOf (rnd : Random) (d : DiceRollExpression) (j : nat)
  : list DiceRolled :=
  diceRolled (fst (rollDie rnd d j)).

(** The text of a literal without its sign. *)
Definition unsignedText (n : NumericLiteral) : jsstring :=
  integerPart n
  ++ match fractionPart n with Some fp => "." :: fp | None => [] end.

(** The letter of the dice notation, in either case. *)
Definition isDiceLetter (c : ascii) : bool := charEq c "d" || charEq c "D".

(** The letters of the prefixes [0x], [0o] and [0b], with their radix. *)
Definition radixOfLetter (x : ascii) : option Z :=
  if charEq x "x" || charEq x "X" then Some 16%Z
  else if charEq x "o" || charEq x "O" then Some 8%Z
  else if charEq x "b" || charEq x "B" then Some 2%Z
  else None.

(** The same outcome of the two parsers: the same value, or an error in
    both. *)
Definition agree {A} (r : Result A) (l : Legacy.Result A) : Prop :=
  match r, l with
  | OK a, Legacy.OK b => a = b
  | Throw _, Legacy.Throw _ => True
  | _, _ => False
  end.

Definition emptyExpression : Legacy.Error := Legacy.mkError (str "Empty expression").

(** The message of an error other than the one of an empty expression
    does not begin like it. *)
Definition otherError (e : Legacy.Error) : Prop :=
  match e with
  | Legacy.mkError (c :: _) => c <> "E"%char
  | Legacy.mkError [] => False
  | Legacy.TypeError => True
  end.

(* ------------------------------------------------------------------ *)
(** * Properties *)

(** ** Arithmetic of integral numbers *)

Lemma Qred_inject_Z (z : Z) : Qred (inject_Z z) = inject_Z z.
Proof.
  unfold inject_Z, Qred.
  pose proof (Z.ggcd_gcd z 1) as Hg.
  pose proof (Z.ggcd_correct_divisors z 1) as Hd.
  destruct (Z.ggcd z 1) as [g [aa bb]]; simpl in *.
  rewrite Z.gcd_1_r in Hg. subst g. destruct Hd as [Ha Hb].
  replace aa with z by lia. replace bb with 1%Z by lia. reflexivity.
Qed.

Lemma jsAdd_ofZ (a b : Z) : jsAdd (ofZ a) (ofZ b) = ofZ (a + b).
Proof.
  change (jsAdd (ofZ a) (ofZ b)) with (fin (inject_Z a + inject_Z b)).
  unfold fin, ofZ. rewrite <- (Qred_inject_Z (a + b)). f_equal.
  apply Qred_complete. rewrite inject_Z_plus. reflexivity.
Qed.


(** ** Rolling one die *)




(** ** Rolling counted dice *)

(** The guard [i < count] of the loop holds for exactly the first
    [loopTrips count] values [1, 2, ...] of [i]. *)
Lemma loopTrips_guard (count : number) (trips n : nat) :
  loopTrips count = Some trips ->
  jsLt (ofZ (1 + Z.of_nat n)) count = true <-> (n < trips)%nat.
Proof.
  destruct count as [q| | | |]; cbn [loopTrips]; intros E; try discriminate;
    injection E as <-.
  - change (jsLt (ofZ (1 + Z.of_nat n)) (Fin q))
      with (Qltb (inject_Z (1 + Z.of_nat n)) q).
    unfold Qltb. rewrite negb_true_iff.
    pose proof (Qceiling_lt q) as Hlt. pose proof (Qle_ceiling q) as Hle.
    split.
    + intros H.
      assert (inject_Z (1 + Z.of_nat n) < q) as L.
      { apply Qnot_le_lt. intros C. apply Qle_bool_iff in C. congruence. }
      assert (inject_Z (1 + Z.of_nat n) < inject_Z (Qceiling q)) as L2
        by (eapply Qlt_le_trans; eauto).
      rewrite <- Zlt_Qlt in L2. lia.
    + intros H. destruct (Qle_bool q (inject_Z (1 + Z.of_nat n))) eqn:C;
        [|reflexivity].
      apply Qle_bool_iff in C.
      assert (inject_Z (Qceiling q - 1) < inject_Z (1 + Z.of_nat n)) as L2
        by (eapply Qlt_le_trans; eauto).
      rewrite <- Zlt_Qlt in L2. lia.
  - split; [|lia]. intros H. exfalso.
    unfold jsLt, Qltb, toQ, ofZ in H. apply negb_true_iff in H.
    assert (Qle_bool 0 (inject_Z (1 + Z.of_nat n)) = true) as C
      by (apply Qle_bool_iff; unfold Qle; cbn [Qnum Qden inject_Z]; lia).
    congruence.
  - split; [discriminate | lia].
  - split; [discriminate | lia].
Qed.

Lemma loopTrips_unbounded (count : number) (n : nat) :
  loopTrips count = None -> jsLt (ofZ (1 + Z.of_nat n)) count = true.
Proof. destruct count; simpl; intros E; try discriminate; reflexivity. Qed.

Lemma dieRolls_S rnd d k n :
  dieRolls rnd d k (S n) = fst (rollDie rnd d k) :: dieRolls rnd d (S k) n.
Proof.
  unfold dieRolls. simpl. rewrite Nat.add_0_r. f_equal.
  rewrite <- seq_shift, map_map. apply map_ext. intros i.
  now rewrite Nat.add_succ_r.
Qed.

(** With [loopTrips count] turns allowed the loop runs to its end: the
    guard holds for each of these turns and fails after the last. *)
Lemma countedLoop_spec rnd d count trips (fuel : nat) : forall n acc k,
  loopTrips count = Some trips -> (n + fuel = trips)%nat ->
  countedLoop rnd d count fuel (ofZ (1 + Z.of_nat n)) acc k =
  Some (AccumulatedResult
          (fold_left jsAdd (map result_value (dieRolls rnd d k fuel))
                     (result_value acc))
          (diceRolled acc ++ flat_map diceRolled (dieRolls rnd d k fuel)),
        (k + fuel)%nat).
Proof.
  induction fuel as [|fuel IH]; intros n acc k Ht Hn.
  - cbn [countedLoop].
    destruct (jsLt (ofZ (1 + Z.of_nat n)) count) eqn:G.
    + apply (loopTrips_guard count trips n Ht) in G. lia.
    + cbn. rewrite app_nil_r, Nat.add_0_r. now destruct acc.
  - cbn [countedLoop].
    assert (G : jsLt (ofZ (1 + Z.of_nat n)) count = true)
      by (apply (loopTrips_guard count trips n Ht); lia).
    rewrite G, dieRolls_S. unfold rollDie at 1.
    rewrite jsAdd_ofZ.
    replace (1 + Z.of_nat n + 1)%Z with (1 + Z.of_nat (S n))%Z by lia.
    rewrite (IH (S n)) by (assumption || lia).
    cbn [fst result_value diceRolled map fold_left flat_map].
    rewrite <- app_assoc, Nat.add_succ_r. reflexivity.
Qed.

(** A counted roll that returns is the sequence of [1 + trips] die rolls. *)
Lemma roll_counted rnd count d k trips :
  loopTrips count = Some trips ->
  roll rnd (CountedDiceRollExpression count d) k =
  Some (AccumulatedResult
          (sumValues (map result_value (dieRolls rnd d k (S trips))))
          (flat_map diceRolled (dieRolls rnd d k (S trips))),
        (k + S trips)%nat).
Proof.
  intros E. cbn [roll]. rewrite E. unfold rollDie at 1.
  rewrite (countedLoop_spec rnd d count trips trips 0 _ _ E eq_refl), dieRolls_S.
  cbn [fst result_value diceRolled map flat_map sumValues app].
  unfold rollDie. cbn [fst result_value diceRolled app].
  now rewrite Nat.add_succ_r.
Qed.


Lemma flat_dieRolls rnd d k n :
  flat_map diceRolled (dieRolls rnd d k n) =
  map (fun i => let v := result_value (fst (rollDie rnd d (k + i))) in
                mkRolled (die_size d) v (strictEq v (die_size d))
                         (negb (strictEq v (die_size d)) && strictEq v (ofZ 1)))
      (seq 0 n).
Proof.
  unfold dieRolls. induction (seq 0 n) as [|i l IH]; [reflexivity|].
  cbn [map flat_map]. rewrite IH. reflexivity.
Qed.









(** ** Dice primitives with a count that is no integer *)

Lemma split_without_separator (sep : ascii) (s : jsstring) :
  includes sep s = false -> split sep s = [s].
Proof.
  induction s as [|c s IH]; [reflexivity|].
  unfold includes. cbn [existsb split]. intros H.
  apply orb_false_iff in H. destruct H as [Hc Hs].
  unfold charEq in *. rewrite Ascii.eqb_sym, Hc.
  unfold includes in IH. now rewrite (IH Hs).
Qed.





(** ** The structure of a roll *)




Lemma sizes_dieRolls rnd d k n :
  map rolled_size (flat_map diceRolled (dieRolls rnd d k n)) =
  repeat (die_size d) n.
Proof.
  rewrite flat_dieRolls, map_map. cbn [rolled_size].
  generalize 0%nat. induction n as [|n IH]; intros a; [reflexivity|].
  cbn [seq map repeat]. now rewrite IH.
Qed.

Ltac project_result :=
  repeat match goal with
  | |- context [diceRolled (AccumulatedResult ?a ?b)] =>
      change (diceRolled (AccumulatedResult a b)) with b
  | |- context [result_value (AccumulatedResult ?a ?b)] =>
      change (result_value (AccumulatedResult a b)) with a
  end.

(** What a roll reports depends on the samples, its shape does not. *)
Lemma roll_shape rnd (e : DiceExpression) : forall k res k',
  roll rnd e k = Some (res, k') ->
  map rolled_size (diceRolled res) = diceShape e /\
  k' = (k + List.length (diceRolled res))%nat.
Proof.
  induction e as [v|d|c d|l IHl r IHr op]; intros k res k' H.
  - injection H as <- <-. cbn. split; [reflexivity | lia].
  - injection H as <- <-. cbn. split; [reflexivity | lia].
  - cbn [diceShape]. destruct (loopTrips c) as [trips|] eqn:E.
    + rewrite (roll_counted rnd c d k trips E) in H.
      remember (dieRolls rnd d k (S trips)) as rs eqn:Ers.
      injection H as <- <-. subst rs. project_result. split; [apply sizes_dieRolls|].
      now rewrite flat_dieRolls, length_map, length_seq.
    + cbn [roll] in H. rewrite E in H. destruct (rollDie rnd d k). discriminate.
  - cbn [roll] in H.
    destruct (roll rnd l k) as [[lres k1]|] eqn:El; [|discriminate].
    destruct (roll rnd r k1) as [[rres k2]|] eqn:Er; [|discriminate].
    injection H as <- <-. project_result. cbn [diceShape].
    destruct (IHl _ _ _ El) as [Sl Kl]. destruct (IHr _ _ _ Er) as [Sr Kr].
    rewrite map_app, Sl, Sr, length_app. split; [reflexivity | lia].
Qed.


Lemma finiteValue_Fin (x q : Q) : x == q -> finiteValue (Fin x) q.
Proof. intros E. repeat split. exact E. Qed.

Lemma finiteValue_fin (x q : Q) : x == q -> finiteValue (fin x) q.
Proof.
  intros E. apply finiteValue_Fin. now rewrite Qred_correct.
Qed.

Lemma finiteValue_zero (s : bool) (q : Q) : q == 0 -> finiteValue (zero s) q.
Proof. intros E. destruct s; repeat split; cbn [toQ zero]; now rewrite E. Qed.



(** ** Characters *)

Ltac each_char c :=
  destruct c as [[] [] [] [] [] [] [] []]; try discriminate; try reflexivity.

Lemma wordChar_not_special (c : ascii) :
  isWordChar c = true ->
  charEq c "-" = false /\ charEq c "." = false /\ charEq c " " = false /\
  isWhiteSpace c = false.
Proof. intros H. each_char c; repeat split. Qed.




Lemma strEq_true (a b : jsstring) : strEq a b = true <-> a = b.
Proof. unfold strEq. destruct (list_eq_dec ascii_dec a b); split; congruence. Qed.

Lemma strEq_false (a b : jsstring) : strEq a b = false <-> a <> b.
Proof. unfold strEq. destruct (list_eq_dec ascii_dec a b); split; congruence. Qed.

Lemma charEq_true (a b : ascii) : charEq a b = true <-> a = b.
Proof. apply Ascii.eqb_eq. Qed.

(** ** The tokenizer, run on the characters of one token *)

Lemma dropWhile_head {A} (p : A -> bool) (l : list A) :
  match l with [] => True | x :: _ => p x = false end -> dropWhile p l = l.
Proof. destruct l as [|x l]; [reflexivity|]. cbn. now intros ->. Qed.

Lemma trim_noWhiteSpace (s : jsstring) : noWhiteSpace s -> trim s = s.
Proof.
  intros H. unfold trim, trimStart, trimEnd.
  rewrite (dropWhile_head _ s) by (destruct H; auto).
  rewrite dropWhile_head; [apply rev_involutive|].
  apply Forall_rev in H. destruct H; auto.
Qed.

Lemma collapse_noWhiteSpace (s : jsstring) :
  noWhiteSpace s -> collapseSpaces s = s.
Proof.
  unfold collapseSpaces. induction 1 as [|c s Hc _ IH]; [reflexivity|].
  cbn [collapseFrom]. now rewrite Hc, IH.
Qed.

Lemma wordOrDot_cases (c : ascii) :
  isWordOrDot c = true ->
  (isWordChar c = true /\ charEq c "." = false) \/ c = "."%char.
Proof.
  unfold isWordOrDot. intros H. apply orb_true_iff in H. destruct H as [H|H].
  - left. split; [exact H | now apply wordChar_not_special].
  - right. now apply charEq_true.
Qed.

Lemma wordOrDot_noWhite (c : ascii) : isWordOrDot c = true -> isWhiteSpace c = false.
Proof.
  intros H. destruct (wordOrDot_cases c H) as [[H1 _]| ->];
    [now apply wordChar_not_special | reflexivity].
Qed.

(** The characters of the body of a token are appended to [current]. *)
Lemma loop_token_body tv (body : jsstring) : forall i prev rest st,
  forallb isWordOrDot body = true ->
  (count_occ ascii_dec body "." + (if currentAdded st then 1 else 0) <= 1)%nat ->
  exists i' prev',
    tokenizeLoop tv i prev (body ++ rest) st =
    tokenizeLoop tv i' prev' rest
      {| tokens := tokens st;
         current := current st ++ body;
         currentAdded := currentAdded st || includes "." body |}.
Proof.
  induction body as [|c body IH]; intros i prev rest st Hall Hdots.
  - exists i, prev. cbn [app includes existsb]. rewrite app_nil_r, orb_false_r.
    now destruct st.
  - cbn [forallb] in Hall. apply andb_true_iff in Hall. destruct Hall as [Hc Hall].
    cbn [app tokenizeLoop].
    destruct (wordOrDot_cases c Hc) as [[Hw Hd]| ->].
    + unfold isCharPrimitive at 1. rewrite Hw. cbn [orb].
      cbn [count_occ] in Hdots.
      destruct (ascii_dec c ".") as [->|_]; [discriminate|].
      edestruct (IH (S i) (Some c) rest) as (i' & prev' & E);
        [exact Hall | | rewrite E].
      * cbn [currentAdded]. exact Hdots.
      * exists i', prev'. cbn [tokens current currentAdded includes existsb].
        unfold charEq in *. rewrite Ascii.eqb_sym, Hd. cbn [orb].
        now rewrite <- app_assoc.
    + cbn [count_occ] in Hdots.
      destruct (ascii_dec "." ".") as [_|N]; [|congruence].
      destruct (currentAdded st) eqn:Ea; [lia|].
      change (isCharPrimitive ".") with false. change (charEq "." "-") with false.
      change (charEq "." ".") with true. cbn [orb andb].
      rewrite andb_false_r.
      edestruct (IH (S i) (Some "."%char) rest) as (i' & prev' & E);
        [exact Hall | | rewrite E].
      * cbn [currentAdded]. lia.
      * exists i', prev'. cbn [tokens current currentAdded includes existsb].
        change (charEq "." ".") with true. cbn [orb].
        now rewrite <- app_assoc.
Qed.

(** A whole operand token is gathered in [current]. *)
Lemma loop_primitive_token tv (t : jsstring) : forall i prev rest st,
  isPrimitiveToken t = true ->
  current st = [] -> currentAdded st = false ->
  unaryAllowed (top (tokens st)) = true ->
  exists i' prev',
    tokenizeLoop tv i prev (t ++ rest) st =
    tokenizeLoop tv i' prev' rest
      {| tokens := tokens st; current := t; currentAdded := includes "." t |}.
Proof.
  intros i prev rest st Ht Hcur Hadd Hlast.
  destruct t as [|c body]; [discriminate|]. cbn [isPrimitiveToken] in Ht.
  destruct (charEq c "-") eqn:Ec.
  - apply charEq_true in Ec. subst c.
    apply andb_true_iff in Ht. destruct Ht as [Hd Hb].
    unfold isUnsignedToken in Hb. apply andb_true_iff in Hb.
    destruct Hb as [Hb Hdots]. apply andb_true_iff in Hb. destruct Hb as [_ Hall].
    apply Nat.leb_le in Hdots.
    cbn [app tokenizeLoop]. change (isCharPrimitive "-") with false.
    change (charEq "-" "-") with true. rewrite Hcur.
    change (strEq [] []) with true. cbn [negb orb andb].
    fold (unaryAllowed (top (tokens st))). rewrite Hlast. cbn [andb].
    assert (Hn : testChar isDigitChar (hd_error (body ++ rest)) = true).
    { destruct body; [discriminate | exact Hd]. }
    rewrite Hn.
    edestruct (loop_token_body tv body (S i) (Some "-"%char) rest) as (i' & prev' & E);
      [exact Hall | | rewrite E].
    + cbn [currentAdded]. rewrite Hadd. lia.
    + exists i', prev'. cbn [tokens current currentAdded]. rewrite Hadd.
      reflexivity.
  - unfold isUnsignedToken in Ht. apply andb_true_iff in Ht.
    destruct Ht as [Hb Hdots]. apply andb_true_iff in Hb. destruct Hb as [_ Hall].
    apply Nat.leb_le in Hdots.
    edestruct (loop_token_body tv (c :: body) i prev rest st) as (i' & prev' & E);
      [exact Hall | | rewrite E].
    + rewrite Hadd. lia.
    + exists i', prev'. rewrite Hcur, Hadd. reflexivity.
Qed.

Lemma operatorChar_operator (c : ascii) :
  isOperatorChar c = true -> isTokenOperator (Some [c]) = true.
Proof. each_char c. Qed.

Lemma operatorChar_class (c : ascii) :
  isOperatorChar c = true ->
  isCharPrimitive c = false /\ charEq c "." = false /\ charEq c " " = false /\
  isWhiteSpace c = false.
Proof. intros H. each_char c; repeat split. Qed.

(** An operator that follows an operand flushes the operand and is a token
    of its own. *)
Lemma loop_operator tv (c : ascii) i prev rest st :
  isOperatorChar c = true -> current st <> [] ->
  tokenizeLoop tv i prev (c :: rest) st =
  tokenizeLoop tv (S i) (Some c) rest
    {| tokens := [c] :: current st :: tokens st;
       current := [];
       currentAdded := false |}.
Proof.
  intros Hc Hcur. cbn [tokenizeLoop].
  destruct (operatorChar_class c Hc) as (Hp & Hdot & Hsp & _).
  rewrite Hp, Hdot, Hsp. apply strEq_false in Hcur. rewrite Hcur.
  cbn [negb orb andb]. rewrite !andb_false_r.
  unfold isCharOperator. rewrite (operatorChar_operator c Hc).
  cbn [orb andb]. reflexivity.
Qed.

Lemma primitiveToken_nonempty (t : jsstring) : isPrimitiveToken t = true -> t <> [].
Proof. destruct t; [discriminate | discriminate]. Qed.

Lemma unsignedToken_noWhite (t : jsstring) :
  isUnsignedToken t = true -> noWhiteSpace t.
Proof.
  unfold isUnsignedToken. intros H. apply andb_true_iff in H. destruct H as [H _].
  apply andb_true_iff in H. destruct H as [_ H].
  apply Forall_forall. intros c Hc.
  apply wordOrDot_noWhite. rewrite forallb_forall in H. now apply H.
Qed.

Lemma primitiveToken_noWhite (t : jsstring) :
  isPrimitiveToken t = true -> noWhiteSpace t.
Proof.
  destruct t as [|c body]; [discriminate|]. cbn [isPrimitiveToken].
  destruct (charEq c "-") eqn:Ec.
  - apply charEq_true in Ec. subst c. intros H.
    apply andb_true_iff in H. destruct H as [_ H].
    constructor; [reflexivity | now apply unsignedToken_noWhite].
  - apply unsignedToken_noWhite.
Qed.

(** An operand alone is one token. *)
Lemma tokenize_primitive (t : jsstring) :
  isPrimitiveToken t = true -> tokenize t = OK [t].
Proof.
  intros Ht. unfold tokenize.
  pose proof (primitiveToken_noWhite t Ht) as W.
  rewrite (trim_noWhiteSpace t W), (collapse_noWhiteSpace t W).
  destruct (loop_primitive_token t t 0%nat None []
              {| tokens := []; current := []; currentAdded := false |} Ht
              eq_refl eq_refl eq_refl) as (i' & prev' & E).
  rewrite app_nil_r in E. rewrite E. cbn [tokenizeLoop bind current tokens].
  apply primitiveToken_nonempty, strEq_false in Ht. rewrite Ht. reflexivity.
Qed.

(** [a o1 b o2 c], written without spaces, is cut into its five tokens. *)
Lemma tokenize_chain (a b c : jsstring) (o1 o2 : ascii) :
  isPrimitiveToken a = true -> isPrimitiveToken b = true ->
  isPrimitiveToken c = true ->
  isOperatorChar o1 = true -> isOperatorChar o2 = true ->
  tokenize (a ++ o1 :: b ++ o2 :: c) = OK [a; [o1]; b; [o2]; c].
Proof.
  intros Ha Hb Hc H1 H2. unfold tokenize.
  assert (W : noWhiteSpace (a ++ o1 :: b ++ o2 :: c)).
  { apply Forall_app. split; [now apply primitiveToken_noWhite|].
    constructor; [now apply operatorChar_class|].
    apply Forall_app. split; [now apply primitiveToken_noWhite|].
    constructor; [now apply operatorChar_class|].
    now apply primitiveToken_noWhite. }
  rewrite (trim_noWhiteSpace _ W), (collapse_noWhiteSpace _ W).
  generalize (a ++ o1 :: b ++ o2 :: c) at 1. intros tv.
  destruct (loop_primitive_token tv a 0%nat None (o1 :: b ++ o2 :: c)
              {| tokens := []; current := []; currentAdded := false |} Ha
              eq_refl eq_refl eq_refl) as (i1 & p1 & ->).
  rewrite loop_operator;
    [| exact H1 | now apply primitiveToken_nonempty].
  cbn [tokens current].
  edestruct (loop_primitive_token tv b) as (i2 & p2 & ->);
    [exact Hb | reflexivity | reflexivity | |].
  { cbn [tokens top hd_error]. unfold unaryAllowed, isCharOperator.
    apply orb_true_iff. right. exact (operatorChar_operator o1 H1). }
  rewrite loop_operator;
    [| exact H2 | now apply primitiveToken_nonempty].
  cbn [tokens current].
  assert (U : unaryAllowed (Some [o2]) = true).
  { unfold unaryAllowed, isCharOperator.
    apply orb_true_iff. right. exact (operatorChar_operator o2 H2). }
  destruct (loop_primitive_token tv c (S i2) (Some o2) []
              {| tokens := [[o2]; b; [o1]; a];
                 current := []; currentAdded := false |}
              Hc eq_refl eq_refl U) as (i3 & p3 & E).
  rewrite app_nil_r in E. rewrite E.
  cbn [tokenizeLoop bind current tokens].
  apply primitiveToken_nonempty, strEq_false in Hc. rewrite Hc. reflexivity.
Qed.

(** ** The precedence resolver *)

Lemma popWhile_spec (p : jsstring -> bool) (ops : list jsstring) :
  forall st, operatorStack st = ops ->
  popWhile p st ops =
  {| outputStack := rev (takeWhile p ops) ++ outputStack st;
     operatorStack := dropWhile p ops |}.
Proof.
  induction ops as [|t ops IH]; intros st E.
  - cbn. rewrite <- E. now destruct st.
  - cbn [popWhile takeWhile dropWhile]. destruct (p t).
    + rewrite IH by reflexivity. cbn [outputStack rev].
      now rewrite <- app_assoc.
    + cbn. rewrite <- E. now destruct st.
Qed.

Lemma operandToken_classes (t : jsstring) :
  isOperandToken t = true ->
  isTokenOperator (Some t) = false /\ isTokenGroupStart (Some t) = false /\
  isTokenGroupEnd (Some t) = false /\ strEq t (str ",") = false.
Proof.
  unfold isOperandToken. rewrite negb_true_iff, !orb_false_iff. tauto.
Qed.

(** An operand goes to the output at once. *)
Lemma yardStep_operand (st : YardState) (t : jsstring) :
  isOperandToken t = true ->
  yardStep st t = OK {| outputStack := t :: outputStack st;
                        operatorStack := operatorStack st |}.
Proof.
  intros H. destruct (operandToken_classes t H) as (H1 & H2 & H3 & H4).
  unfold yardStep. now rewrite H1, H2, H3, H4.
Qed.

(** An operator first sends the waiting operators that bind first to the
    output, the topmost first, then waits itself. *)
Lemma yardStep_operator (st : YardState) (c : ascii) :
  isOperatorChar c = true ->
  yardStep st [c] =
  OK {| outputStack :=
          rev (takeWhile (bindsFirst [c]) (operatorStack st)) ++ outputStack st;
        operatorStack :=
          [c] :: dropWhile (bindsFirst [c]) (operatorStack st) |}.
Proof.
  intros H. unfold yardStep.
  assert (E : isTokenGroupStart (Some [c]) = false /\
              isTokenGroupEnd (Some [c]) = false /\
              strEq [c] (str ",") = false) by (each_char c; repeat split).
  destruct E as (E1 & E2 & E3). rewrite E1, E2, E3.
  rewrite (operatorChar_operator c H).
  rewrite (popWhile_spec _ (operatorStack st) st eq_refl). reflexivity.
Qed.

Lemma forEach_app {St A} (step : St -> A -> Result St) (l1 l2 : list A) :
  forall st,
  forEach step st (l1 ++ l2) = (st' <- forEach step st l1 ;; forEach step st' l2).
Proof.
  induction l1 as [|x l1 IH]; intros st; [reflexivity|].
  cbn [app forEach]. destruct (step st x) as [st1|e]; [apply IH | reflexivity].
Qed.

(** The postfix order of [a - b - c] and of [a - b * c]. *)
Lemma yard_minus_minus (a b c : jsstring) :
  isOperandToken a = true -> isOperandToken b = true -> isOperandToken c = true ->
  shuntingYardConversion [a; str "-"; b; str "-"; c]
    = OK [a; b; str "-"; c; str "-"].
Proof.
  intros Ha Hb Hc. unfold shuntingYardConversion. cbn [forEach].
  rewrite (yardStep_operand _ a Ha). cbn [bind].
  change (str "-") with ["-"]. rewrite yardStep_operator by reflexivity.
  cbn [bind outputStack operatorStack takeWhile dropWhile rev app].
  rewrite (yardStep_operand _ b Hb). cbn [bind outputStack operatorStack].
  rewrite yardStep_operator by reflexivity.
  cbn [bind outputStack operatorStack].
  change (bindsFirst ["-"] ["-"]) with true.
  cbn [takeWhile dropWhile rev app].
  rewrite (yardStep_operand _ c Hc). reflexivity.
Qed.

Lemma yard_minus_times (a b c : jsstring) :
  isOperandToken a = true -> isOperandToken b = true -> isOperandToken c = true ->
  shuntingYardConversion [a; str "-"; b; str "*"; c]
    = OK [a; b; c; str "*"; str "-"].
Proof.
  intros Ha Hb Hc. unfold shuntingYardConversion. cbn [forEach].
  rewrite (yardStep_operand _ a Ha). cbn [bind].
  change (str "-") with ["-"]. change (str "*") with ["*"].
  rewrite yardStep_operator by reflexivity.
  cbn [bind outputStack operatorStack takeWhile dropWhile rev app].
  rewrite (yardStep_operand _ b Hb). cbn [bind outputStack operatorStack].
  rewrite yardStep_operator by reflexivity.
  cbn [bind outputStack operatorStack].
  change (bindsFirst ["*"] ["-"]) with false.
  cbn [takeWhile dropWhile rev app].
  rewrite (yardStep_operand _ c Hc). reflexivity.
Qed.

(** ** The expression builder *)

Lemma own_operator_infix (t : jsstring) (o : Operator) :
  operators t = Some (OwnOperator o) ->
  exists c op prec, t = [c] /\ isOperatorChar c = true /\ o = infix op prec.
Proof.
  unfold operators. intros H.
  repeat match type of H with
  | (if strEq t ?s then _ else _) = _ =>
      destruct (strEq t s) eqn:E;
      [ apply strEq_true in E; subst t; injection H as <-;
        eexists _, _, _; repeat split
      | clear E ]
  end.
  destruct (existsb _ _); discriminate.
Qed.

(** An operand is parsed and pushed (no maximum dice count configured). *)
Lemma builderStep_operand (this : DiceParser) (st : BuilderState)
    (t : jsstring) (e : DiceExpression) :
  maximumDiceCount this = None ->
  isOperandToken t = true ->
  expressionForPrimitive t = OK e ->
  builderStep this st t = OK {| stack := e :: stack st; diceCount := diceCount st |}.
Proof.
  intros Hm Ht He. destruct (operandToken_classes t Ht) as (H1 & _).
  unfold builderStep. rewrite H1, He, Hm. reflexivity.
Qed.

(** An operator takes the two topmost expressions, the right operand
    first, and pushes the node that joins them. *)
Lemma builderStep_operator (this : DiceParser) (c : ascii)
    (l r : DiceExpression) (rest : list DiceExpression) (n : number) :
  isOperatorChar c = true ->
  builderStep this {| stack := r :: l :: rest; diceCount := n |} [c] =
  OK {| stack := InfixArithmeticExpression l r (operatorOfChar c) :: rest;
        diceCount := n |}.
Proof. intros H. each_char c. Qed.

(** A token of the shape of an operand that parses as a primitive is no
    operator, parenthesis or comma. *)
Lemma primitive_is_operand (t : jsstring) (e : DiceExpression) :
  expressionForPrimitive t = OK e -> isOperandToken t = true.
Proof.
  intros He. unfold isOperandToken. apply negb_true_iff.
  rewrite !orb_false_iff. repeat split.
  - unfold isTokenOperator. destruct (operators t) as [p|] eqn:Eo;
      [|now rewrite andb_false_r].
    exfalso. unfold operators in Eo.
    repeat match type of Eo with
    | (if strEq t ?s then _ else _) = _ =>
        destruct (strEq t s) eqn:E;
        [ apply strEq_true in E; subst t; discriminate | clear E ]
    end.
    destruct (existsb (strEq t) objectPrototypeKeys) eqn:Ex; [|discriminate].
    apply existsb_exists in Ex. destruct Ex as (key & Hin & Hk).
    apply strEq_true in Hk. subst key.
    cbv [objectPrototypeKeys map] in Hin. cbn [In] in Hin.
    repeat (destruct Hin as [<-|Hin]; [discriminate|]). exact Hin.
  - destruct (strEq t (str "(")) eqn:E; [|exact E].
    apply strEq_true in E. subst t. discriminate.
  - cbn [isTokenGroupEnd]. destruct (strEq t (str ")")) eqn:E; [|reflexivity].
    apply strEq_true in E. subst t. discriminate.
  - destruct (strEq t (str ",")) eqn:E; [|reflexivity].
    apply strEq_true in E. subst t. discriminate.
Qed.

(** ** Precedence and associativity *)

Lemma bindsFirst_table (c t : ascii) :
  isOperatorChar c = true -> isOperatorChar t = true ->
  bindsFirst [c] [t] =
  match precedenceOf [c], precedenceOf [t] with
  | Some pc, Some pt => (pc <=? pt)%Z
  | _, _ => false
  end.
Proof. intros Hc Ht. each_char c; each_char t. Qed.

Lemma parse_chain (this : DiceParser) (a b c : jsstring) (o1 o2 : ascii)
    (rpn : list jsstring) :
  isPrimitiveToken a = true -> isPrimitiveToken b = true ->
  isPrimitiveToken c = true ->
  isOperatorChar o1 = true -> isOperatorChar o2 = true ->
  shuntingYardConversion [a; [o1]; b; [o2]; c] = OK rpn ->
  parse this (a ++ o1 :: b ++ o2 :: c) =
  expressionForReversePolishNotation this rpn.
Proof.
  intros Ha Hb Hc H1 H2 Hy. unfold parse.
  rewrite (tokenize_chain a b c o1 o2 Ha Hb Hc H1 H2). cbn [bind].
  now rewrite Hy.
Qed.

(** C7: the resolver is left-associative with [*] and [/] above [+] and
    [-]: an incoming operator first sends to the output the pending
    operators whose precedence is greater than or equal to its own; so,
    for all operands [a], [b], [c], [a-b-c] is parsed to [(a-b)-c] and
    [a-b*c] to [a-(b*c)]. *)
Theorem precedence_left_associative (a b c : jsstring)
    (ea eb ec : DiceExpression) :
  isPrimitiveToken a = true -> expressionForPrimitive a = OK ea ->
  isPrimitiveToken b = true -> expressionForPrimitive b = OK eb ->
  isPrimitiveToken c = true -> expressionForPrimitive c = OK ec ->
  let this := {| maximumDiceCount := None |} in
  (forall st o,
      isOperatorChar o = true ->
      yardStep st [o] =
      OK {| outputStack :=
              rev (takeWhile (bindsFirst [o]) (operatorStack st))
              ++ outputStack st;
            operatorStack :=
              [o] :: dropWhile (bindsFirst [o]) (operatorStack st) |}) /\
  (forall o t,
      isOperatorChar o = true -> isOperatorChar t = true ->
      bindsFirst [o] [t] = true <->
      exists po pt, precedenceOf [o] = Some po /\ precedenceOf [t] = Some pt /\
                    (po <= pt)%Z) /\
  (precedenceOf (str "+") = Some 1%Z /\ precedenceOf (str "-") = Some 1%Z /\
   precedenceOf (str "*") = Some 2%Z /\ precedenceOf (str "/") = Some 2%Z) /\
  parse this (a ++ str "-" ++ b ++ str "-" ++ c)
    = OK (Some (InfixArithmeticExpression
                  (InfixArithmeticExpression ea eb Minus) ec Minus)) /\
  parse this (a ++ str "-" ++ b ++ str "*" ++ c)
    = OK (Some (InfixArithmeticExpression
                  ea (InfixArithmeticExpression eb ec Times) Minus)).
Proof.
  intros Ha Ea Hb Eb Hc Ec this.
  pose proof (primitive_is_operand a ea Ea) as Oa.
  pose proof (primitive_is_operand b eb Eb) as Ob.
  pose proof (primitive_is_operand c ec Ec) as Oc.
  split; [intros st o Ho; now apply yardStep_operator|].
  split.
  { intros o t Ho Ht. rewrite (bindsFirst_table o t Ho Ht).
    destruct (precedenceOf [o]) as [po|] eqn:Po;
      [|each_char o].
    destruct (precedenceOf [t]) as [pt|] eqn:Pt;
      [|each_char t].
    rewrite Z.leb_le. split.
    - intros L. now exists po, pt.
    - intros (po' & pt' & E1 & E2 & L). congruence. }
  split; [repeat split|].
  split.
  - change (a ++ str "-" ++ b ++ str "-" ++ c) with (a ++ "-" :: b ++ "-" :: c).
    rewrite (parse_chain this a b c "-" "-" _ Ha Hb Hc eq_refl eq_refl
               (yard_minus_minus a b c Oa Ob Oc)).
    unfold expressionForReversePolishNotation. cbn [forEach].
    rewrite (builderStep_operand this _ a ea eq_refl Oa Ea). cbn [bind stack diceCount].
    rewrite (builderStep_operand this _ b eb eq_refl Ob Eb). cbn [bind stack diceCount].
    change (str "-") with ["-"].
    rewrite builderStep_operator by reflexivity. cbn [bind stack diceCount].
    rewrite (builderStep_operand this _ c ec eq_refl Oc Ec). cbn [bind stack diceCount].
    rewrite builderStep_operator by reflexivity. reflexivity.
  - change (a ++ str "-" ++ b ++ str "*" ++ c) with (a ++ "-" :: b ++ "*" :: c).
    rewrite (parse_chain this a b c "-" "*" _ Ha Hb Hc eq_refl eq_refl
               (yard_minus_times a b c Oa Ob Oc)).
    unfold expressionForReversePolishNotation. cbn [forEach].
    rewrite (builderStep_operand this _ a ea eq_refl Oa Ea). cbn [bind stack diceCount].
    rewrite (builderStep_operand this _ b eb eq_refl Ob Eb). cbn [bind stack diceCount].
    rewrite (builderStep_operand this _ c ec eq_refl Oc Ec). cbn [bind stack diceCount].
    change (str "*") with ["*"]. change (str "-") with ["-"].
    rewrite builderStep_operator by reflexivity. cbn [bind stack diceCount].
    rewrite builderStep_operator by reflexivity. reflexivity.
Qed.

Lemma precedence_left_associative_witness :
  let this := {| maximumDiceCount := None |} in
  parse this (str "2d6-1.5--3")
    = OK (Some (InfixArithmeticExpression
                  (InfixArithmeticExpression
                     (CountedDiceRollExpression (ofZ 2) (Die (ofZ 6)))
                     (NumericalExpression (Fin (3 # 2))) Minus)
                  (NumericalExpression (ofZ (-3))) Minus)) /\
  parse this (str "2d6-1.5*-3")
    = OK (Some (InfixArithmeticExpression
                  (CountedDiceRollExpression (ofZ 2) (Die (ofZ 6)))
                  (InfixArithmeticExpression
                     (NumericalExpression (Fin (3 # 2)))
                     (NumericalExpression (ofZ (-3))) Times)
                  Minus)).
Proof.
  exact (proj2 (proj2 (proj2
    (precedence_left_associative (str "2d6") (str "1.5") (str "-3")
       _ _ _ eq_refl eq_refl eq_refl eq_refl eq_refl eq_refl)))).
Defined.

(** ** Numeric literals *)

Lemma takeWhile_all {A} (p : A -> bool) (l : list A) :
  forallb p l = true -> takeWhile p l = l /\ dropWhile p l = [].
Proof.
  induction l as [|x l IH]; [now split|]. cbn. intros H.
  apply andb_true_iff in H. destruct H as [Hx Hl]. rewrite Hx.
  destruct (IH Hl) as [-> ->]. now split.
Qed.

Lemma takeWhile_stop {A} (p : A -> bool) (l : list A) (x : A) (r : list A) :
  forallb p l = true -> p x = false ->
  takeWhile p (l ++ x :: r) = l /\ dropWhile p (l ++ x :: r) = x :: r.
Proof.
  induction l as [|y l IH]; cbn; intros H Hx.
  - now rewrite Hx.
  - apply andb_true_iff in H. destruct H as [Hy Hl]. rewrite Hy.
    destruct (IH Hl Hx) as [-> ->]. now split.
Qed.

Lemma radixValue_app (radix : Z) (a b : jsstring) :
  radixValue radix (a ++ b) =
  fold_left (fun acc c => radix * acc + digitValue c)%Z b (radixValue radix a).
Proof. unfold radixValue. apply fold_left_app. Qed.

Lemma fold_digits_shift (ds : jsstring) : forall acc : Z,
  forallb isDigitChar ds = true ->
  fold_left (fun acc c => 10 * acc + digitValue c)%Z ds acc =
  (acc * 10 ^ Z.of_nat (List.length ds) + digitsDenote ds)%Z.
Proof.
  induction ds as [|d ds IH]; intros acc H.
  - cbn. lia.
  - cbn [forallb] in H. apply andb_true_iff in H. destruct H as [Hd Hds].
    cbn [fold_left digitsDenote List.length]. rewrite (IH _ Hds).
    unfold digitValue at 1. rewrite Hd.
    rewrite Nat2Z.inj_succ, Z.pow_succ_r by lia. ring.
Qed.

Lemma digitsValue_denote (ds : jsstring) :
  forallb isDigitChar ds = true -> digitsValue ds = digitsDenote ds.
Proof.
  intros H. unfold digitsValue, radixValue. rewrite (fold_digits_shift ds 0 H). lia.
Qed.

Lemma digitsValue_app (a b : jsstring) :
  forallb isDigitChar a = true -> forallb isDigitChar b = true ->
  digitsValue (a ++ b) =
  (digitsDenote a * 10 ^ Z.of_nat (List.length b) + digitsDenote b)%Z.
Proof.
  intros Ha Hb. unfold digitsValue. rewrite radixValue_app.
  rewrite (fold_digits_shift b _ Hb).
  fold (digitsValue a). now rewrite (digitsValue_denote a Ha).
Qed.

(** The value of [decimalValue] as a rational. *)
Lemma decimalValue_finite (neg : bool) (m e : Z) :
  finiteValue (decimalValue neg m e)
              (inject_Z (if neg then - m else m) * pow10 e).
Proof.
  unfold decimalValue. destruct (m =? 0)%Z eqn:E.
  - apply finiteValue_zero. apply Z.eqb_eq in E. subst m.
    destruct neg; cbn [Z.opp]; ring.
  - apply finiteValue_fin. reflexivity.
Qed.

Lemma digit_not_sign (c : ascii) :
  isDigitChar c = true ->
  charEq c "-" = false /\ charEq c "+" = false /\ charEq c "." = false /\
  charEq c "I" = false /\ lowerChar c = c /\ charEq c "d" = false.
Proof. intros H. each_char c; repeat split. Qed.

(** Scanning the digits of a literal, without its sign. *)
Lemma scanUnsigned_literal (neg : bool) (ip : jsstring) (fp : option jsstring) :
  isDigits ip = true ->
  match fp with Some f => isDigits f | None => true end = true ->
  scanUnsigned neg
    (ip ++ match fp with Some f => "." :: f | None => [] end) =
  Some (decimalValue neg
          (digitsValue (ip ++ match fp with Some f => f | None => [] end))
          (- Z.of_nat (List.length match fp with Some f => f | None => [] end)),
        []).
Proof.
  unfold isDigits. intros Hi Hf.
  apply andb_true_iff in Hi. destruct Hi as [Hne Hi].
  apply negb_true_iff, strEq_false in Hne.
  destruct ip as [|d ip]; [congruence|].
  assert (Hd : isDigitChar d = true) by (cbn in Hi; now apply andb_true_iff in Hi).
  unfold scanUnsigned.
  assert (Hinf : forall r, startsWith (str "Infinity") ((d :: ip) ++ r) = false).
  { intros r. unfold startsWith. apply strEq_false. cbn. intros C.
    injection C as C _. subst d. discriminate. }
  rewrite Hinf.
  destruct fp as [f|].
  - apply andb_true_iff in Hf. destruct Hf as [_ Hf].
    destruct (takeWhile_stop isDigitChar (d :: ip) "." f Hi eq_refl) as [-> ->].
    change (charEq "." ".") with true. cbv iota.
    destruct (takeWhile_all isDigitChar f Hf) as [-> ->].
    cbn [app scanExponent]. reflexivity.
  - rewrite app_nil_r.
    destruct (takeWhile_all isDigitChar (d :: ip) Hi) as [-> ->].
    cbn [app scanExponent]. rewrite app_nil_r. reflexivity.
Qed.

Lemma literal_head_digit (n : NumericLiteral) :
  validLiteral n = true ->
  exists d r, isDigitChar d = true /\
    integerPart n ++ match fractionPart n with Some f => "." :: f | None => [] end
    = d :: r.
Proof.
  unfold validLiteral, isDigits. intros H.
  apply andb_true_iff in H. destruct H as [H _].
  apply andb_true_iff in H. destruct H as [Hne Hi].
  destruct (integerPart n) as [|d ip]; [discriminate|].
  exists d, (ip ++ match fractionPart n with Some f => "." :: f | None => [] end).
  split; [|reflexivity]. cbn in Hi. now apply andb_true_iff in Hi.
Qed.

Lemma scan_literal (n : NumericLiteral) :
  validLiteral n = true ->
  scanStrDecimalLiteral (literalText n) = Some (literalNumber n, []).
Proof.
  intros V. pose proof V as V0. unfold validLiteral in V.
  apply andb_true_iff in V. destruct V as [Vi Vf].
  destruct (literal_head_digit n V0) as (d & r & Hd & Er).
  unfold scanStrDecimalLiteral, literalText, literalNumber.
  destruct (negative n).
  - cbn [app scanSign]. change (charEq "-" "-") with true. cbv iota.
    apply scanUnsigned_literal; assumption.
  - cbn [app]. rewrite Er. cbn [scanSign].
    destruct (digit_not_sign d Hd) as (-> & -> & _). rewrite <- Er.
    apply scanUnsigned_literal; assumption.
Qed.

Lemma literal_chars (n : NumericLiteral) :
  validLiteral n = true -> forallb isLiteralChar (literalText n) = true.
Proof.
  unfold validLiteral, isDigits, literalText. intros V.
  apply andb_true_iff in V. destruct V as [Vi Vf].
  apply andb_true_iff in Vi. destruct Vi as [_ Vi].
  assert (D : forall l, forallb isDigitChar l = true -> forallb isLiteralChar l = true).
  { intros l H. rewrite forallb_forall in *. intros c Hc.
    unfold isLiteralChar. now rewrite (H c Hc). }
  rewrite !forallb_app. rewrite (D _ Vi).
  destruct (negative n); destruct (fractionPart n) as [f|]; cbn [forallb andb];
    try reflexivity;
    apply andb_true_iff in Vf; destruct Vf as [_ Vf]; now rewrite (D _ Vf).
Qed.

Lemma literalChar_facts (c : ascii) :
  isLiteralChar c = true ->
  isWhiteSpace c = false /\ charEq "d" (lowerChar c) = false.
Proof. intros H. each_char c; repeat split. Qed.

Lemma literal_noWhite (n : NumericLiteral) :
  validLiteral n = true -> noWhiteSpace (literalText n).
Proof.
  intros V. apply Forall_forall. intros c Hc.
  pose proof (literal_chars n V) as H. rewrite forallb_forall in H.
  now apply literalChar_facts, H.
Qed.

Lemma literal_no_d (n : NumericLiteral) :
  validLiteral n = true -> includes "d" (toLowerCase (literalText n)) = false.
Proof.
  intros V. pose proof (literal_chars n V) as H. rewrite forallb_forall in H.
  unfold includes, toLowerCase.
  destruct (existsb _ _) eqn:E; [|reflexivity].
  apply existsb_exists in E. destruct E as (c & Hc & Ec).
  apply in_map_iff in Hc. destruct Hc as (c0 & <- & Hc0).
  destruct (literalChar_facts c0 (H c0 Hc0)) as [_ F]. congruence.
Qed.

Lemma literalText_nonempty (n : NumericLiteral) :
  validLiteral n = true -> literalText n <> [].
Proof.
  intros V. destruct (literal_head_digit n V) as (d & r & _ & Er).
  unfold literalText. rewrite Er. destruct (negative n); discriminate.
Qed.

Lemma parseFloat_literal (n : NumericLiteral) :
  validLiteral n = true -> parseFloat (literalText n) = literalNumber n.
Proof.
  intros V. unfold parseFloat, trimStart.
  rewrite dropWhile_head by (destruct (literal_noWhite n V); auto).
  now rewrite (scan_literal n V).
Qed.

Lemma toNumber_literal (n : NumericLiteral) :
  validLiteral n = true -> toNumber (literalText n) = literalNumber n.
Proof.
  intros V. unfold toNumber.
  rewrite (trim_noWhiteSpace _ (literal_noWhite n V)).
  pose proof (literalText_nonempty n V) as Hne.
  destruct (literalText n) eqn:E; [congruence|]. rewrite <- E.
  now rewrite (scan_literal n V).
Qed.

Lemma pow10_neg (k : nat) :
  pow10 (- Z.of_nat k) == / inject_Z (10 ^ Z.of_nat k).
Proof.
  unfold pow10. destruct k as [|k].
  - reflexivity.
  - assert (E : (0 <=? - Z.of_nat (S k))%Z = false) by (apply Z.leb_gt; lia).
    rewrite E.
    now rewrite Z.opp_involutive.
Qed.

Lemma literalNumber_value (n : NumericLiteral) :
  validLiteral n = true -> finiteValue (literalNumber n) (literalValue n).
Proof.
  intros V. unfold validLiteral, isDigits in V.
  apply andb_true_iff in V. destruct V as [Vi Vf].
  apply andb_true_iff in Vi. destruct Vi as [_ Vi].
  unfold literalNumber.
  destruct (decimalValue_finite (negative n)
              (digitsValue (integerPart n ++
                 match fractionPart n with Some f => f | None => [] end))
              (- Z.of_nat (List.length
                 match fractionPart n with Some f => f | None => [] end)))
    as (F1 & F2 & F3).
  split; [exact F1|]. split; [exact F2|]. rewrite F3. clear F1 F2 F3.
  unfold literalValue. rewrite pow10_neg.
  destruct (fractionPart n) as [f|].
  - apply andb_true_iff in Vf. destruct Vf as [_ Vf].
    rewrite (digitsValue_app _ _ Vi Vf).
    set (p := (10 ^ Z.of_nat (List.length f))%Z).
    assert (Hp : ~ inject_Z p == 0).
    { unfold Qeq. cbn [Qnum Qden inject_Z].
      assert (0 < p)%Z by (apply Z.pow_pos_nonneg; lia). lia. }
    destruct (negative n).
    + rewrite inject_Z_opp, inject_Z_plus, inject_Z_mult. field. exact Hp.
    + rewrite inject_Z_plus, inject_Z_mult. field. exact Hp.
  - rewrite app_nil_r, (digitsValue_denote _ Vi). cbn [List.length Z.of_nat].
    change (10 ^ 0)%Z with 1%Z.
    destruct (negative n).
    + rewrite inject_Z_opp. field.
    + field.
Qed.




Lemma yard_single (t : jsstring) :
  isOperandToken t = true -> shuntingYardConversion [t] = OK [t].
Proof.
  intros H. unfold shuntingYardConversion. cbn [forEach].
  now rewrite (yardStep_operand _ t H).
Qed.



(** ** The comma *)

Lemma dropWhile_nil_iff {A} (p : A -> bool) (l : list A) :
  dropWhile p l = [] <-> forallb p l = true.
Proof.
  induction l as [|x l IH]; cbn; [tauto|].
  destruct (p x); cbn; [exact IH | split; discriminate].
Qed.

(** What the resolver does with a comma. *)
Lemma yardStep_comma (st : YardState) :
  yardStep st (str ",") =
  if forallb notGroupStart (operatorStack st)
  then syntaxError misplacedComma None
  else OK {| outputStack :=
               rev (takeWhile notGroupStart (operatorStack st)) ++ outputStack st;
             operatorStack := dropWhile notGroupStart (operatorStack st) |}.
Proof.
  unfold yardStep. change (isTokenGroupStart (Some (str ","))) with false.
  change (isTokenGroupEnd (Some (str ","))) with false.
  change (strEq (str ",") (str ",")) with true. cbv iota.
  fold notGroupStart.
  rewrite (popWhile_spec notGroupStart (operatorStack st) st eq_refl).
  cbn [operatorStack].
  destruct (forallb notGroupStart (operatorStack st)) eqn:E.
  - apply dropWhile_nil_iff in E. now rewrite E.
  - destruct (dropWhile notGroupStart (operatorStack st)) eqn:D; [|reflexivity].
    apply dropWhile_nil_iff in D. congruence.
Qed.

Lemma yardStep_throws_syntax (st : YardState) (t : jsstring) (e : Error) :
  yardStep st t = Throw e -> exists issue, e = DiceParserSyntaxError issue None.
Proof.
  unfold yardStep, syntaxError. intros H.
  repeat match type of H with
  | (if ?c then _ else _) = _ => destruct c
  | match ?l with [] => _ | _ :: _ => _ end = _ => destruct l
  | OK _ = Throw _ => discriminate
  | Throw _ = Throw _ => injection H as <-; eexists; reflexivity
  end.
Qed.

Lemma forEach_yard_throws_syntax (l : list jsstring) : forall st e,
  forEach yardStep st l = Throw e ->
  exists issue, e = DiceParserSyntaxError issue None.
Proof.
  induction l as [|t l IH]; intros st e H; [discriminate|].
  cbn [forEach] in H. destruct (yardStep st t) as [st1|e1] eqn:E.
  - exact (IH _ _ H).
  - cbn in H. injection H as <-. exact (yardStep_throws_syntax _ _ _ E).
Qed.

Lemma takeWhile_dropWhile_app {A} (p : A -> bool) (l : list A) :
  takeWhile p l ++ dropWhile p l = l.
Proof. induction l as [|x l IH]; cbn; [reflexivity|]. destruct (p x); cbn; congruence. Qed.

Lemma forallb_dropWhile {A} (p q : A -> bool) (l : list A) :
  forallb q l = true -> forallb q (dropWhile p l) = true.
Proof.
  induction l as [|x l IH]; cbn; [auto|]. intros H.
  apply andb_true_iff in H. destruct H as [Hx Hl].
  destruct (p x); [auto | cbn; now rewrite Hx, Hl].
Qed.

(** Only an opening parenthesis among the tokens puts one on the stack of
    pending operators. *)
Lemma yardStep_no_group (st st' : YardState) (t : jsstring) :
  yardStep st t = OK st' ->
  notGroupStart t = true ->
  forallb notGroupStart (operatorStack st) = true ->
  forallb notGroupStart (operatorStack st') = true.
Proof.
  unfold yardStep, notGroupStart at 1. intros H Ht Hs.
  apply negb_true_iff in Ht. rewrite Ht in H.
  destruct (isTokenGroupEnd (Some t)).
  { rewrite popWhile_spec in H by reflexivity. cbn [operatorStack] in H.
    fold notGroupStart in H.
    destruct (dropWhile notGroupStart (operatorStack st)) eqn:D; [discriminate|].
    apply dropWhile_nil_iff in Hs. congruence. }
  destruct (strEq t (str ",")).
  { rewrite popWhile_spec in H by reflexivity. cbn [operatorStack] in H.
    destruct (dropWhile _ (operatorStack st)) eqn:D; [discriminate|].
    injection H as <-. cbn [operatorStack]. rewrite <- D.
    now apply forallb_dropWhile. }
  destruct (isTokenOperator (Some t)).
  { rewrite popWhile_spec in H by reflexivity. cbn [operatorStack outputStack] in H.
    injection H as <-. cbn [operatorStack forallb]. unfold notGroupStart at 1.
    rewrite Ht. cbn [negb andb]. now apply forallb_dropWhile. }
  injection H as <-. exact Hs.
Qed.

Lemma forEach_yard_no_group (l : list jsstring) : forall st st',
  forEach yardStep st l = OK st' ->
  forallb notGroupStart l = true ->
  forallb notGroupStart (operatorStack st) = true ->
  forallb notGroupStart (operatorStack st') = true.
Proof.
  induction l as [|t l IH]; intros st st' H Hl Hs.
  - injection H as <-. exact Hs.
  - cbn [forEach] in H. cbn [forallb] in Hl.
    apply andb_true_iff in Hl. destruct Hl as [Ht Hl].
    destruct (yardStep st t) as [st1|] eqn:E; [|discriminate].
    exact (IH _ _ H Hl (yardStep_no_group _ _ _ E Ht Hs)).
Qed.

Lemma yard_comma_outside (pre post : list jsstring) :
  forallb notGroupStart pre = true ->
  isSyntaxError (shuntingYardConversion (pre ++ str "," :: post)).
Proof.
  intros Hpre. unfold shuntingYardConversion.
  set (st0 := {| outputStack := []; operatorStack := [] |}).
  assert (T : exists issue,
             forEach yardStep st0 (pre ++ str "," :: post)
             = Throw (DiceParserSyntaxError issue None)).
  { rewrite forEach_app.
    destruct (forEach yardStep st0 pre) as [st1|e] eqn:E.
    - cbn [bind forEach]. rewrite yardStep_comma.
      rewrite (forEach_yard_no_group pre st0 st1 E Hpre eq_refl).
      eexists. reflexivity.
    - destruct (forEach_yard_throws_syntax _ _ _ E) as (issue & ->).
      eexists. reflexivity. }
  destruct T as (issue & ->). eexists _, _. reflexivity.
Qed.

(** C2, as it holds: a comma is an error exactly when no opening
    parenthesis is pending at that moment; otherwise the operators above
    the parenthesis go to the output and the comma is dropped.  Every
    input whose tokens have a comma with no opening parenthesis before it
    fails with a syntax error. *)
Theorem comma_outside_parentheses (this : DiceParser) (value : jsstring)
    (pre post : list jsstring) :
  tokenize value = OK (pre ++ str "," :: post) ->
  forallb notGroupStart pre = true ->
  isSyntaxError (parse this value) /\
  (forall st,
      forallb notGroupStart (operatorStack st) = true ->
      yardStep st (str ",") = syntaxError misplacedComma None) /\
  (forall st,
      forallb notGroupStart (operatorStack st) = false ->
      yardStep st (str ",") =
      OK {| outputStack :=
              rev (takeWhile notGroupStart (operatorStack st)) ++ outputStack st;
            operatorStack := dropWhile notGroupStart (operatorStack st) |}).
Proof.
  intros Ht Hpre. split; [|split].
  - unfold parse. rewrite Ht. cbn [bind].
    destruct (pre ++ str "," :: post) eqn:E; [now destruct pre|]. rewrite <- E.
    destruct (yard_comma_outside pre post Hpre) as (issue & loc & ->).
    eexists _, _. reflexivity.
  - intros st H. now rewrite yardStep_comma, H.
  - intros st H. now rewrite yardStep_comma, H.
Qed.

Lemma comma_outside_parentheses_witness :
  isSyntaxError (parse {| maximumDiceCount := None |} (str "1+2,3")).
Proof.
  exact (proj1 (comma_outside_parentheses {| maximumDiceCount := None |}
                  (str "1+2,3") [str "1"; str "+"; str "2"] [str "3"]
                  eq_refl eq_refl)).
Defined.

(** C2 as stated fails: a comma inside parentheses is accepted. *)
Lemma comma_inside_parentheses_accepted :
  let this := {| maximumDiceCount := None |} in
  tokenize (str "(1,+2)")
    = OK [str "("; str "1"; str ","; str "+"; str "2"; str ")"] /\
  parse this (str "(1,+2)")
    = OK (Some (InfixArithmeticExpression
                  (NumericalExpression (ofZ 1)) (NumericalExpression (ofZ 2))
                  Plus)) /\
  ~ (forall (value : jsstring) (toks : list jsstring),
        tokenize value = OK toks -> In (str ",") toks ->
        throws (parse this value)).
Proof.
  intros this. split; [reflexivity|]. split; [reflexivity|].
  intros H.
  destruct (H (str "(1,+2)")
              [str "("; str "1"; str ","; str "+"; str "2"; str ")"]
              eq_refl) as (e & He).
  - cbn. tauto.
  - discriminate He.
Qed.

(** ** Invariants of the resolver *)

Lemma OK_inj {A} (a b : A) : OK a = OK b -> a = b.
Proof. now intros [= ->]. Qed.

(** A property of all tokens holds for all tokens of the postfix order. *)
Lemma popWhile_Forall (T : jsstring -> Prop) (p : jsstring -> bool)
    (st : YardState) :
  Forall T (outputStack st) -> Forall T (operatorStack st) ->
  Forall T (outputStack (popWhile p st (operatorStack st))) /\
  Forall T (operatorStack (popWhile p st (operatorStack st))).
Proof.
  intros Ho Hs. rewrite popWhile_spec by reflexivity. cbn [outputStack operatorStack].
  rewrite <- (takeWhile_dropWhile_app p (operatorStack st)) in Hs.
  apply Forall_app in Hs. destruct Hs as [H1 H2].
  split; [|exact H2]. apply Forall_app. split; [|exact Ho].
  now apply Forall_rev.
Qed.

Lemma yardStep_Forall (T : jsstring -> Prop) (st st' : YardState) (t : jsstring) :
  yardStep st t = OK st' -> T t ->
  Forall T (outputStack st) -> Forall T (operatorStack st) ->
  Forall T (outputStack st') /\ Forall T (operatorStack st').
Proof.
  unfold yardStep. intros H Ht Ho Hs.
  destruct (isTokenGroupStart (Some t)).
  { injection H as <-. cbn. split; [exact Ho | now constructor]. }
  destruct (isTokenGroupEnd (Some t)).
  { match type of H with
    | context [popWhile ?p st (operatorStack st)] =>
        destruct (popWhile_Forall T p st Ho Hs) as [P1 P2]
    end.
    destruct (operatorStack (popWhile _ st (operatorStack st))) as [|x ops];
      [discriminate|].
    destruct (isTokenGroupStart (Some x)); [|discriminate].
    injection H as <-. cbn. split; [exact P1 | now inversion P2]. }
  destruct (strEq t (str ",")).
  { match type of H with
    | context [popWhile ?p st (operatorStack st)] =>
        destruct (popWhile_Forall T p st Ho Hs) as [P1 P2]
    end.
    destruct (operatorStack (popWhile _ st (operatorStack st))) eqn:E;
      [discriminate|].
    apply OK_inj in H. subst st'. rewrite E. now split. }
  destruct (isTokenOperator (Some t)).
  { match type of H with
    | context [popWhile ?p st (operatorStack st)] =>
        destruct (popWhile_Forall T p st Ho Hs) as [P1 P2]
    end.
    injection H as <-. cbn. split; [exact P1 | now constructor]. }
  injection H as <-. cbn. split; [now constructor | exact Hs].
Qed.

Lemma forEach_yard_Forall (T : jsstring -> Prop) (l : list jsstring) :
  forall st st',
  forEach yardStep st l = OK st' -> Forall T l ->
  Forall T (outputStack st) -> Forall T (operatorStack st) ->
  Forall T (outputStack st') /\ Forall T (operatorStack st').
Proof.
  induction l as [|t l IH]; intros st st' H Hl Ho Hs.
  - injection H as <-. now split.
  - cbn [forEach] in H. inversion Hl as [|? ? Ht Hl']; subst.
    destruct (yardStep st t) as [st1|] eqn:E; [|discriminate].
    destruct (yardStep_Forall T _ _ _ E Ht Ho Hs) as [P1 P2].
    exact (IH _ _ H Hl' P1 P2).
Qed.

Lemma drainOperators_spec (ops : list jsstring) : forall st st',
  drainOperators st ops = OK st' ->
  outputStack st' = rev ops ++ outputStack st /\
  forallb notGroupStart ops = true.
Proof.
  induction ops as [|t ops IH]; intros st st' H.
  - injection H as <-. now split.
  - cbn [drainOperators] in H. fold (notGroupStart t) in H.
    destruct (notGroupStart t) eqn:E; [|discriminate].
    destruct (IH _ _ H) as [-> F]. cbn [outputStack rev forallb].
    rewrite E, F, <- app_assoc. now split.
Qed.

Lemma yard_tokens_Forall (T : jsstring -> Prop) (toks rpn : list jsstring) :
  shuntingYardConversion toks = OK rpn -> Forall T toks -> Forall T rpn.
Proof.
  unfold shuntingYardConversion. intros H Ht.
  destruct (forEach yardStep _ toks) as [st|] eqn:E; [|discriminate].
  cbn [bind] in H.
  destruct (drainOperators st (operatorStack st)) as [st'|] eqn:D; [|discriminate].
  injection H as <-.
  destruct (forEach_yard_Forall T toks _ _ E Ht) as [P1 P2]; try constructor.
  destruct (drainOperators_spec _ _ _ D) as [-> _].
  apply Forall_rev, Forall_app. split; [now apply Forall_rev | exact P1].
Qed.

Lemma filter_nonOperator_nil (p : jsstring -> bool) (ops : list jsstring) :
  forallb pendingOK ops = true ->
  (forall t, p t = true -> isTokenGroupStart (Some t) = false) ->
  filter nonOperator (takeWhile p ops) = [].
Proof.
  intros Hops Hp. induction ops as [|t ops IH]; [reflexivity|].
  cbn [forallb] in Hops. apply andb_true_iff in Hops. destruct Hops as [Ht Hops].
  cbn [takeWhile]. destruct (p t) eqn:E; [|reflexivity].
  cbn [filter]. unfold nonOperator at 1. unfold pendingOK in Ht.
  rewrite (Hp t E), orb_false_r in Ht. rewrite Ht. cbn [negb]. now apply IH.
Qed.

Lemma group_not_operator (t : jsstring) :
  isTokenGroupStart (Some t) = true -> isTokenOperator (Some t) = false.
Proof. cbn. intros H. apply strEq_true in H. now subst t. Qed.

Ltac tidy_bools :=
  repeat (rewrite ?orb_true_r, ?orb_false_r, ?andb_true_r, ?app_nil_r;
          cbn [negb orb andb app]).

Lemma yardStep_operands (st st' : YardState) (t : jsstring) :
  yardStep st t = OK st' ->
  forallb pendingOK (operatorStack st) = true ->
  forallb pendingOK (operatorStack st') = true /\
  filter nonOperator (rev (outputStack st')) =
  filter nonOperator (rev (outputStack st)) ++ operandTokens [t].
Proof.
  unfold yardStep, operandTokens, isOperandToken. cbn [filter]. intros H Hs.
  destruct (isTokenGroupStart (Some t)) eqn:Eg.
  { apply OK_inj in H. subst st'. cbn [operatorStack outputStack forallb].
    unfold pendingOK at 1. rewrite Eg, Hs. tidy_bools. now split. }
  destruct (isTokenGroupEnd (Some t)) eqn:Ee.
  { rewrite popWhile_spec in H by reflexivity. cbn [operatorStack outputStack] in H.
    fold notGroupStart in H.
    destruct (dropWhile notGroupStart (operatorStack st)) as [|x ops] eqn:D;
      [discriminate|].
    destruct (isTokenGroupStart (Some x)); [|discriminate].
    apply OK_inj in H. subst st'. cbn [operatorStack outputStack]. tidy_bools.
    pose proof (forallb_dropWhile notGroupStart pendingOK _ Hs) as F.
    rewrite D in F. cbn [forallb] in F. apply andb_true_iff in F.
    split; [tauto|].
    rewrite rev_app_distr, rev_involutive, filter_app.
    rewrite filter_nonOperator_nil; [now rewrite app_nil_r | exact Hs |].
    intros y Hy. now apply negb_true_iff in Hy. }
  destruct (strEq t (str ",")) eqn:Ec.
  { rewrite popWhile_spec in H by reflexivity. cbn [operatorStack outputStack] in H.
    fold notGroupStart in H.
    destruct (dropWhile notGroupStart (operatorStack st)) as [|x ops] eqn:D;
      [discriminate|].
    apply OK_inj in H. subst st'. cbn [operatorStack outputStack]. tidy_bools.
    split; [rewrite <- D; now apply forallb_dropWhile|].
    rewrite rev_app_distr, rev_involutive, filter_app.
    rewrite filter_nonOperator_nil; [now rewrite app_nil_r | exact Hs |].
    intros y Hy. now apply negb_true_iff in Hy. }
  destruct (isTokenOperator (Some t)) eqn:Eo.
  { rewrite popWhile_spec in H by reflexivity. cbn [operatorStack outputStack] in H.
    apply OK_inj in H. subst st'. cbn [operatorStack outputStack forallb].
    tidy_bools. unfold pendingOK at 1. rewrite Eo. cbn [orb andb].
    split; [now apply forallb_dropWhile|].
    rewrite rev_app_distr, rev_involutive, filter_app.
    rewrite filter_nonOperator_nil; [now rewrite app_nil_r | exact Hs |].
    intros y Hy. apply andb_true_iff in Hy. destruct Hy as [Hy _].
    destruct (isTokenGroupStart (Some y)) eqn:G; [|reflexivity].
    rewrite (group_not_operator y G) in Hy. discriminate. }
  apply OK_inj in H. subst st'. cbn [operatorStack outputStack negb orb rev].
  split; [exact Hs|]. rewrite filter_app. cbn [filter].
  unfold nonOperator at 2. now rewrite Eo.
Qed.

Lemma forEach_yard_operands (l : list jsstring) : forall st st',
  forEach yardStep st l = OK st' ->
  forallb pendingOK (operatorStack st) = true ->
  forallb pendingOK (operatorStack st') = true /\
  filter nonOperator (rev (outputStack st')) =
  filter nonOperator (rev (outputStack st)) ++ operandTokens l.
Proof.
  induction l as [|t l IH]; intros st st' H Hs.
  - injection H as <-. cbn. now rewrite app_nil_r.
  - cbn [forEach] in H. destruct (yardStep st t) as [st1|] eqn:E; [|discriminate].
    destruct (yardStep_operands _ _ _ E Hs) as [P1 P2].
    destruct (IH _ _ H P1) as [Q1 Q2]. split; [exact Q1|].
    rewrite Q2, P2, <- app_assoc. f_equal.
    unfold operandTokens. now rewrite <- filter_app.
Qed.

(** The operands of the postfix order are those of the tokens, in the
    same order. *)
Lemma yard_operand_order (toks rpn : list jsstring) :
  shuntingYardConversion toks = OK rpn ->
  filter nonOperator rpn = operandTokens toks.
Proof.
  unfold shuntingYardConversion. intros H.
  destruct (forEach yardStep _ toks) as [st|] eqn:E; [|discriminate].
  cbn [bind] in H.
  destruct (drainOperators st (operatorStack st)) as [st'|] eqn:D; [|discriminate].
  injection H as <-.
  destruct (forEach_yard_operands toks _ _ E eq_refl) as [P1 P2].
  destruct (drainOperators_spec _ _ _ D) as [-> F].
  rewrite rev_app_distr, rev_involutive, filter_app, P2. cbn [outputStack rev filter app].
  assert (N : filter nonOperator (operatorStack st) = []).
  { clear -P1 F. induction (operatorStack st) as [|t ops IH]; [reflexivity|].
    cbn [forallb filter] in *. apply andb_true_iff in P1, F.
    destruct P1 as [P P1], F as [G F]. unfold pendingOK in P.
    unfold notGroupStart in G. apply negb_true_iff in G.
    rewrite G, orb_false_r in P. unfold nonOperator at 1. rewrite P. cbn [negb].
    now apply IH. }
  now rewrite N, app_nil_r.
Qed.

(** ** Invariants of the builder *)

(** What a successful step of the builder does. *)
Lemma builderStep_cases (this : DiceParser) (st st' : BuilderState)
    (t : jsstring) :
  builderStep this st t = OK st' ->
  (exists c l r rest,
      t = [c] /\ isOperatorChar c = true /\ isTokenOperator (Some t) = true /\
      stack st = r :: l :: rest /\
      st' = {| stack := InfixArithmeticExpression l r (operatorOfChar c) :: rest;
               diceCount := diceCount st |})
  \/ (isTokenOperator (Some t) = false /\
      exists e, expressionForPrimitive t = OK e /\
                stack st' = e :: stack st /\
                match maximumDiceCount this, e with
                | Some m, CountedDiceRollExpression c _ =>
                    diceCount st' = jsAdd (diceCount st) c /\
                    jsGt (jsAdd (diceCount st) c) m = false
                | _, _ => diceCount st' = diceCount st
                end).
Proof.
  intros H0. pose proof H0 as H. unfold builderStep in H.
  destruct (isTokenOperator (Some t)) eqn:Eo.
  - left. destruct (operators t) as [[o|]|] eqn:Ep; try discriminate.
    destruct (own_operator_infix t o Ep) as (c & op & prec & -> & Hc & ->).
    destruct st as [[|r [|l rest]] n]; try discriminate.
    exists c, l, r, rest. repeat split; try assumption.
    rewrite (builderStep_operator this c l r rest n Hc) in H0.
    apply OK_inj in H0. now subst st'.
  - right. split; [reflexivity|].
    destruct (expressionForPrimitive t) as [e|] eqn:Ee; [|discriminate].
    exists e. split; [reflexivity|]. cbn [bind] in H.
    destruct (maximumDiceCount this) as [m|].
    + destruct e; try (apply OK_inj in H; subst st'; now split).
      destruct (jsGt (jsAdd (diceCount st) count) m) eqn:G; [discriminate|].
      apply OK_inj in H. subst st'. now repeat split.
    + destruct e; apply OK_inj in H; subst st'; now split.
Qed.

(** A primitive is a numeric leaf or counted dice. *)
Lemma primitive_cases (t : jsstring) (e : DiceExpression) :
  expressionForPrimitive t = OK e ->
  (exists v, e = NumericalExpression v /\ v = parseFloat t /\
             isNaN v = false) \/
  (exists part0 part1,
      split "d" (toLowerCase t) = [part0; part1] /\
      let countPart := if strEq part0 [] then str "1" else part0 in
      e = CountedDiceRollExpression (parseFloat countPart)
                                    (Die (parseFloat part1)) /\
      isNumeric part1 = true /\ isNumeric countPart = true /\
      jsLt (parseFloat countPart) (ofZ 1) = false).
Proof.
  unfold expressionForPrimitive, syntaxError. intros H.
  destruct (includes "d" (toLowerCase t)).
  - right. destruct (split "d" (toLowerCase t)) as [|p0 [|p1 [|]]];
      try discriminate.
    exists p0, p1. split; [reflexivity|]. cbv zeta.
    destruct (isNumeric p1) eqn:N1; [|discriminate]. cbn [negb] in H.
    destruct (isNumeric (if strEq p0 [] then str "1" else p0)) eqn:N0;
      [|discriminate].
    cbn [negb] in H.
    destruct (jsLt _ (ofZ 1)) eqn:L; [discriminate|].
    apply OK_inj in H. subst e. now repeat split.
  - left. destruct (isNumeric t) eqn:N; [|discriminate].
    apply OK_inj in H. subst e. eexists. split; [reflexivity|].
    split; [reflexivity|]. unfold isNumeric in N.
    apply andb_true_iff in N. destruct N as [_ N]. now apply negb_true_iff in N.
Qed.




(** What [parse] returns, in the terms of its three stages. *)
Lemma parse_stages (this : DiceParser) (value : jsstring)
    (r : option DiceExpression) :
  parse this value = OK r ->
  exists toks rpn st,
    tokenize value = OK toks /\ toks <> [] /\
    shuntingYardConversion toks = OK rpn /\
    forEach (builderStep this) {| stack := []; diceCount := ofZ 0 |} rpn = OK st /\
    (stack st = [] \/ exists e, stack st = [e]) /\
    r = hd_error (stack st).
Proof.
  unfold parse, expressionForReversePolishNotation. intros H.
  destruct (tokenize value) as [toks|] eqn:Et; [|discriminate]. cbn [bind] in H.
  destruct toks as [|t toks]; [discriminate|].
  destruct (shuntingYardConversion (t :: toks)) as [rpn|] eqn:Ey; [|discriminate].
  cbn [bind] in H.
  destruct (forEach (builderStep this) _ rpn) as [st|] eqn:Eb; [|discriminate].
  cbn [bind] in H.
  exists (t :: toks), rpn, st. repeat split; try assumption; try discriminate.
  - destruct (stack st) as [|e [|e' s]]; [now left | right; now exists e | discriminate].
  - destruct (stack st) as [|e [|e' s]]; try discriminate; now apply OK_inj in H.
Qed.


(** ** Counts and sizes of the parsed dice *)

















(** ** The tokens of the tokenizer *)




(** ** What holds of every parsed tree *)









(** ** Binary arithmetic *)



(** ** The maximum dice count *)

Lemma Qltb_true (a b : Q) : Qltb a b = true <-> a < b.
Proof.
  unfold Qltb. rewrite negb_true_iff. split.
  - intros H. apply Qnot_le_lt. intros C. apply Qle_bool_iff in C. congruence.
  - intros H. destruct (Qle_bool b a) eqn:E; [|reflexivity].
    apply Qle_bool_iff in E. exfalso. exact (Qlt_not_le _ _ H E).
Qed.









(** * Further properties *)

(** ** The tokenizer, step by step *)

Lemma tokenizeLoop_cons tv i prev (c : ascii) (rest : jsstring)
    (st st' : TokenizerState) :
  tokenizeLoop tv i prev (c :: rest) st = OK st' ->
  exists st1, tokenStep (hd_error rest) st c st1 /\
              tokenizeLoop tv (S i) (Some c) rest st1 = OK st'.
Proof.
  cbn [tokenizeLoop]. intros H.
  destruct (isCharPrimitive c) eqn:Ep.
  { cbn [orb] in H. eexists. split; [now apply step_word | exact H]. }
  cbn [orb] in H.
  match type of H with (if ?b then _ else _) = _ => destruct b eqn:Eu end.
  { apply andb_true_iff in Eu. destruct Eu as [Eu Ed].
    apply andb_true_iff in Eu. destruct Eu as [Eu El].
    apply andb_true_iff in Eu. destruct Eu as [Ec Eu].
    apply charEq_true in Ec. subst c.
    apply negb_true_iff, negb_false_iff, strEq_true in Eu.
    eexists. split; [now apply step_minus | exact H]. }
  destruct (charEq c ".") eqn:Edot.
  { apply charEq_true in Edot. subst c.
    destruct (negb (strEq (current st) []) && currentAdded st) eqn:Ea;
      [discriminate|].
    eexists. split; [now apply step_dot | exact H]. }
  destruct (charEq c " ") eqn:Esp.
  { apply charEq_true in Esp. subst c.
    destruct (testChar isCharPrimitive prev && _); [discriminate|].
    eexists. split; [apply step_space | exact H]. }
  match type of H with (if ?b then _ else _) = _ => destruct b eqn:Edel end;
    [|discriminate].
  match type of H with (if ?b then _ else _) = _ => destruct b end;
    [discriminate|].
  eexists. split; [now apply step_delimiter | exact H].
Qed.

(** An invariant of the steps holds when the loop is left. *)
Lemma tokenizeLoop_invariant (I : TokenizerState -> jsstring -> Prop) :
  (forall st c rest st1,
      I st (c :: rest) -> tokenStep (hd_error rest) st c st1 -> I st1 rest) ->
  forall tv (rest : jsstring) i prev st st',
    tokenizeLoop tv i prev rest st = OK st' -> I st rest -> I st' [].
Proof.
  intros Hstep tv rest. induction rest as [|c rest IH]; intros i prev st st' H HI.
  - apply OK_inj in H. now subst.
  - destruct (tokenizeLoop_cons _ _ _ _ _ _ _ H) as (st1 & Hs & H1).
    exact (IH _ _ _ _ H1 (Hstep _ _ _ _ HI Hs)).
Qed.

Lemma tokenize_flush (value : jsstring) (toks : list jsstring) :
  tokenize value = OK toks ->
  exists st,
    tokenizeLoop (normalize value) 0 None (normalize value)
      {| tokens := []; current := []; currentAdded := false |} = OK st /\
    toks = flush st.
Proof.
  unfold tokenize. fold (normalize value). intros H.
  destruct (tokenizeLoop _ 0 None _ _) as [st|] eqn:E; [|discriminate].
  exists st. split; [reflexivity|]. cbn [bind] in H.
  apply OK_inj in H. now subst.
Qed.

(** ** The tokens and the text *)

Lemma delimiter_facts (c : ascii) :
  isDelimiterChar c = true ->
  charEq c " " = false /\ isWhiteSpace c = false /\ isCharPrimitive c = false /\
  isDigitChar c = false /\ isPrimitiveToken [c] = false.
Proof. intros H. each_char c; repeat split. Qed.

Lemma wordChar_facts (c : ascii) :
  isCharPrimitive c = true ->
  charEq c " " = false /\ isWhiteSpace c = false /\ charEq c "-" = false /\
  charEq c "." = false /\ isWordOrDot c = true /\ isDelimiterChar c = false.
Proof. intros H. each_char c; repeat split. Qed.

Lemma tokenStep_text next st c st1 :
  tokenStep next st c st1 ->
  List.concat (rev (tokens st1)) ++ current st1 =
  List.concat (rev (tokens st)) ++ current st ++ filter notSpace [c].
Proof.
  intros H. destruct H as [st c Hc|st Hcur Hu Hn|st Hd|st|st c Hc Hp];
    cbn [tokens current filter].
  - destruct (wordChar_facts c Hc) as (E & _). unfold notSpace. now rewrite E.
  - reflexivity.
  - reflexivity.
  - cbn. now rewrite !app_nil_r.
  - destruct (delimiter_facts c Hc) as (E & _). unfold notSpace. rewrite E.
    cbn [negb rev List.concat]. destruct (strEq (current st) []) eqn:Es; cbn [negb].
    + apply strEq_true in Es. rewrite Es. rewrite concat_app. cbn.
      now rewrite !app_nil_r.
    + cbn [rev]. rewrite !concat_app. cbn. now rewrite !app_nil_r, <- !app_assoc.
Qed.

Lemma tokenizeLoop_text tv (rest : jsstring) : forall i prev st st',
  tokenizeLoop tv i prev rest st = OK st' ->
  List.concat (flush st') = List.concat (rev (tokens st)) ++ current st ++ filter notSpace rest.
Proof.
  induction rest as [|c rest IH]; intros i prev st st' H.
  - apply OK_inj in H. subst st'. unfold flush. cbn [filter].
    rewrite app_nil_r. destruct (strEq (current st) []) eqn:Es; cbn [negb].
    + apply strEq_true in Es. now rewrite Es, app_nil_r.
    + cbn [rev]. rewrite concat_app. cbn. now rewrite app_nil_r.
  - destruct (tokenizeLoop_cons _ _ _ _ _ _ _ H) as (st1 & Hs & H1).
    rewrite (IH _ _ _ _ H1). rewrite app_assoc, (tokenStep_text _ _ _ _ Hs).
    change (c :: rest) with ([c] ++ rest). rewrite filter_app, <- !app_assoc.
    reflexivity.
Qed.

Lemma filter_collapse (s : jsstring) : forall inRun,
  filter notSpace (collapseFrom inRun s) = filter (fun c => negb (isWhiteSpace c)) s.
Proof.
  induction s as [|c s IH]; intros inRun; [reflexivity|].
  cbn [collapseFrom filter]. destruct (isWhiteSpace c) eqn:E; cbn [negb].
  - destruct inRun; [apply IH|]. cbn [filter]. unfold notSpace at 1.
    change (charEq " " " ") with true. cbn [negb]. apply IH.
  - cbn [filter]. unfold notSpace at 1.
    assert (N : charEq c " " = false) by (revert E; each_char c).
    rewrite N. cbn [negb]. now rewrite IH.
Qed.

Lemma filter_dropWhile_neg {A} (p : A -> bool) (l : list A) :
  filter (fun x => negb (p x)) (dropWhile p l) = filter (fun x => negb (p x)) l.
Proof.
  induction l as [|x l IH]; [reflexivity|]. cbn [dropWhile filter].
  destruct (p x) eqn:E; cbn [negb]; [exact IH|].
  cbn [filter]. now rewrite E.
Qed.

Lemma filter_trim (s : jsstring) :
  filter (fun c => negb (isWhiteSpace c)) (trim s)
  = filter (fun c => negb (isWhiteSpace c)) s.
Proof.
  unfold trim, trimEnd, trimStart.
  rewrite <- (rev_involutive (filter _ (rev _))).
  rewrite <- filter_rev, rev_involutive, filter_dropWhile_neg.
  rewrite filter_rev, rev_involutive. apply filter_dropWhile_neg.
Qed.

Lemma filter_normalize (value : jsstring) :
  filter notSpace (normalize value) = filter (fun c => negb (isWhiteSpace c)) value.
Proof. unfold normalize, collapseSpaces. now rewrite filter_collapse, filter_trim. Qed.

Lemma tokenize_text (value : jsstring) (toks : list jsstring) :
  tokenize value = OK toks ->
  List.concat toks = filter (fun c => negb (isWhiteSpace c)) value.
Proof.
  intros H. destruct (tokenize_flush _ _ H) as (st & E & ->).
  rewrite (tokenizeLoop_text _ _ _ _ _ _ E). cbn [tokens current rev List.concat app].
  apply filter_normalize.
Qed.

(** X1: the tokens, put together again, are the text without its white
    space: the tokenizer drops nothing else and adds nothing. *)
Theorem tokenize_concat (value : jsstring) (toks : list jsstring) :
  tokenize value = OK toks ->
  List.concat toks = filter (fun c => negb (isWhiteSpace c)) value.
Proof.
  intros H. destruct (tokenize_flush _ _ H) as (st & E & ->).
  rewrite (tokenizeLoop_text _ _ _ _ _ _ E). cbn [tokens current rev List.concat app].
  apply filter_normalize.
Qed.

Lemma tokenize_concat_witness :
  List.concat [str "2d6"; str "+"; str "("; str "-1.5"; str ")"]
  = filter (fun c => negb (isWhiteSpace c)) (str " 2d6 +  (-1.5) ").
Proof. exact (tokenize_concat (str " 2d6 +  (-1.5) ") _ eq_refl). Defined.

(** ** The shape of the tokens *)

Lemma includes_count (c : ascii) (s : jsstring) :
  includes c s = false <-> count_occ ascii_dec s c = 0%nat.
Proof.
  unfold includes. induction s as [|x s IH]; cbn [existsb count_occ]; [tauto|].
  destruct (ascii_dec x c) as [->|N].
  - unfold charEq. rewrite Ascii.eqb_refl. cbn. split; discriminate.
  - assert (E : charEq c x = false)
      by (apply Ascii.eqb_neq; congruence).
    rewrite E. cbn [orb]. exact IH.
Qed.

Lemma unsigned_snoc (s : jsstring) (c : ascii) :
  (s = [] \/ isUnsignedToken s = true) ->
  isWordOrDot c = true ->
  (c = "."%char -> includes "." s = false) ->
  isUnsignedToken (s ++ [c]) = true /\
  includes "." (s ++ [c]) = includes "." s || charEq "." c.
Proof.
  intros Hs Hc Hdot. split.
  - unfold isUnsignedToken.
    assert (N : strEq (s ++ [c]) [] = false)
      by (apply strEq_false; now destruct s).
    rewrite N, forallb_app, count_occ_app. cbn [negb forallb count_occ andb].
    rewrite Hc. cbn [andb].
    assert (Hall : forallb isWordOrDot s = true /\
                   (count_occ ascii_dec s "." <= 1)%nat).
    { destruct Hs as [->|Hs]; [split; [reflexivity | cbn; lia]|].
      unfold isUnsignedToken in Hs. apply andb_true_iff in Hs.
      destruct Hs as [Hs Hn]. apply andb_true_iff in Hs.
      split; [tauto | now apply Nat.leb_le]. }
    destruct Hall as [-> Hn]. cbn [andb]. apply Nat.leb_le.
    destruct (ascii_dec c ".") as [E|_]; [|lia].
    apply Hdot, includes_count in E. lia.
  - unfold includes. now rewrite existsb_app; cbn; rewrite orb_false_r.
Qed.

Lemma primitive_minus_digit (c : ascii) :
  isDigitChar c = true -> isPrimitiveToken ["-"; c] = true.
Proof. intros H. each_char c. Qed.

Lemma primitive_snoc (t : jsstring) (c : ascii) :
  isPrimitiveToken t = true -> isWordOrDot c = true ->
  (c = "."%char -> includes "." t = false) ->
  isPrimitiveToken (t ++ [c]) = true /\
  includes "." (t ++ [c]) = includes "." t || charEq "." c.
Proof.
  intros Ht Hc Hdot. destruct t as [|x body]; [discriminate|].
  cbn [isPrimitiveToken app] in *. destruct (charEq x "-") eqn:Ex.
  - apply charEq_true in Ex. subst x.
    apply andb_true_iff in Ht. destruct Ht as [Hd Hb].
    assert (Hdot' : c = "."%char -> includes "." body = false).
    { intros E. specialize (Hdot E). unfold includes in *. cbn in Hdot. exact Hdot. }
    destruct (unsigned_snoc body c (or_intror Hb) Hc Hdot') as [U I].
    rewrite U, andb_true_r. split.
    + destruct body; [discriminate | exact Hd].
    + unfold includes in *. cbn [existsb]. now rewrite I.
  - destruct (unsigned_snoc (x :: body) c (or_intror Ht) Hc Hdot) as [U I].
    now split.
Qed.

Lemma tokenStep_shape next st c rest st1 :
  hd_error rest = next ->
  tokenStep next st c st1 ->
  Forall (fun t => isToken t = true) (tokens st) ->
  currentShape st (c :: rest) ->
  Forall (fun t => isToken t = true) (tokens st1) /\ currentShape st1 rest.
Proof.
  intros Hn H Ht Hc.
  destruct H as [st c Hw|st Hcur Hu Hd|st Hdot|st|st c Hdel Hp];
    cbn [tokens current currentAdded].
  - split; [exact Ht|]. right. left. cbn [current currentAdded].
    destruct (wordChar_facts c Hw) as (_ & _ & Em & Edot & Ewd & _).
    assert (Ndot : c = "."%char -> False) by (intros ->; discriminate).
    assert (Edot' : charEq "." c = false)
      by (unfold charEq in *; now rewrite Ascii.eqb_sym).
    destruct Hc as [[E A]|[[P A]|(E & A & D)]].
    + rewrite E, A. cbn [app]. split.
      * cbn [isPrimitiveToken]. rewrite Em.
        apply (unsigned_snoc [] c (or_introl eq_refl) Ewd). tauto.
      * unfold includes. cbn [existsb]. now rewrite Edot'.
    + destruct (primitive_snoc _ c P Ewd) as [P' I']; [tauto|].
      split; [exact P'|]. now rewrite I', A, Edot', orb_false_r.
    + rewrite E, A. cbn [app]. cbn [hd_error testChar] in D.
      split; [now apply primitive_minus_digit|].
      unfold includes. cbn [existsb].
      change (charEq "." "-") with false. now rewrite Edot'.
  - split; [exact Ht|]. right. right. cbn [current currentAdded].
    rewrite Hcur. cbn [app]. rewrite Hn.
    destruct Hc as [[E A]|[[P A]|(E & A & D)]].
    + split; [reflexivity|]. split; assumption.
    + rewrite Hcur in P. discriminate.
    + rewrite Hcur in E. discriminate.
  - split; [exact Ht|]. right. left. cbn [current currentAdded].
    destruct Hc as [[E A]|[[P A]|(E & A & D)]].
    + rewrite E. now split.
    + assert (S0 : strEq (current st) [] = false).
      { apply strEq_false. intros E. rewrite E in P. discriminate. }
      rewrite S0 in Hdot. cbn [negb andb] in Hdot.
      destruct (primitive_snoc _ "." P eq_refl) as [P' I']; [congruence|].
      split; [exact P'|]. rewrite I'. change (charEq "." ".") with true.
      now rewrite orb_true_r.
    + discriminate D.
  - split; [exact Ht|].
    destruct Hc as [H0|[H1|(E & A & D)]]; [now left | now right; left|].
    discriminate D.
  - destruct (delimiter_facts c Hdel) as (_ & _ & _ & Ed & _).
    split; [|now left].
    assert (Tc : isToken [c] = true) by (unfold isToken; now rewrite Hdel, orb_true_r).
    constructor; [exact Tc|].
    destruct Hc as [[E A]|[[P A]|(E & A & D)]].
    + rewrite E. exact Ht.
    + assert (S0 : strEq (current st) [] = false).
      { apply strEq_false. intros E. rewrite E in P. discriminate. }
      rewrite S0. cbn [negb]. constructor; [|exact Ht].
      unfold isToken. now rewrite P.
    + cbn [hd_error testChar] in D. congruence.
Qed.

(** X2: every token of the tokenizer is either one operator, parenthesis
    or comma, or an operand: word characters with at most one point,
    possibly after a minus sign that a digit follows.  No token is empty
    and none holds white space. *)
Theorem tokenize_token_shape (value : jsstring) (toks : list jsstring) :
  tokenize value = OK toks ->
  Forall (fun t => isToken t = true /\ t <> [] /\ noWhiteSpace t) toks.
Proof.
  intros H. destruct (tokenize_flush _ _ H) as (st & E & ->).
  assert (I : Forall (fun t => isToken t = true) (tokens st) /\ currentShape st []).
  { apply (tokenizeLoop_invariant
             (fun st rest => Forall (fun t => isToken t = true) (tokens st) /\
                             currentShape st rest)
             (fun st c rest st1 HI Hs =>
                tokenStep_shape _ st c rest st1 eq_refl Hs (proj1 HI) (proj2 HI))
             _ _ _ _ _ _ E).
    split; [constructor | now left]. }
  destruct I as [Ht Hc].
  assert (F : Forall (fun t => isToken t = true) (flush st)).
  { unfold flush. apply Forall_rev.
    destruct Hc as [[E0 _]|[[P _]|(_ & _ & D)]]; [| |discriminate D].
    - rewrite E0. exact Ht.
    - destruct (strEq (current st) []); cbn [negb]; [exact Ht|].
      constructor; [|exact Ht]. unfold isToken. now rewrite P. }
  eapply Forall_impl; [|exact F]. intros t Tt. split; [exact Tt|].
  unfold isToken in Tt. apply orb_true_iff in Tt. destruct Tt as [P|D].
  - split; [now apply primitiveToken_nonempty | now apply primitiveToken_noWhite].
  - destruct t as [|c [|]]; try discriminate. split; [discriminate|].
    constructor; [now apply delimiter_facts | constructor].
Qed.

Lemma tokenize_token_shape_witness :
  Forall (fun t => isToken t = true /\ t <> [] /\ noWhiteSpace t)
         [str "2d6"; str "+"; str "("; str "-1.5"; str ")"].
Proof. exact (tokenize_token_shape (str " 2d6 +  (-1.5) ") _ eq_refl). Defined.

(** ** The errors of the tokenizer *)


(** The tokenizer only throws syntax errors; each of them carries the
    window of the text around the index [j] at which the loop stopped. *)
Lemma tokenizeLoop_throws tv (rest : jsstring) : forall i prev st e,
  tokenizeLoop tv i prev rest st = Throw e ->
  exists issue j,
    e = DiceParserSyntaxError issue (Some (slice (j - 20) (j + 20) tv)) /\
    (i <= j < i + List.length rest)%nat.
Proof.
  induction rest as [|c rest IH]; intros i prev st e H; [discriminate|].
  cbn [tokenizeLoop] in H. cbn [List.length].
  assert (Here : forall issue,
             Throw e = syntaxError (A := TokenizerState) issue
                         (Some (slice (i - 20) (i + 20) tv)) ->
             exists issue j,
               e = DiceParserSyntaxError issue (Some (slice (j - 20) (j + 20) tv)) /\
               (i <= j < i + S (List.length rest))%nat).
  { intros issue E. injection E as ->. exists issue, i. split; [reflexivity | lia]. }
  assert (Next : forall st1,
             tokenizeLoop tv (S i) (Some c) rest st1 = Throw e ->
             exists issue j,
               e = DiceParserSyntaxError issue (Some (slice (j - 20) (j + 20) tv)) /\
               (i <= j < i + S (List.length rest))%nat).
  { intros st1 E. destruct (IH _ _ _ _ E) as (issue & j & -> & Hj).
    exists issue, j. split; [reflexivity | lia]. }
  repeat match type of H with
  | (if ?b then _ else _) = _ => destruct b
  | tokenizeLoop _ _ _ _ _ = Throw _ => exact (Next _ H)
  | syntaxError _ _ = Throw _ => symmetry in H; exact (Here _ H)
  end.
Qed.

Lemma tokenize_throws (value : jsstring) (e : Error) :
  tokenize value = Throw e ->
  exists issue j,
    e = DiceParserSyntaxError issue
          (Some (slice (j - 20) (j + 20) (normalize value))) /\
    (j < List.length (normalize value))%nat.
Proof.
  unfold tokenize. fold (normalize value). intros H.
  destruct (tokenizeLoop _ 0 None _ _) as [st|e'] eqn:E; [discriminate|].
  cbn [bind] in H. injection H as ->.
  destruct (tokenizeLoop_throws _ _ _ _ _ _ E) as (issue & j & -> & Hj).
  exists issue, j. split; [reflexivity | lia].
Qed.



(** ** The errors of [parse] *)

Lemma drainOperators_throws (ops : list jsstring) : forall st e,
  drainOperators st ops = Throw e ->
  exists issue, e = DiceParserSyntaxError issue None.
Proof.
  induction ops as [|t ops IH]; intros st e H; [discriminate|].
  cbn [drainOperators] in H.
  destruct (negb (isTokenGroupStart (Some t))); [exact (IH _ _ H)|].
  injection H as <-. eexists. reflexivity.
Qed.

Lemma yard_throws (toks : list jsstring) (e : Error) :
  shuntingYardConversion toks = Throw e ->
  exists issue, e = DiceParserSyntaxError issue None.
Proof.
  unfold shuntingYardConversion. intros H.
  destruct (forEach yardStep _ toks) as [st|e1] eqn:E.
  - cbn [bind] in H.
    destruct (drainOperators st (operatorStack st)) as [st'|e2] eqn:D;
      [discriminate|].
    cbn [bind] in H. injection H as <-. exact (drainOperators_throws _ _ _ D).
  - cbn [bind] in H. injection H as <-. exact (forEach_yard_throws_syntax _ _ _ E).
Qed.

Lemma primitive_throws (t : jsstring) (e : Error) :
  expressionForPrimitive t = Throw e ->
  exists issue, e = DiceParserSyntaxError issue None.
Proof.
  unfold expressionForPrimitive, syntaxError. intros H.
  repeat match type of H with
  | (if ?b then _ else _) = _ => destruct b
  | match ?l with [] => _ | _ :: _ => _ end = _ => destruct l
  | OK _ = Throw _ => discriminate
  | Throw _ = Throw _ => injection H as <-; eexists; reflexivity
  end.
Qed.

Lemma builderStep_throws (this : DiceParser) (st : BuilderState)
    (t : jsstring) (e : Error) :
  builderStep this st t = Throw e -> builderError this t e.
Proof.
  unfold builderStep. intros H.
  destruct (isTokenOperator (Some t)) eqn:Eo.
  - destruct (operators t) as [[o|]|] eqn:Ep.
    + destruct (own_operator_infix t o Ep) as (c & op & prec & -> & Hc & ->).
      left. destruct st as [[|r [|l rest]] n]; cbn in H;
        try discriminate; injection H as <-; eexists; reflexivity.
    + right. right. injection H as <-. split; [reflexivity|].
      unfold operators in Ep.
      repeat match type of Ep with
      | (if strEq t ?s then _ else _) = _ =>
          destruct (strEq t s); [discriminate|]
      end.
      destruct (existsb (strEq t) objectPrototypeKeys) eqn:Ex; [|discriminate].
      apply existsb_exists in Ex. destruct Ex as (key & Hin & Hk).
      apply strEq_true in Hk. now subst key.
    + cbn in Eo. rewrite Ep in Eo. now rewrite andb_false_r in Eo.
  - destruct (expressionForPrimitive t) as [x|e1] eqn:Ee.
    + cbn [bind] in H. destruct (maximumDiceCount this) as [m|] eqn:Em;
        [|destruct x; discriminate].
      destruct x; try discriminate.
      destruct (jsGt _ m); [|discriminate].
      injection H as <-. right. left. now exists m.
    + cbn [bind] in H. injection H as <-. left. exact (primitive_throws _ _ Ee).
Qed.

Lemma forEach_builder_throws (this : DiceParser) (l : list jsstring) :
  forall st e,
  forEach (builderStep this) st l = Throw e ->
  exists t, In t l /\ builderError this t e.
Proof.
  induction l as [|t l IH]; intros st e H; [discriminate|].
  cbn [forEach] in H. destruct (builderStep this st t) as [st1|e1] eqn:E.
  - destruct (IH _ _ H) as (t' & Hin & He). exists t'. split; [now right | exact He].
  - cbn [bind] in H. injection H as <-. exists t.
    split; [now left | exact (builderStep_throws _ _ _ _ E)].
Qed.

(** X4: [parse] throws the Empty error, a syntax error, or the DiceCount
    error, the latter only with a maximum dice count configured, which it
    carries; anything else is thrown only when a token is the name of a
    property of [Object.prototype], which the table of the operators
    inherits. *)
Theorem parse_error_kinds (this : DiceParser) (value : jsstring) (e : Error) :
  parse this value = Throw e ->
  e = DiceParserEmptyError
  \/ (exists issue location, e = DiceParserSyntaxError issue location)
  \/ (exists m, e = DiceParserDiceCount m /\ maximumDiceCount this = Some m)
  \/ (e = TypeError /\
      exists toks t, tokenize value = OK toks /\ In t toks /\
                     In t objectPrototypeKeys).
Proof.
  unfold parse. intros H.
  destruct (tokenize value) as [toks|e1] eqn:Et.
  - cbn [bind] in H. destruct toks as [|t0 toks]; [injection H as <-; now left|].
    destruct (shuntingYardConversion (t0 :: toks)) as [rpn|e2] eqn:Ey.
    + cbn [bind] in H. unfold expressionForReversePolishNotation in H.
      destruct (forEach (builderStep this) _ rpn) as [st|e3] eqn:Eb.
      * cbn [bind] in H. destruct (stack st) as [|x [|y s]]; try discriminate.
        injection H as <-. right. left. eexists _, _. reflexivity.
      * cbn [bind] in H. injection H as <-.
        destruct (forEach_builder_throws _ _ _ _ Eb) as (t & Hin & He).
        destruct He as [(issue & ->)|[(m & -> & Hm)|(-> & Hk)]].
        -- right. left. eexists _, _. reflexivity.
        -- right. right. left. now exists m.
        -- right. right. right. split; [reflexivity|].
           exists (t0 :: toks), t. split; [reflexivity|]. split; [|exact Hk].
           assert (F : Forall (fun t => In t (t0 :: toks)) rpn).
           { apply (yard_tokens_Forall _ _ _ Ey). apply Forall_forall. auto. }
           rewrite Forall_forall in F. exact (F _ Hin).
    + cbn [bind] in H. injection H as <-.
      destruct (yard_throws _ _ Ey) as (issue & ->).
      right. left. eexists _, _. reflexivity.
  - cbn [bind] in H. injection H as <-.
    destruct (tokenize_throws _ _ Et) as (issue & j & -> & _).
    right. left. eexists _, _. reflexivity.
Qed.

Lemma parse_error_kinds_witness :
  exists m, DiceParserDiceCount (ofZ 5) = DiceParserDiceCount m /\
            maximumDiceCount {| maximumDiceCount := Some (ofZ 5) |} = Some m.
Proof.
  destruct (parse_error_kinds {| maximumDiceCount := Some (ofZ 5) |}
              (str "4d6 + 2d8") _ eq_refl)
    as [H|[(i & l & H)|[H|(H & _)]]]; try discriminate H.
  exact H.
Defined.

Lemma normalize_blank (value : jsstring) :
  forallb isWhiteSpace value = true -> normalize value = [].
Proof.
  intros H. unfold normalize, trim, trimStart.
  now rewrite (proj2 (takeWhile_all isWhiteSpace value H)).
Qed.

(** X5: [parse] throws the Empty error exactly for the blank texts, those
    of white space only, the empty text among them. *)
Theorem parse_empty_iff_blank (this : DiceParser) (value : jsstring) :
  parse this value = Throw DiceParserEmptyError <->
  forallb isWhiteSpace value = true.
Proof.
  split.
  - intros H. unfold parse in H.
    destruct (tokenize value) as [toks|e1] eqn:Et.
    + cbn [bind] in H. destruct toks as [|t0 toks].
      * pose proof (tokenize_text _ _ Et) as C. cbn in C.
        apply forallb_forall. intros c Hc.
        destruct (isWhiteSpace c) eqn:W; [reflexivity|]. exfalso.
        assert (In c (filter (fun c => negb (isWhiteSpace c)) value))
          by (apply filter_In; now rewrite W).
        rewrite <- C in H0. contradiction.
      * exfalso.
        destruct (shuntingYardConversion (t0 :: toks)) as [rpn|e2] eqn:Ey.
        -- cbn [bind] in H. unfold expressionForReversePolishNotation in H.
           destruct (forEach (builderStep this) _ rpn) as [st|e3] eqn:Eb.
           ++ cbn [bind] in H. destruct (stack st) as [|x [|y s]]; discriminate.
           ++ cbn [bind] in H. injection H as ->.
              destruct (forEach_builder_throws _ _ _ _ Eb) as (t & _ & He).
              destruct He as [(issue & E)|[(m & E & _)|(E & _)]]; discriminate.
        -- cbn [bind] in H. injection H as ->.
           destruct (yard_throws _ _ Ey) as (issue & E). discriminate.
    + cbn [bind] in H. injection H as ->.
      destruct (tokenize_throws _ _ Et) as (issue & j & E & _). discriminate.
  - intros H. unfold parse, tokenize. fold (normalize value).
    now rewrite (normalize_blank _ H).
Qed.

Lemma parse_empty_iff_blank_witness :
  parse {| maximumDiceCount := None |} [" "; "009"; " "]
    = Throw DiceParserEmptyError.
Proof.
  exact (proj2 (parse_empty_iff_blank {| maximumDiceCount := None |}
                  [" "; "009"; " "]) eq_refl).
Defined.

(** ** The text the tokenizer reads *)

Lemma dropWhile_app_stop {A} (p : A -> bool) (a : list A) (x : A) (r : list A) :
  p x = false -> dropWhile p (a ++ x :: r) = dropWhile p a ++ x :: r.
Proof.
  intros Hx. induction a as [|c a IH]; cbn [app dropWhile].
  - now rewrite Hx.
  - destruct (p c); [exact IH | reflexivity].
Qed.

Lemma trimEnd_app_stop (l : jsstring) (y : ascii) (b : jsstring) :
  isWhiteSpace y = false -> trimEnd (l ++ y :: b) = l ++ y :: trimEnd b.
Proof.
  intros Hy. unfold trimEnd. rewrite rev_app_distr. cbn [rev].
  rewrite <- app_assoc. cbn [app].
  rewrite (dropWhile_app_stop isWhiteSpace (rev b) y (rev l) Hy).
  rewrite rev_app_distr. cbn [rev]. rewrite rev_involutive.
  now rewrite <- app_assoc.
Qed.

Lemma collapseFrom_app_stop (a : jsstring) (x : ascii) (r : jsstring) :
  isWhiteSpace x = false ->
  forall inRun,
    collapseFrom inRun (a ++ x :: r)
    = collapseFrom inRun a ++ x :: collapseFrom false r.
Proof.
  intros Hx. induction a as [|c a IH]; intros inRun; cbn [app collapseFrom].
  - now rewrite Hx.
  - destruct (isWhiteSpace c); [destruct inRun|]; cbn [app]; now rewrite IH.
Qed.

Lemma collapseFrom_run (ws : jsstring) (y : ascii) (r : jsstring) :
  forallb isWhiteSpace ws = true -> isWhiteSpace y = false ->
  forall inRun,
    collapseFrom inRun (ws ++ y :: r)
    = (if inRun || strEq ws [] then [] else [" "]) ++ y :: collapseFrom false r.
Proof.
  intros Hws Hy. induction ws as [|c ws IH]; intros inRun.
  - cbn [app collapseFrom]. rewrite Hy. change (strEq [] []) with true.
    now rewrite orb_true_r.
  - cbn [forallb] in Hws. apply andb_true_iff in Hws. destruct Hws as [Hc Hws].
    cbn [app collapseFrom]. rewrite Hc.
    assert (N : strEq (c :: ws) [] = false) by now apply strEq_false.
    rewrite N, orb_false_r. destruct inRun; rewrite (IH Hws true); reflexivity.
Qed.

(** Around two characters that are no white space, with white space only
    between them, the text is read as it stands, the white space as one
    space. *)
Lemma normalize_pattern (a : jsstring) (x : ascii) (ws : jsstring) (y : ascii)
    (b : jsstring) :
  isWhiteSpace x = false -> isWhiteSpace y = false ->
  forallb isWhiteSpace ws = true ->
  normalize (a ++ x :: ws ++ y :: b)
  = collapseFrom false (trimStart a)
    ++ x :: (if strEq ws [] then [] else [" "])
    ++ y :: collapseFrom false (trimEnd b).
Proof.
  intros Hx Hy Hws. unfold normalize, trim, trimStart.
  rewrite (dropWhile_app_stop isWhiteSpace a x _ Hx).
  change (dropWhile isWhiteSpace a ++ x :: ws ++ y :: b)
    with (dropWhile isWhiteSpace a ++ (x :: ws) ++ y :: b).
  rewrite app_assoc, (trimEnd_app_stop _ y b Hy), <- app_assoc.
  unfold collapseSpaces. cbn [app].
  rewrite (collapseFrom_app_stop _ x _ Hx).
  now rewrite (collapseFrom_run ws y _ Hws Hy).
Qed.

Lemma normalize_head (b : jsstring) :
  testChar isDigitChar (hd_error (collapseFrom false (trimEnd b))) = true ->
  testChar isDigitChar (hd_error b) = true.
Proof.
  destruct b as [|c b]; [discriminate|].
  destruct (isWhiteSpace c) eqn:W.
  - intros H. exfalso.
    destruct (trimEnd (c :: b)) as [|c' b'] eqn:E; [discriminate|].
    assert (c' = c).
    { unfold trimEnd in E. cbn [rev] in E.
      destruct (dropWhile isWhiteSpace (rev b ++ [c])) as [|z l] eqn:D using rev_ind;
        [discriminate|].
      clear IHl. rewrite rev_app_distr in E. cbn in E.
      assert (S : exists l', rev b ++ [c] = l' ++ l ++ [z]).
      { rewrite <- D. clear. generalize (rev b ++ [c]). intros s.
        induction s as [|q s IH]; [now exists []|]. cbn [dropWhile].
        destruct (isWhiteSpace q); [|now exists []].
        destruct IH as (l' & E). exists (q :: l'). cbn. now rewrite <- E. }
      destruct S as (l' & S). rewrite !app_assoc in S.
      apply app_inj_tail in S. destruct S as [_ ->]. congruence. }
    subst c'. cbn [collapseFrom] in H. rewrite W in H. discriminate.
  - change (c :: b) with ([] ++ c :: b) at 1.
    rewrite (trimEnd_app_stop [] c b W). cbn [app collapseFrom]. now rewrite W.
Qed.

(** A text the tokenizer does not cut into tokens is rejected with a
    syntax error. *)
Lemma parse_rejects (this : DiceParser) (value : jsstring) :
  (forall toks, tokenize value <> OK toks) -> isSyntaxError (parse this value).
Proof.
  intros H. unfold parse. destruct (tokenize value) as [toks|e] eqn:E.
  - now destruct (H toks).
  - destruct (tokenize_throws _ _ E) as (issue & j & -> & _).
    eexists _, _. reflexivity.
Qed.

(** The run of the loop over a text [a ++ r] passes through a state from
    which [r] is read. *)
Lemma tokenizeLoop_split tv (a : jsstring) : forall i prev r st st',
  tokenizeLoop tv i prev (a ++ r) st = OK st' ->
  Forall (fun t => isToken t = true) (tokens st) -> currentShape st (a ++ r) ->
  exists i1 prev1 st1,
    tokenizeLoop tv i1 prev1 r st1 = OK st' /\
    Forall (fun t => isToken t = true) (tokens st1) /\ currentShape st1 r.
Proof.
  induction a as [|c a IH]; intros i prev r st st' H Ht Hc.
  - now exists i, prev, st.
  - cbn [app] in H. destruct (tokenizeLoop_cons _ _ _ _ _ _ _ H) as (st1 & Hs & H1).
    destruct (tokenStep_shape _ st c (a ++ r) st1 eq_refl Hs Ht Hc) as [Ht1 Hc1].
    exact (IH _ _ _ _ _ H1 Ht1 Hc1).
Qed.

Lemma tokenize_split (value a r : jsstring) (toks : list jsstring) :
  normalize value = a ++ r -> tokenize value = OK toks ->
  exists i1 prev1 st1 st',
    tokenizeLoop (normalize value) i1 prev1 r st1 = OK st' /\
    Forall (fun t => isToken t = true) (tokens st1) /\ currentShape st1 r.
Proof.
  intros En H. destruct (tokenize_flush _ _ H) as (st' & E & _).
  rewrite En in E at 2.
  destruct (tokenizeLoop_split _ a _ _ r _ _ E) as (i1 & p1 & st1 & H1 & T1 & C1);
    [constructor | now left |].
  now exists i1, p1, st1, st'.
Qed.

(** ** What the tokenizer rejects *)

Lemma tokenStep_allowed next st c st1 :
  tokenStep next st c st1 -> isAllowedChar c = true.
Proof.
  intros H. destruct H as [st c Hw|st _ _ _|st _|st|st c Hd _]; try reflexivity;
    unfold isAllowedChar.
  - now rewrite Hw.
  - now rewrite Hd, !orb_true_r.
Qed.

Lemma tokenizeLoop_allowed tv (rest : jsstring) : forall i prev st st',
  tokenizeLoop tv i prev rest st = OK st' -> forallb isAllowedChar rest = true.
Proof.
  induction rest as [|c rest IH]; intros i prev st st' H; [reflexivity|].
  destruct (tokenizeLoop_cons _ _ _ _ _ _ _ H) as (st1 & Hs & H1).
  cbn [forallb]. now rewrite (tokenStep_allowed _ _ _ _ Hs), (IH _ _ _ _ H1).
Qed.

(** X6: a text with a character that is neither a word character, a
    point, white space, an operator, a parenthesis nor a comma is
    rejected with a syntax error, wherever the character stands. *)
Theorem invalid_character_rejected (this : DiceParser) (value : jsstring)
    (c : ascii) :
  In c value -> isAllowedChar c = false -> isSyntaxError (parse this value).
Proof.
  intros Hin Hc. apply parse_rejects. intros toks H.
  destruct (tokenize_flush _ _ H) as (st & E & _).
  pose proof (tokenizeLoop_allowed _ _ _ _ _ _ E) as A.
  rewrite forallb_forall in A.
  assert (W : isWhiteSpace c = false).
  { unfold isAllowedChar in Hc. rewrite !orb_false_iff in Hc. tauto. }
  assert (I : In c (filter notSpace (normalize value))).
  { rewrite filter_normalize. apply filter_In. now rewrite W. }
  apply filter_In in I. rewrite (A c (proj1 I)) in Hc. discriminate.
Qed.

Lemma invalid_character_rejected_witness :
  isSyntaxError (parse {| maximumDiceCount := None |} (str "4d20`")).
Proof.
  apply (invalid_character_rejected _ (str "4d20`") "`").
  - cbn. tauto.
  - reflexivity.
Defined.

Lemma collapseFrom_app_nows (m : jsstring) :
  noWhiteSpace m -> m <> [] ->
  forall (a r : jsstring) inRun,
    collapseFrom inRun (a ++ m ++ r)
    = collapseFrom inRun a ++ m ++ collapseFrom false r.
Proof.
  induction 1 as [|x m Hx Hm IH]; intros Hne a r inRun; [congruence|].
  cbn [app]. rewrite (collapseFrom_app_stop a x _ Hx). f_equal. f_equal.
  destruct m as [|y m]; [reflexivity|].
  exact (IH ltac:(discriminate) [] r false).
Qed.

(** A stretch of the text without white space is read as it stands. *)
Lemma normalize_middle (a m b : jsstring) :
  noWhiteSpace m -> m <> [] ->
  normalize (a ++ m ++ b)
  = collapseFrom false (trimStart a) ++ m ++ collapseFrom false (trimEnd b).
Proof.
  intros Hm Hne. unfold normalize, trim, trimStart.
  destruct m as [|x m1] eqn:Em; [congruence|].
  assert (Hx : isWhiteSpace x = false) by now inversion Hm.
  cbn [app]. rewrite (dropWhile_app_stop isWhiteSpace a x _ Hx).
  destruct (exists_last Hne) as (m2 & y & E2).
  assert (Hy : isWhiteSpace y = false).
  { rewrite E2 in Hm. apply Forall_app in Hm. destruct Hm as [_ Hy].
    now inversion Hy. }
  change (x :: m1 ++ b) with ((x :: m1) ++ b). rewrite E2, <- app_assoc.
  cbn [app]. rewrite app_assoc, (trimEnd_app_stop _ y b Hy), <- app_assoc.
  change (m2 ++ y :: trimEnd b) with (m2 ++ [y] ++ trimEnd b).
  rewrite (app_assoc m2), <- E2. unfold collapseSpaces.
  apply collapseFrom_app_nows; [now rewrite <- Em in Hm; subst | discriminate].
Qed.

Lemma wordRun_facts (w : jsstring) :
  forallb isWordChar w = true ->
  forallb isWordOrDot w = true /\ count_occ ascii_dec w "." = 0%nat /\
  noWhiteSpace w.
Proof.
  induction w as [|c w IH]; cbn [forallb count_occ]; intros H.
  - repeat split. constructor.
  - apply andb_true_iff in H. destruct H as [Hc Hw].
    destruct (IH Hw) as (-> & -> & W).
    destruct (wordChar_facts c Hc) as (_ & Ws & _ & Ed & -> & _).
    destruct (ascii_dec c ".") as [->|_]; [discriminate|].
    repeat split. now constructor.
Qed.

(** X7: a second point in a token is a syntax error, wherever the token
    stands: the text [a . w . b] with word characters [w] only between
    the points is rejected. *)
Theorem second_point_rejected (this : DiceParser) (a w b : jsstring) :
  forallb isWordChar w = true ->
  isSyntaxError (parse this (a ++ "." :: w ++ "." :: b)).
Proof.
  intros Hw. destruct (wordRun_facts w Hw) as (Hall & Hcount & Hnw).
  apply parse_rejects. intros toks H.
  assert (En : normalize (a ++ "." :: w ++ "." :: b)
               = collapseFrom false (trimStart a)
                 ++ ("." :: w ++ "." :: collapseFrom false (trimEnd b))).
  { replace (a ++ "." :: w ++ "." :: b) with (a ++ ("." :: w ++ ["."]) ++ b)
      by (cbn [app]; now rewrite <- app_assoc).
    rewrite normalize_middle; [cbn [app]; now rewrite <- app_assoc | | discriminate].
    constructor; [reflexivity|]. apply Forall_app. split; [exact Hnw|].
    constructor; [reflexivity | constructor]. }
  destruct (tokenize_split _ _ _ _ En H) as (i1 & p1 & st1 & st' & H1 & _ & _).
  cbn [tokenizeLoop] in H1.
  change (isCharPrimitive ".") with false in H1.
  change (charEq "." "-") with false in H1.
  change (charEq "." ".") with true in H1. cbn [orb andb] in H1.
  destruct (negb (strEq (current st1) []) && currentAdded st1);
    [discriminate|].
  edestruct (loop_token_body (normalize (a ++ "." :: w ++ "." :: b)) w (S i1)
               (Some "."%char) ("." :: collapseFrom false (trimEnd b)))
    as (i2 & p2 & E2); [exact Hall | | rewrite E2 in H1].
  { cbn [currentAdded]. rewrite Hcount. lia. }
  cbn [tokenizeLoop current currentAdded] in H1.
  change (isCharPrimitive ".") with false in H1.
  change (charEq "." "-") with false in H1.
  change (charEq "." ".") with true in H1. cbn [orb andb] in H1.
  assert (N : strEq ((current st1 ++ ["."]) ++ w) [] = false).
  { apply strEq_false. destruct (current st1); discriminate. }
  rewrite N in H1. discriminate.
Qed.

(** X8: white space between two word characters is a syntax error,
    wherever it stands. *)
Theorem space_between_words_rejected (this : DiceParser) (a b ws : jsstring)
    (x y : ascii) :
  isWordChar x = true -> isWordChar y = true ->
  ws <> [] -> forallb isWhiteSpace ws = true ->
  isSyntaxError (parse this (a ++ x :: ws ++ y :: b)).
Proof.
  intros Hx Hy Hne Hws. apply parse_rejects. intros toks H.
  destruct (wordChar_facts x Hx) as (_ & Wx & _).
  destruct (wordChar_facts y Hy) as (_ & Wy & _).
  pose proof (normalize_pattern a x ws y b Wx Wy Hws) as En.
  apply strEq_false in Hne. rewrite Hne in En. cbn [app] in En.
  destruct (tokenize_split _ _ _ _ En H) as (i1 & p1 & st1 & st' & H1 & _ & _).
  cbn [tokenizeLoop] in H1. unfold isCharPrimitive at 1 in H1.
  rewrite Hx in H1. cbn [orb] in H1.
  change (isCharPrimitive " ") with false in H1.
  change (charEq " " "-") with false in H1.
  change (charEq " " ".") with false in H1.
  change (charEq " " " ") with true in H1.
  cbn [orb andb hd_error testChar] in H1. unfold isCharPrimitive in H1.
  rewrite Hx, Hy in H1. discriminate.
Qed.

Lemma operatorChar_more (c : ascii) :
  isOperatorChar c = true ->
  isDigitChar c = false /\ isTokenGroupStart (Some [c]) = false /\
  unaryAllowed (Some [c]) = true.
Proof. intros H. each_char c; repeat split. Qed.

(** X9: two operators in a row, with or without white space between
    them, are a syntax error, unless the second is a minus sign directly
    before a digit (a unary minus). *)
Theorem consecutive_operators_rejected (this : DiceParser) (a b ws : jsstring)
    (o1 o2 : ascii) :
  isOperatorChar o1 = true -> isOperatorChar o2 = true ->
  forallb isWhiteSpace ws = true ->
  ~ (o2 = "-"%char /\ testChar isDigitChar (hd_error b) = true) ->
  isSyntaxError (parse this (a ++ o1 :: ws ++ o2 :: b)).
Proof.
  intros H1 H2 Hws Hun. apply parse_rejects. intros toks H.
  destruct (operatorChar_class o1 H1) as (P1 & D1 & S1 & W1).
  destruct (operatorChar_class o2 H2) as (P2 & D2 & S2 & W2).
  destruct (operatorChar_more o1 H1) as (G1 & _ & U1).
  destruct (operatorChar_more o2 H2) as (G2 & _ & _).
  pose proof (normalize_pattern a o1 ws o2 b W1 W2 Hws) as En.
  set (B := collapseFrom false (trimEnd b)) in *.
  assert (Unary : charEq o2 "-" && testChar isDigitChar (hd_error B) = false).
  { destruct (charEq o2 "-") eqn:E; [|reflexivity]. cbn [andb].
    destruct (testChar isDigitChar (hd_error B)) eqn:T; [|reflexivity].
    exfalso. apply Hun. split; [now apply charEq_true | now apply normalize_head]. }
  destruct (tokenize_split _ _ _ _ En H) as (i1 & p1 & st1 & st' & E1 & _ & _).
  set (tv := normalize _) in E1. cbn [app tokenizeLoop] in E1.
  rewrite P1, D1, S1 in E1. cbn [orb] in E1.
  assert (Nd : testChar isDigitChar
                 (hd_error ((if strEq ws [] then [] else [" "]) ++ o2 :: B))
               = false).
  { destruct (strEq ws []); cbn; [exact G2 | reflexivity]. }
  rewrite Nd, andb_false_r in E1.
  unfold isCharOperator at 1 2 in E1. rewrite (operatorChar_operator o1 H1) in E1.
  cbn [orb andb] in E1.
  match type of E1 with (if ?c then _ else _) = _ => destruct c end;
    [discriminate|].
  assert (Last : forall i p,
             tokenizeLoop tv i p (o2 :: B)
               {| tokens := [o1] :: (if negb (strEq (current st1) [])
                                     then current st1 :: tokens st1
                                     else tokens st1);
                  current := []; currentAdded := false |} = OK st' -> False).
  { intros i p E. cbn [tokenizeLoop tokens current top hd_error] in E.
    rewrite P2, D2, S2 in E. cbn [orb] in E.
    change (strEq [] []) with true in E. cbn [negb andb] in E.
    destruct (charEq o2 "-"); destruct (testChar isDigitChar (hd_error B));
      try discriminate Unary; cbn [andb] in E; rewrite ?andb_false_r in E.
    all: unfold isCharOperator in E.
    all: rewrite (operatorChar_operator o2 H2), (operatorChar_operator o1 H1) in E.
    all: discriminate. }
  destruct (strEq ws []); cbn [app] in E1.
  - exact (Last _ _ E1).
  - apply (Last (S (S i1)) (Some " "%char)). rewrite <- E1.
    cbn [tokenizeLoop].
    change (isCharPrimitive " ") with false.
    change (charEq " " "-") with false.
    change (charEq " " ".") with false.
    change (charEq " " " ") with true.
    cbn [orb andb testChar]. rewrite P1. reflexivity.
Qed.

Lemma second_point_rejected_witness :
  isSyntaxError (parse {| maximumDiceCount := None |} (str "34.28.9")).
Proof.
  exact (second_point_rejected _ (str "34") (str "28") (str "9") eq_refl).
Defined.

Lemma space_between_words_rejected_witness :
  isSyntaxError (parse {| maximumDiceCount := None |} (str "d  d20")).
Proof.
  exact (space_between_words_rejected _ [] (str "20") (str "  ") "d" "d"
           eq_refl eq_refl ltac:(discriminate) eq_refl).
Defined.

Lemma consecutive_operators_rejected_witness :
  isSyntaxError (parse {| maximumDiceCount := None |} (str "1+ +1")).
Proof.
  apply (consecutive_operators_rejected _ (str "1") (str "1") (str " ") "+" "+");
    try reflexivity. intros [E _]. discriminate.
Defined.

(** ** White space *)

Lemma parse_normalize (this : DiceParser) (v v' : jsstring) :
  normalize v = normalize v' -> parse this v = parse this v'.
Proof.
  intros E. unfold parse, tokenize. fold (normalize v) (normalize v').
  now rewrite E.
Qed.

Lemma dropWhile_all {A} (p : A -> bool) (l r : list A) :
  forallb p l = true -> dropWhile p (l ++ r) = dropWhile p r.
Proof.
  induction l as [|c l IH]; cbn [forallb app dropWhile]; intros H; [reflexivity|].
  apply andb_true_iff in H. destruct H as [-> H]. now apply IH.
Qed.

(** Dropping leading white space in front of a run of white space:
    either the run goes too, or it stays where it is. *)
Lemma dropWhile_runs (a ws1 ws2 b : jsstring) :
  forallb isWhiteSpace ws1 = true -> forallb isWhiteSpace ws2 = true ->
  (dropWhile isWhiteSpace (a ++ ws1 ++ b) = dropWhile isWhiteSpace b /\
   dropWhile isWhiteSpace (a ++ ws2 ++ b) = dropWhile isWhiteSpace b) \/
  exists a', a' <> [] /\
    dropWhile isWhiteSpace (a ++ ws1 ++ b) = a' ++ ws1 ++ b /\
    dropWhile isWhiteSpace (a ++ ws2 ++ b) = a' ++ ws2 ++ b.
Proof.
  intros H1 H2. induction a as [|c a IH]; cbn [app dropWhile].
  - left. split; now apply dropWhile_all.
  - destruct (isWhiteSpace c); [exact IH|].
    right. exists (c :: a). repeat split. discriminate.
Qed.

Lemma collapseFrom_all (ws : jsstring) :
  forallb isWhiteSpace ws = true -> ws <> [] ->
  forall (r : jsstring) inRun,
    collapseFrom inRun (ws ++ r)
    = (if inRun then [] else [" "]) ++ collapseFrom true r.
Proof.
  induction ws as [|c ws IH]; [congruence|]. intros H _ r inRun.
  cbn [forallb] in H. apply andb_true_iff in H. destruct H as [Hc H].
  cbn [app collapseFrom]. rewrite Hc.
  destruct ws as [|d ws].
  - destruct inRun; reflexivity.
  - destruct inRun; rewrite (IH H ltac:(discriminate)); reflexivity.
Qed.

Lemma collapseFrom_runs (a ws1 ws2 b : jsstring) :
  forallb isWhiteSpace ws1 = true -> ws1 <> [] ->
  forallb isWhiteSpace ws2 = true -> ws2 <> [] ->
  forall inRun,
    collapseFrom inRun (a ++ ws1 ++ b) = collapseFrom inRun (a ++ ws2 ++ b).
Proof.
  intros H1 N1 H2 N2. induction a as [|c a IH]; intros inRun.
  - cbn [app]. now rewrite !collapseFrom_all.
  - cbn [app collapseFrom]. destruct (isWhiteSpace c), inRun; now rewrite IH.
Qed.

Lemma forallb_rev {A} (p : A -> bool) (l : list A) :
  forallb p (rev l) = forallb p l.
Proof.
  induction l as [|c l IH]; [reflexivity|]. cbn [rev forallb].
  rewrite forallb_app, IH. cbn [forallb]. rewrite andb_true_r. apply andb_comm.
Qed.

Lemma normalize_runs (a ws1 ws2 b : jsstring) :
  forallb isWhiteSpace ws1 = true -> ws1 <> [] ->
  forallb isWhiteSpace ws2 = true -> ws2 <> [] ->
  normalize (a ++ ws1 ++ b) = normalize (a ++ ws2 ++ b).
Proof.
  intros H1 N1 H2 N2. unfold normalize, trim, trimStart.
  destruct (dropWhile_runs a ws1 ws2 b H1 H2) as [[-> ->]|(a' & _ & -> & ->)];
    [reflexivity|].
  unfold trimEnd. rewrite !rev_app_distr, <- !app_assoc.
  destruct (dropWhile_runs (rev b) (rev ws1) (rev ws2) (rev a'))
    as [[-> ->]|(b' & _ & -> & ->)];
    [now rewrite forallb_rev | now rewrite forallb_rev | reflexivity |].
  rewrite !rev_app_distr, !rev_involutive, <- !app_assoc.
  apply collapseFrom_runs; assumption.
Qed.

(** X10: any run of white space (spaces, tabs, line breaks) reads as one
    space: replacing a run by a single space changes neither the
    expression parsed nor the error thrown. *)
Theorem white_space_run_as_one_space (this : DiceParser) (a ws b : jsstring) :
  forallb isWhiteSpace ws = true -> ws <> [] ->
  parse this (a ++ ws ++ b) = parse this (a ++ " " :: b).
Proof.
  intros H N. apply parse_normalize.
  exact (normalize_runs a ws [" "%char] b H N eq_refl ltac:(discriminate)).
Qed.

Lemma white_space_run_as_one_space_witness :
  parse unlimited (str "2d6" ++ [" "; ascii_of_nat 9; ascii_of_nat 10] ++ str "+ 1")
  = parse unlimited (str "2d6" ++ " " :: str "+ 1").
Proof.
  apply (white_space_run_as_one_space unlimited (str "2d6")
           [" "; ascii_of_nat 9; ascii_of_nat 10] (str "+ 1")).
  - reflexivity.
  - discriminate.
Defined.

Lemma trimEnd_all (ws : jsstring) (v : jsstring) :
  forallb isWhiteSpace ws = true -> trimEnd (v ++ ws) = trimEnd v.
Proof.
  intros H. unfold trimEnd. rewrite rev_app_distr, dropWhile_all; [reflexivity|].
  now rewrite forallb_rev.
Qed.

(** X11: white space around the text is ignored: the text parses as it
    does without it. *)
Theorem surrounding_white_space_ignored (this : DiceParser)
    (ws1 v ws2 : jsstring) :
  forallb isWhiteSpace ws1 = true -> forallb isWhiteSpace ws2 = true ->
  parse this (ws1 ++ v ++ ws2) = parse this v.
Proof.
  intros H1 H2. apply parse_normalize. unfold normalize, trim, trimStart.
  rewrite (dropWhile_all _ ws1 _ H1).
  fold (trimStart (v ++ ws2)) (trimStart v). f_equal.
  unfold trimStart. induction v as [|c v IH]; cbn [app dropWhile].
  - rewrite <- (app_nil_r ws2) at 1. rewrite (dropWhile_all _ ws2 [] H2).
    reflexivity.
  - destruct (isWhiteSpace c); [exact IH|].
    change (c :: v ++ ws2) with ((c :: v) ++ ws2). now apply trimEnd_all.
Qed.

Lemma surrounding_white_space_ignored_witness :
  parse unlimited (str "  " ++ str "d20 + 4" ++ [ascii_of_nat 10])
  = parse unlimited (str "d20 + 4").
Proof.
  apply (surrounding_white_space_ignored unlimited (str "  ") (str "d20 + 4")
           [ascii_of_nat 10]); reflexivity.
Defined.

(** ** The resolver: parentheses *)

Lemma opens_takeWhile (p : jsstring -> bool) (ops : list jsstring) :
  (forall t, p t = true -> isTokenGroupStart (Some t) = false) ->
  opens (dropWhile p ops) = opens ops.
Proof.
  intros Hp. induction ops as [|t ops IH]; [reflexivity|].
  cbn [dropWhile]. destruct (p t) eqn:E; [|reflexivity].
  unfold opens in *. cbn [filter]. now rewrite (Hp t E).
Qed.

Lemma dropWhile_notGroupStart (ops : list jsstring) :
  match dropWhile notGroupStart ops with
  | [] => opens ops = 0%nat
  | t :: ops' => isTokenGroupStart (Some t) = true /\ opens ops = S (opens ops')
  end.
Proof.
  induction ops as [|t ops IH]; [reflexivity|].
  cbn [dropWhile]. unfold notGroupStart at 1.
  destruct (isTokenGroupStart (Some t)) eqn:E; cbn [negb].
  - split; [exact E|]. unfold opens. cbn [filter]. now rewrite E.
  - unfold opens in *. cbn [filter]. rewrite E. exact IH.
Qed.

(** What a step of the resolver does to the number of open parentheses,
    and when it throws. *)
Lemma yardStep_depth (st : YardState) (t : jsstring) :
  let d := opens (operatorStack st) in
  let keeps n := exists st1, yardStep st t = OK st1 /\
                             opens (operatorStack st1) = n in
  if isTokenGroupStart (Some t) then keeps (S d)
  else if isTokenGroupEnd (Some t) then
    match d with
    | O => isSyntaxError (yardStep st t)
    | S d' => keeps d'
    end
  else if strEq t (str ",") then
    match d with
    | O => isSyntaxError (yardStep st t)
    | S _ => keeps d
    end
  else keeps d.
Proof.
  cbn zeta. unfold yardStep.
  destruct (isTokenGroupStart (Some t)) eqn:E1.
  { eexists. split; [reflexivity|]. cbn [operatorStack]. unfold opens.
    cbn [filter]. now rewrite E1. }
  rewrite !(popWhile_spec _ _ st eq_refl). cbn [operatorStack outputStack].
  fold notGroupStart.
  pose proof (dropWhile_notGroupStart (operatorStack st)) as D.
  destruct (isTokenGroupEnd (Some t)) eqn:E2.
  { destruct (dropWhile notGroupStart (operatorStack st)) as [|u ops'].
    - rewrite D. eexists _, _. reflexivity.
    - destruct D as [Hu ->]. rewrite Hu. eexists. split; reflexivity. }
  destruct (strEq t (str ",")) eqn:E3.
  { destruct (dropWhile notGroupStart (operatorStack st)) as [|u ops'] eqn:Ed.
    - rewrite D. eexists _, _. reflexivity.
    - destruct D as [Hu ->]. eexists. split; [reflexivity|].
      cbn [operatorStack]. unfold opens. cbn [filter]. now rewrite Hu. }
  destruct (isTokenOperator (Some t)) eqn:E4.
  - eexists. split; [reflexivity|]. cbn [operatorStack]. unfold opens at 1.
    cbn [filter]. rewrite E1. apply opens_takeWhile.
    intros u Hu. apply andb_true_iff in Hu. destruct Hu as [Hu _].
    destruct (isTokenGroupStart (Some u)) eqn:G; [|reflexivity].
    now rewrite (group_not_operator u G) in Hu.
  - eexists. split; reflexivity.
Qed.

Lemma drainOperators_depth (ops : list jsstring) : forall st,
  match opens ops with
  | O => exists st', drainOperators st ops = OK st'
  | S _ => isSyntaxError (drainOperators st ops)
  end.
Proof.
  induction ops as [|t ops IH]; intros st.
  - eexists. reflexivity.
  - cbn [drainOperators]. unfold opens in *. cbn [filter].
    destruct (isTokenGroupStart (Some t)); cbn [negb List.length].
    + eexists _, _. reflexivity.
    + apply IH.
Qed.

(** The resolver from any state on: it ends without error exactly when
    the tokens are well nested at the depth of the state. *)
Lemma forEach_yard_depth (toks : list jsstring) : forall st,
  if wellNested (opens (operatorStack st)) toks
  then exists st', forEach yardStep st toks = OK st' /\
                   opens (operatorStack st') = 0%nat
  else (exists st', forEach yardStep st toks = OK st' /\
                    opens (operatorStack st') <> 0%nat) \/
       isSyntaxError (forEach yardStep st toks).
Proof.
  induction toks as [|t toks IH]; intros st.
  - cbn [wellNested forEach].
    destruct (opens (operatorStack st)) eqn:E; cbn [Nat.eqb].
    + eexists. split; [reflexivity | exact E].
    + left. eexists. split; [reflexivity | now rewrite E].
  - pose proof (yardStep_depth st t) as S. cbn zeta in S.
    cbn [wellNested forEach].
    assert (K : forall n,
               (exists st1, yardStep st t = OK st1 /\
                            opens (operatorStack st1) = n) ->
               if wellNested n toks
               then exists st', (st1 <- yardStep st t ;;
                                 forEach yardStep st1 toks) = OK st' /\
                                opens (operatorStack st') = 0%nat
               else (exists st', (st1 <- yardStep st t ;;
                                  forEach yardStep st1 toks) = OK st' /\
                                 opens (operatorStack st') <> 0%nat) \/
                    isSyntaxError (st1 <- yardStep st t ;;
                                   forEach yardStep st1 toks)).
    { intros n (st1 & -> & <-). cbn [bind]. apply IH. }
    assert (T : isSyntaxError (yardStep st t) ->
                isSyntaxError (st1 <- yardStep st t ;;
                               forEach yardStep st1 toks)).
    { intros (issue & loc & ->). eexists _, _. reflexivity. }
    destruct (isTokenGroupStart (Some t)); [now apply K|].
    destruct (isTokenGroupEnd (Some t)).
    { destruct (opens (operatorStack st)); [right; now apply T | now apply K]. }
    destruct (strEq t (str ",")); [|now apply K].
    destruct (opens (operatorStack st)) eqn:E; cbn [Nat.eqb negb andb].
    + right. now apply T.
    + now apply K.
Qed.

Lemma yard_depth (toks : list jsstring) :
  if wellNested 0 toks
  then exists rpn, shuntingYardConversion toks = OK rpn
  else isSyntaxError (shuntingYardConversion toks).
Proof.
  unfold shuntingYardConversion.
  pose proof (forEach_yard_depth toks {| outputStack := []; operatorStack := [] |})
    as H.
  change (opens (operatorStack {| outputStack := []; operatorStack := [] |}))
    with 0%nat in H.
  destruct (wellNested 0 toks).
  - destruct H as (st & -> & D). cbn [bind].
    pose proof (drainOperators_depth (operatorStack st) st) as Q.
    rewrite D in Q. destruct Q as (st' & ->). eexists. reflexivity.
  - destruct H as [(st & -> & D)|(issue & loc & ->)].
    + cbn [bind]. pose proof (drainOperators_depth (operatorStack st) st) as Q.
      destruct (opens (operatorStack st)); [congruence|].
      destruct Q as (issue & loc & ->). eexists _, _. reflexivity.
    + eexists _, _. reflexivity.
Qed.

(** X12: the resolver accepts a token sequence exactly when its
    parentheses match and every comma stands inside a pair of them; any
    other sequence is a syntax error. *)
Theorem resolver_accepts_well_nested (toks : list jsstring) :
  (wellNested 0 toks = true <->
   exists rpn, shuntingYardConversion toks = OK rpn) /\
  (wellNested 0 toks = false <-> isSyntaxError (shuntingYardConversion toks)).
Proof.
  pose proof (yard_depth toks) as H.
  destruct (wellNested 0 toks); split; split; intros K; try reflexivity;
    try exact H; exfalso.
  - discriminate.
  - destruct H as (rpn & E). destruct K as (issue & loc & K). congruence.
  - discriminate.
  - destruct K as (rpn & E). destruct H as (issue & loc & K). congruence.
Qed.

Lemma resolver_accepts_well_nested_witness :
  exists rpn,
    shuntingYardConversion
      [str "("; str "1"; str ","; str "2"; str ")"; str "*"; str "3"] = OK rpn.
Proof.
  exact (proj1 (proj1 (resolver_accepts_well_nested
                         [str "("; str "1"; str ","; str "2"; str ")";
                          str "*"; str "3"])) eq_refl).
Defined.

(** ** The resolver: what the postfix order holds *)

Lemma filter_takeWhile_dropWhile {A} (p q : A -> bool) (l : list A) :
  (forall t, p t = true -> q t = true) ->
  filter q l = takeWhile p l ++ filter q (dropWhile p l).
Proof.
  intros Hpq. induction l as [|t l IH]; [reflexivity|].
  cbn [takeWhile dropWhile]. destruct (p t) eqn:E; [|reflexivity].
  cbn [filter app]. rewrite (Hpq t E). now f_equal.
Qed.

Lemma perm_swap_rev {A} (tw out F : list A) :
  Permutation ((rev tw ++ out) ++ F) (out ++ tw ++ F).
Proof.
  rewrite <- app_assoc. etransitivity; [apply Permutation_app_swap_app|].
  apply Permutation_app_head, Permutation_app_tail, Permutation_sym,
    Permutation_rev.
Qed.

(** A step of the resolver keeps every token but the grouping ones, on
    one of the two stacks. *)
Lemma yardStep_perm (st st' : YardState) (t : jsstring) :
  yardStep st t = OK st' ->
  Permutation (outputStack st' ++ filter notGroupStart (operatorStack st'))
              (filter notGrouping [t]
               ++ outputStack st ++ filter notGroupStart (operatorStack st)).
Proof.
  unfold yardStep. cbn [filter]. unfold notGrouping, isGrouping. intros H.
  destruct (isTokenGroupStart (Some t)) eqn:E1.
  { assert (Nt : notGroupStart t = false) by (unfold notGroupStart; now rewrite E1).
    apply OK_inj in H. subst st'. cbn [outputStack operatorStack filter orb negb app].
    now rewrite Nt. }
  rewrite !(popWhile_spec _ _ st eq_refl) in H.
  cbn [operatorStack outputStack] in H. fold notGroupStart in H.
  pose proof (filter_takeWhile_dropWhile notGroupStart notGroupStart
                (operatorStack st) (fun _ E => E)) as F.
  destruct (isTokenGroupEnd (Some t)) eqn:E2.
  { cbn [orb negb app].
    destruct (dropWhile notGroupStart (operatorStack st)) as [|u ops'];
      [discriminate|].
    destruct (isTokenGroupStart (Some u)) eqn:Eu; [|discriminate].
    apply OK_inj in H. subst st'. cbn [outputStack operatorStack].
    assert (Nu : notGroupStart u = false) by (unfold notGroupStart; now rewrite Eu).
    rewrite F. cbn [filter]. rewrite Nu. apply perm_swap_rev. }
  destruct (strEq t (str ",")) eqn:E3.
  { cbn [orb negb app].
    destruct (dropWhile notGroupStart (operatorStack st)) as [|u ops'] eqn:Ed;
      [discriminate|].
    apply OK_inj in H. subst st'. cbn [outputStack operatorStack].
    rewrite F. apply perm_swap_rev. }
  cbn [orb negb app].
  destruct (isTokenOperator (Some t)) eqn:E4; apply OK_inj in H; subst st';
    cbn [outputStack operatorStack].
  - assert (Nt : notGroupStart t = true) by (unfold notGroupStart; now rewrite E1).
    cbn [filter]. rewrite Nt.
    rewrite (filter_takeWhile_dropWhile
               (fun u => isTokenOperator (Some u)
                         && geNumbers (precedenceOf u) (precedenceOf t))
               notGroupStart (operatorStack st)).
    + apply Permutation_sym, Permutation_cons_app, Permutation_sym,
        perm_swap_rev.
    + intros u Hu. apply andb_true_iff in Hu. destruct Hu as [Hu _].
      unfold notGroupStart. destruct (isTokenGroupStart (Some u)) eqn:G;
        [|reflexivity].
      now rewrite (group_not_operator u G) in Hu.
  - reflexivity.
Qed.

Lemma forEach_yard_perm (l : list jsstring) : forall st st',
  forEach yardStep st l = OK st' ->
  Permutation (outputStack st' ++ filter notGroupStart (operatorStack st'))
              (filter notGrouping l
               ++ outputStack st ++ filter notGroupStart (operatorStack st)).
Proof.
  induction l as [|t l IH]; intros st st' H.
  - apply OK_inj in H. now subst.
  - cbn [forEach] in H. destruct (yardStep st t) as [st1|] eqn:E; [|discriminate].
    cbn [bind] in H. etransitivity; [exact (IH _ _ H)|].
    change (t :: l) with ([t] ++ l). rewrite filter_app, <- app_assoc.
    etransitivity; [|apply Permutation_app_swap_app].
    apply Permutation_app_head. exact (yardStep_perm _ _ _ E).
Qed.

Lemma forallb_filter_id {A} (p : A -> bool) (l : list A) :
  forallb p l = true -> filter p l = l.
Proof.
  induction l as [|t l IH]; cbn [forallb filter]; [reflexivity|].
  intros H. apply andb_true_iff in H. destruct H as [-> H]. now rewrite IH.
Qed.

Lemma yard_perm (toks rpn : list jsstring) :
  shuntingYardConversion toks = OK rpn ->
  Permutation rpn (filter notGrouping toks).
Proof.
  unfold shuntingYardConversion. intros H.
  destruct (forEach yardStep _ toks) as [st|] eqn:E; [|discriminate].
  cbn [bind] in H.
  destruct (drainOperators st (operatorStack st)) as [st'|] eqn:D; [|discriminate].
  apply OK_inj in H. subst rpn.
  destruct (drainOperators_spec _ _ _ D) as [-> Hn].
  pose proof (forEach_yard_perm _ _ _ E) as P.
  cbn [outputStack operatorStack filter] in P. rewrite !app_nil_r in P.
  rewrite (forallb_filter_id _ _ Hn) in P.
  etransitivity; [|exact P].
  etransitivity; [apply Permutation_sym, Permutation_rev|].
  etransitivity; [apply Permutation_app_comm|].
  apply Permutation_app_head, Permutation_sym, Permutation_rev.
Qed.

Lemma yard_notGrouping (toks rpn : list jsstring) :
  shuntingYardConversion toks = OK rpn -> forallb notGrouping rpn = true.
Proof.
  intros H. apply forallb_forall. intros t Ht.
  apply (Permutation_in _ (yard_perm _ _ H)) in Ht.
  now apply filter_In in Ht.
Qed.

Lemma operand_notGrouping (t : jsstring) :
  isOperandToken t = nonOperator t && notGrouping t.
Proof.
  unfold isOperandToken, nonOperator, notGrouping, isGrouping.
  destruct (isTokenOperator (Some t)), (isTokenGroupStart (Some t)),
    (isTokenGroupEnd (Some t)), (strEq t (str ",")); reflexivity.
Qed.

(** X13: the postfix order the resolver returns holds exactly the
    tokens of the input that are no parenthesis and no comma, each as
    often as the input has it, and the operands among them in the order
    of the input. *)
Theorem resolver_output (toks rpn : list jsstring) :
  shuntingYardConversion toks = OK rpn ->
  Permutation rpn (filter notGrouping toks) /\
  operandTokens rpn = operandTokens toks.
Proof.
  intros H. split; [exact (yard_perm _ _ H)|].
  rewrite <- (yard_operand_order _ _ H). unfold operandTokens.
  apply filter_ext_in. intros t Ht. rewrite operand_notGrouping.
  pose proof (yard_notGrouping _ _ H) as N. rewrite forallb_forall in N.
  now rewrite (N t Ht), andb_true_r.
Qed.

Lemma resolver_output_witness :
  Permutation [str "1"; str "2"; str "3"; str "*"; str "+"]
              (filter notGrouping
                 [str "1"; str "+"; str "("; str "2"; str "*"; str "3"; str ")"]) /\
  operandTokens [str "1"; str "2"; str "3"; str "*"; str "+"]
  = operandTokens
      [str "1"; str "+"; str "("; str "2"; str "*"; str "3"; str ")"].
Proof.
  exact (resolver_output
           [str "1"; str "+"; str "("; str "2"; str "*"; str "3"; str ")"]
           [str "1"; str "2"; str "3"; str "*"; str "+"] eq_refl).
Defined.

(** ** The builder: operands and operators *)

Lemma primitive_no_nodes (t : jsstring) (e : DiceExpression) :
  expressionForPrimitive t = OK e -> infixNodes e = O.
Proof.
  intros H. destruct (primitive_cases t e H) as [(v & -> & _)|(p0 & p1 & _ & -> & _)];
    reflexivity.
Qed.

(** The builder pushes a tree for an operand and joins two trees for an
    operator. *)
Lemma forEach_builder_length (this : DiceParser) (l : list jsstring) :
  forall st st',
    forEach (builderStep this) st l = OK st' ->
    (List.length (stack st') + List.length (operatorTokens l)
     = List.length (stack st) + List.length (filter nonOperator l))%nat /\
    stackNodes (stack st')
    = (stackNodes (stack st) + List.length (operatorTokens l))%nat /\
    (stack st' = [] -> stack st = [] /\ l = []).
Proof.
  induction l as [|t l IH]; intros st st' H.
  - apply OK_inj in H. subst. cbn. repeat split; auto; lia.
  - cbn [forEach] in H.
    destruct (builderStep this st t) as [st1|] eqn:E; [|discriminate].
    cbn [bind] in H. destruct (IH _ _ H) as (L & N & Z).
    unfold operatorTokens in *. cbn [filter].
    change (isOperatorToken t) with (isTokenOperator (Some t)).
    change (nonOperator t) with (negb (isTokenOperator (Some t))).
    destruct (builderStep_cases _ _ _ _ E)
      as [(c & x & y & rest & -> & Hc & Ho & Es & ->)|(Ho & e & He & Es & _)];
      rewrite Ho; cbn [negb List.length].
    + cbn [stack] in *. rewrite Es.
      cbn [List.length stackNodes fold_right infixNodes] in *.
      split; [lia | split; [unfold stackNodes in *; lia |]].
      intros K. destruct (Z K). discriminate.
    + rewrite Es in *. cbn [List.length stackNodes fold_right] in *.
      rewrite (primitive_no_nodes _ _ He) in N.
      split; [lia | split; [unfold stackNodes in *; lia |]].
      intros K. destruct (Z K). discriminate.
Qed.

Lemma filter_filter_sub {A} (p q : A -> bool) (l : list A) :
  (forall t, p t = true -> q t = true) ->
  filter p (filter q l) = filter p l.
Proof.
  intros Hpq. induction l as [|t l IH]; [reflexivity|]. cbn [filter].
  destruct (q t) eqn:Q; cbn [filter].
  - now rewrite IH.
  - destruct (p t) eqn:P; [|exact IH]. rewrite (Hpq t P) in Q. discriminate.
Qed.

Lemma Permutation_filter_length {A} (p : A -> bool) (l l' : list A) :
  Permutation l l' -> List.length (filter p l) = List.length (filter p l').
Proof.
  induction 1 as [|x l l' _ IH|x y l|l l' l'' _ IH1 _ IH2]; cbn [filter].
  - reflexivity.
  - destruct (p x); cbn [List.length]; now rewrite IH.
  - destruct (p x), (p y); reflexivity.
  - now rewrite IH1.
Qed.

Lemma operator_notGrouping (t : jsstring) :
  isOperatorToken t = true -> notGrouping t = true.
Proof.
  unfold isOperatorToken, notGrouping, isGrouping. intros H.
  destruct (isTokenGroupStart (Some t)) eqn:G1.
  { now rewrite (group_not_operator t G1) in H. }
  destruct (isTokenGroupEnd (Some t)) eqn:G2.
  { cbn in G2. apply strEq_true in G2. now subst t. }
  destruct (strEq t (str ",")) eqn:G3; [|reflexivity].
  apply strEq_true in G3. now subst t.
Qed.

Lemma leaves_nodes (e : DiceExpression) :
  List.length (leaves e) = S (infixNodes e).
Proof.
  induction e as [v|d|c d|l IHl r IHr op]; cbn [leaves infixNodes]; try reflexivity.
  rewrite length_app, IHl, IHr. lia.
Qed.

(** X14: an accepted text has one operand more than it has operators;
    the tree has one leaf for every operand token and one operator node
    for every operator token. *)
Theorem parse_operands_and_operators (this : DiceParser) (value : jsstring)
    (e : DiceExpression) (toks : list jsstring) :
  parse this value = OK (Some e) -> tokenize value = OK toks ->
  List.length (operandTokens toks) = S (List.length (operatorTokens toks)) /\
  List.length (leaves e) = List.length (operandTokens toks) /\
  infixNodes e = List.length (operatorTokens toks).
Proof.
  intros H Ht.
  destruct (parse_stages _ _ _ H) as (toks' & rpn & st & Et & _ & Ey & Eb & Hs & Er).
  rewrite Ht in Et. apply OK_inj in Et. subst toks'.
  destruct Hs as [Hs|(e' & Hs)]; rewrite Hs in Er; [discriminate|].
  injection Er as ->.
  destruct (forEach_builder_length _ _ _ _ Eb) as (L & N & _).
  rewrite Hs in L, N. cbn [stack List.length stackNodes fold_right] in L, N.
  rewrite (yard_operand_order _ _ Ey) in L.
  assert (O : List.length (operatorTokens rpn) = List.length (operatorTokens toks)).
  { unfold operatorTokens.
    rewrite (Permutation_filter_length _ _ _ (yard_perm _ _ Ey)).
    now rewrite (filter_filter_sub _ _ _ operator_notGrouping). }
  rewrite O in L, N. repeat split; [lia | | lia].
  rewrite leaves_nodes. lia.
Qed.

Lemma parse_operands_and_operators_witness :
  List.length (operandTokens [str "2d6"; str "+"; str "3"; str "*"; str "d4"])
  = S (List.length (operatorTokens [str "2d6"; str "+"; str "3"; str "*"; str "d4"])).
Proof.
  exact (proj1 (parse_operands_and_operators unlimited (str "2d6 + 3*d4") _ _
                  eq_refl eq_refl)).
Defined.

(** ** When [parse] returns [undefined] *)

Lemma forallb_isGrouping (toks : list jsstring) :
  filter notGrouping toks = [] <-> forallb isGrouping toks = true.
Proof.
  induction toks as [|t toks IH]; cbn [filter forallb]; [tauto|].
  unfold notGrouping at 1. destruct (isGrouping t); cbn [negb andb];
    [exact IH | split; discriminate].
Qed.

(** X15: [parse] returns [undefined] instead of an expression exactly
    for the texts that consist of well-nested parentheses and commas
    only, such as ["()"]. *)
Theorem parse_undefined (this : DiceParser) (value : jsstring) :
  parse this value = OK None <->
  exists toks, tokenize value = OK toks /\ toks <> [] /\
               forallb isGrouping toks = true /\ wellNested 0 toks = true.
Proof.
  split.
  - intros H.
    destruct (parse_stages _ _ _ H) as (toks & rpn & st & Et & Hne & Ey & Eb & Hs & Er).
    exists toks. repeat split; try assumption.
    + apply forallb_isGrouping.
      assert (Es : stack st = []).
      { destruct Hs as [Hs|(e & Hs)]; [exact Hs | rewrite Hs in Er; discriminate]. }
      destruct (forEach_builder_length _ _ _ _ Eb) as (_ & _ & Z).
      destruct (Z Es) as [_ ->].
      now apply Permutation_nil, (yard_perm _ _ Ey).
    + pose proof (yard_depth toks) as D.
      destruct (wellNested 0 toks); [reflexivity|].
      destruct D as (issue & loc & D). congruence.
  - intros (toks & Et & Hne & Hg & Hw). unfold parse. rewrite Et. cbn [bind].
    destruct toks as [|t toks]; [congruence|].
    pose proof (yard_depth (t :: toks)) as D. rewrite Hw in D.
    destruct D as (rpn & Ey). rewrite Ey. cbn [bind].
    pose proof (yard_perm _ _ Ey) as P.
    apply forallb_isGrouping in Hg. rewrite Hg in P.
    apply Permutation_sym, Permutation_nil in P. now subst rpn.
Qed.


Lemma parse_undefined_witness : parse unlimited (str "(( ), ())") = OK None.
Proof.
  apply (proj2 (parse_undefined unlimited (str "(( ), ())"))).
  exists [str "("; str "("; str ")"; str ","; str "("; str ")"; str ")"].
  split; [reflexivity|]. split; [discriminate|]. split; reflexivity.
Defined.

(** ** The maximum only rejects *)

(** A step of the builder with a maximum and one without, from states
    with the same stack. *)
Lemma builderStep_maximum (m : number) (st st0 : BuilderState) (t : jsstring) :
  stack st = stack st0 ->
  builderStep {| maximumDiceCount := Some m |} st t
    = Throw (DiceParserDiceCount m) \/
  sameOutcome (builderStep {| maximumDiceCount := Some m |} st t)
              (builderStep unlimited st0 t).
Proof.
  intros Es. unfold builderStep. rewrite <- Es. cbn [maximumDiceCount unlimited].
  destruct (isTokenOperator (Some t)).
  - right. destruct (operators t) as [[o|]|]; try reflexivity.
    destruct (popParams (arguments o) (stack st) []) as [ps|e];
      [|reflexivity].
    cbn [bind]. destruct (rev (fst ps)) as [|x [|y [|z s]]]; reflexivity.
  - destruct (expressionForPrimitive t) as [e|e]; [|right; reflexivity].
    cbn [bind]. destruct e; try (right; reflexivity).
    destruct (jsGt (jsAdd (diceCount st) count) m);
      [left; reflexivity | right; reflexivity].
Qed.

Lemma forEach_builder_maximum (m : number) (l : list jsstring) :
  forall st st0, stack st = stack st0 ->
  forEach (builderStep {| maximumDiceCount := Some m |}) st l
    = Throw (DiceParserDiceCount m) \/
  sameOutcome (forEach (builderStep {| maximumDiceCount := Some m |}) st l)
              (forEach (builderStep unlimited) st0 l).
Proof.
  induction l as [|t l IH]; intros st st0 Es; [right; exact Es|].
  cbn [forEach].
  destruct (builderStep_maximum m st st0 t Es) as [->|S]; [left; reflexivity|].
  destruct (builderStep {| maximumDiceCount := Some m |} st t) as [a|e],
    (builderStep unlimited st0 t) as [b|e']; cbn [bind];
    unfold sameOutcome in S; try contradiction.
  - now apply IH.
  - right. exact S.
Qed.

(** X16: a maximum dice count changes nothing but to reject: with any
    maximum, [parse] either does what it does without one, the same
    tree or the same error, or it throws the dice-count error that
    names the maximum. *)
Theorem maximum_only_rejects (m : number) (value : jsstring) :
  parse {| maximumDiceCount := Some m |} value = parse unlimited value \/
  parse {| maximumDiceCount := Some m |} value = Throw (DiceParserDiceCount m).
Proof.
  unfold parse. destruct (tokenize value) as [toks|e]; [|left; reflexivity].
  cbn [bind]. destruct toks as [|t toks]; [left; reflexivity|].
  destruct (shuntingYardConversion (t :: toks)) as [rpn|e]; [|left; reflexivity].
  cbn [bind]. unfold expressionForReversePolishNotation.
  destruct (forEach_builder_maximum m rpn {| stack := []; diceCount := ofZ 0 |}
              {| stack := []; diceCount := ofZ 0 |} eq_refl) as [->|H];
    [right; reflexivity|].
  left. unfold sameOutcome in H.
  destruct (forEach (builderStep {| maximumDiceCount := Some m |}) _ rpn) as [a|e],
    (forEach (builderStep unlimited) _ rpn) as [b|e']; try contradiction.
  - cbn [bind]. now rewrite H.
  - now subst.
Qed.

(** ** Rolling *)

(** X17: an expression without dice rolls to its value, whatever the
    samples are: it draws none and reports no dice. *)
Theorem roll_without_dice (e : DiceExpression) :
  dieNodes e = [] ->
  forall (rnd : Random) (k : nat),
    roll rnd e k = Some (AccumulatedResult (evaluate e) [], k).
Proof.
  induction e as [v|d|c d|l IHl r IHr op]; cbn [dieNodes]; intros H rnd k;
    try discriminate.
  - reflexivity.
  - apply app_eq_nil in H. destruct H as [Hl Hr].
    cbn [roll evaluate]. rewrite (IHl Hl), (IHr Hr). reflexivity.
Qed.

Lemma roll_without_dice_witness :
  roll cycle4 (InfixArithmeticExpression
                 (NumericalExpression (ofZ 1))
                 (InfixArithmeticExpression (NumericalExpression (ofZ 2))
                    (NumericalExpression (ofZ 3)) Times) Plus) 5
  = Some (AccumulatedResult (ofZ 7) [], 5%nat).
Proof.
  exact (roll_without_dice
           (InfixArithmeticExpression
              (NumericalExpression (ofZ 1))
              (InfixArithmeticExpression (NumericalExpression (ofZ 2))
                 (NumericalExpression (ofZ 3)) Times) Plus)
           eq_refl cycle4 5%nat).
Defined.

Lemma nth_error_flat_dieRolls rnd d k n i r :
  nth_error (flat_map diceRolled (dieRolls rnd d k n)) i = Some r ->
  recordOf rnd d (k + i) = [r].
Proof.
  rewrite flat_dieRolls. intros H.
  assert (Hi : (i < n)%nat).
  { assert (L : nth_error (map (fun i0 : nat =>
                 let v := result_value (fst (rollDie rnd d (k + i0))) in
                 mkRolled (die_size d) v (strictEq v (die_size d))
                   (negb (strictEq v (die_size d)) && strictEq v (ofZ 1)))
                 (seq 0 n)) i <> None) by congruence.
    apply nth_error_Some in L. now rewrite length_map, length_seq in L. }
  rewrite nth_error_map, nth_error_seq in H.
  destruct (Nat.ltb_spec i n) as [_|C]; [|lia].
  cbn in H. injection H as <-. reflexivity.
Qed.

(** X18: every die a roll reports is rolled on a sample of its own, in
    the order of the records: the record at index [i] is the roll of a
    die of the tree on the sample [i] places after the first one, so
    that no sample is used twice or skipped. *)
Theorem roll_records_samples (rnd : Random) (e : DiceExpression) :
  forall (k : nat) (res : DiceResult) (k' : nat),
    roll rnd e k = Some (res, k') ->
    forall (i : nat) (r : DiceRolled),
      nth_error (diceRolled res) i = Some r ->
      exists d, In d (dieNodes e) /\ recordOf rnd d (k + i) = [r].
Proof.
  induction e as [v|d|c d|l IHl r0 IHr op]; intros k res k' H i r Hi.
  - injection H as <- <-. destruct i; discriminate.
  - cbn [roll] in H. injection H as <- <-. cbn [rollDie diceRolled] in Hi.
    destruct i as [|[|i]]; try discriminate. injection Hi as <-.
    exists d. split; [now left|]. now rewrite Nat.add_0_r.
  - destruct (loopTrips c) as [trips|] eqn:E.
    + rewrite (roll_counted rnd c d k trips E) in H.
      remember (dieRolls rnd d k (S trips)) as rs eqn:Ers.
      injection H as <- <-. subst rs. cbn [diceRolled] in Hi.
      exists d. split; [now left|]. exact (nth_error_flat_dieRolls _ _ _ _ _ _ Hi).
    + cbn [roll] in H. rewrite E in H. destruct (rollDie rnd d k). discriminate.
  - cbn [roll] in H.
    destruct (roll rnd l k) as [[lres k1]|] eqn:El; [|discriminate].
    destruct (roll rnd r0 k1) as [[rres k2]|] eqn:Er; [|discriminate].
    injection H as <- <-. cbn [diceRolled dieNodes] in *.
    destruct (roll_shape _ _ _ _ _ El) as [_ K1].
    destruct (Nat.lt_ge_cases i (List.length (diceRolled lres))) as [Lt|Ge].
    + rewrite nth_error_app1 in Hi by exact Lt.
      destruct (IHl _ _ _ El _ _ Hi) as (d & Hd & R).
      exists d. split; [apply in_or_app; now left | exact R].
    + rewrite nth_error_app2 in Hi by exact Ge.
      destruct (IHr _ _ _ Er _ _ Hi) as (d & Hd & R).
      exists d. split; [apply in_or_app; now right|].
      rewrite <- R. f_equal. lia.
Qed.

Lemma roll_records_samples_witness :
  exists d,
    In d (dieNodes (InfixArithmeticExpression
                      (CountedDiceRollExpression (ofZ 2) (Die (ofZ 6)))
                      (CountedDiceRollExpression (ofZ 1) (Die (ofZ 20))) Plus)) /\
    recordOf cycle4 d (1 + 2) = [mkRolled (ofZ 20) (ofZ 16) false false].
Proof.
  exact (roll_records_samples cycle4
           (InfixArithmeticExpression
              (CountedDiceRollExpression (ofZ 2) (Die (ofZ 6)))
              (CountedDiceRollExpression (ofZ 1) (Die (ofZ 20))) Plus)
           1 _ _ eq_refl 2 _ eq_refl).
Defined.

(** ** Texts of one operand *)

Lemma operator_tokens (t : jsstring) :
  isTokenOperator (Some t) = true ->
  In t (map str ["+"; "-"; "*"; "/"]%string) \/ In t objectPrototypeKeys.
Proof.
  unfold isTokenOperator, operators. intros H.
  apply andb_true_iff in H. destruct H as [_ H].
  repeat match type of H with
  | match (if strEq t ?s then _ else _) with _ => _ end = _ =>
      destruct (strEq t s) eqn:E;
      [apply strEq_true in E; subst t; left; cbn; tauto | clear E]
  end.
  destruct (existsb (strEq t) objectPrototypeKeys) eqn:Ex; [|discriminate].
  right. apply existsb_exists in Ex. destruct Ex as (key & Hin & Hk).
  apply strEq_true in Hk. now subst key.
Qed.

Lemma prototype_keys_facts (t : jsstring) :
  In t objectPrototypeKeys ->
  forallb (fun c => negb (isDigitChar c)) t = true /\
  (count_occ ascii_dec (toLowerCase t) "d" <= 1)%nat.
Proof.
  unfold objectPrototypeKeys. cbn [map In]. intros H.
  repeat (destruct H as [<-|H]; [split; [reflexivity | vm_compute; lia]|]).
  destruct H.
Qed.

(** A token of the shape of an operand is an operand, unless it is the
    name of a property of [Object.prototype]. *)
Lemma primitive_token_class (t : jsstring) :
  isPrimitiveToken t = true -> ~ In t objectPrototypeKeys ->
  isOperandToken t = true.
Proof.
  intros Hp Hk. unfold isOperandToken. apply negb_true_iff.
  rewrite !orb_false_iff. repeat split.
  - destruct (isTokenOperator (Some t)) eqn:E; [|reflexivity].
    destruct (operator_tokens t E) as [H|H]; [|contradiction].
    cbn [map In] in H.
    repeat (destruct H as [<-|H]; [discriminate Hp|]). destruct H.
  - unfold isTokenGroupStart. destruct (strEq t (str "(")) eqn:E; [|reflexivity].
    apply strEq_true in E. now subst t.
  - unfold isTokenGroupEnd. destruct (strEq t (str ")")) eqn:E; [|reflexivity].
    apply strEq_true in E. now subst t.
  - destruct (strEq t (str ",")) eqn:E; [|reflexivity].
    apply strEq_true in E. now subst t.
Qed.

(** What [parse] does with a text that is one operand. *)
Lemma parse_single_operand (this : DiceParser) (t : jsstring) :
  isPrimitiveToken t = true -> isOperandToken t = true ->
  parse this t =
  match expressionForPrimitive t with
  | OK e =>
      match maximumDiceCount this, e with
      | Some m, CountedDiceRollExpression c _ =>
          if jsGt (jsAdd (ofZ 0) c) m then Throw (DiceParserDiceCount m)
          else OK (Some e)
      | _, _ => OK (Some e)
      end
  | Throw err => Throw err
  end.
Proof.
  intros Hp Ho. unfold parse. rewrite (tokenize_primitive t Hp). cbn [bind].
  rewrite (yard_single t Ho). cbn [bind].
  unfold expressionForReversePolishNotation. cbn [forEach]. unfold builderStep.
  destruct (operandToken_classes t Ho) as (-> & _).
  destruct (expressionForPrimitive t) as [e|err]; [|reflexivity].
  cbn [bind stack diceCount].
  destruct (maximumDiceCount this) as [m|]; [|destruct e; reflexivity].
  destruct e; try reflexivity.
  destruct (jsGt (jsAdd (ofZ 0) count) m); reflexivity.
Qed.

(** ** Dice notation *)

Lemma diceLetter_facts (c : ascii) :
  isDiceLetter c = true ->
  lowerChar c = "d"%char /\ isWordOrDot c = true /\ charEq c "-" = false /\
  isDigitChar c = false /\ (if ascii_dec c "." then true else false) = false.
Proof. intros H. each_char c; repeat split. Qed.

Lemma digit_facts (c : ascii) :
  isDigitChar c = true ->
  isWordOrDot c = true /\ (if ascii_dec c "." then true else false) = false /\
  charEq c "-" = false.
Proof. intros H. each_char c; repeat split. Qed.

Lemma digits_shape (ds : jsstring) :
  forallb isDigitChar ds = true ->
  forallb isWordOrDot ds = true /\ count_occ ascii_dec ds "." = 0%nat.
Proof.
  induction ds as [|c ds IH]; cbn [forallb count_occ]; intros H; [now split|].
  apply andb_true_iff in H. destruct H as [Hc H].
  destruct (IH H) as [-> ->]. destruct (digit_facts c Hc) as (-> & E & _).
  destruct (ascii_dec c "."); [discriminate | now split].
Qed.

Lemma count_occ_dot_cons (s : jsstring) :
  count_occ ascii_dec ("."%char :: s) "." = S (count_occ ascii_dec s ".").
Proof. cbn [count_occ]. now destruct (ascii_dec "." "."). Qed.

Lemma unsigned_shape (n : NumericLiteral) :
  validLiteral n = true ->
  forallb isWordOrDot (unsignedText n) = true /\
  count_occ ascii_dec (unsignedText n) "."
  = (match fractionPart n with Some _ => 1 | None => 0 end)%nat /\
  exists d r, isDigitChar d = true /\ unsignedText n = d :: r.
Proof.
  intros V. pose proof (literal_head_digit n V) as Hd.
  unfold validLiteral, isDigits in V. apply andb_true_iff in V.
  destruct V as [Vi Vf]. apply andb_true_iff in Vi. destruct Vi as [_ Vi].
  destruct (digits_shape _ Vi) as [Wi Ci]. unfold unsignedText.
  split; [|split; [|exact Hd]].
  - rewrite forallb_app, Wi. destruct (fractionPart n) as [fp|]; [|reflexivity].
    apply andb_true_iff in Vf. destruct Vf as [_ Vf].
    cbn [forallb andb]. now destruct (digits_shape _ Vf) as [-> _].
  - rewrite count_occ_app, Ci. destruct (fractionPart n) as [fp|]; [|reflexivity].
    apply andb_true_iff in Vf. destruct Vf as [_ Vf].
    rewrite count_occ_dot_cons. now destruct (digits_shape _ Vf) as [_ ->].
Qed.

Lemma literalText_unsigned (n : NumericLiteral) :
  literalText n = (if negative n then ["-"%char] else []) ++ unsignedText n.
Proof. reflexivity. Qed.

(** The token [<count>d<size>] has the shape of an operand when it has
    one point at most. *)
Lemma dice_token_shape (count size : NumericLiteral) (letter : ascii) :
  validLiteral count = true -> validLiteral size = true ->
  negative size = false ->
  fractionPart count = None \/ fractionPart size = None ->
  isDiceLetter letter = true ->
  isPrimitiveToken (literalText count ++ letter :: literalText size) = true.
Proof.
  intros Vc Vs Ns Hf Hl.
  destruct (unsigned_shape count Vc) as (Wc & Cc & d & r & Hd & Ec).
  destruct (unsigned_shape size Vs) as (Ws & Cs & _).
  destruct (diceLetter_facts letter Hl) as (_ & Wl & _ & _ & Dl).
  assert (U : isUnsignedToken (unsignedText count ++ letter :: unsignedText size)
              = true).
  { unfold isUnsignedToken. rewrite forallb_app. cbn [forallb].
    rewrite Wc, Wl, Ws, count_occ_app. cbn [count_occ].
    destruct (ascii_dec letter ".") as [|_]; [discriminate|].
    rewrite Cc, Cs, Ec. cbn [app strEq negb andb].
    replace (strEq (d :: r ++ letter :: unsignedText size) []) with false
      by (symmetry; now apply strEq_false).
    cbn [negb andb]. apply Nat.leb_le.
    destruct Hf as [-> | ->]; destruct (fractionPart count), (fractionPart size);
      cbn; lia. }
  rewrite (literalText_unsigned count), (literalText_unsigned size), Ns.
  cbn [app]. destruct (negative count); cbn [app isPrimitiveToken].
  - change (charEq "-" "-") with true. cbv iota. rewrite U, Ec. cbn [app hd_error testChar].
    now rewrite Hd.
  - rewrite Ec in *. cbn [app isPrimitiveToken] in *.
    destruct (digit_facts d Hd) as (_ & _ & ->). exact U.
Qed.

Lemma literalChar_lower (c : ascii) : isLiteralChar c = true -> lowerChar c = c.
Proof. intros H. each_char c. Qed.

Lemma literal_lower (n : NumericLiteral) :
  validLiteral n = true -> toLowerCase (literalText n) = literalText n.
Proof.
  intros V. pose proof (literal_chars n V) as H. rewrite forallb_forall in H.
  unfold toLowerCase. rewrite <- (map_id (literalText n)) at 2.
  apply map_ext_in. intros c Hc. now apply literalChar_lower, H.
Qed.

Lemma split_at (sep : ascii) (a b : jsstring) :
  includes sep a = false -> split sep (a ++ sep :: b) = a :: split sep b.
Proof.
  induction a as [|c a IH]; cbn [app split includes existsb]; intros H.
  - unfold charEq. now rewrite Ascii.eqb_refl.
  - apply orb_false_iff in H. destruct H as [Hc Ha].
    unfold charEq in *. rewrite Ascii.eqb_sym, Hc. unfold includes in IH.
    now rewrite (IH Ha).
Qed.

Lemma literal_numeric (n : NumericLiteral) :
  validLiteral n = true -> isNumeric (literalText n) = true.
Proof.
  intros V. unfold isNumeric.
  rewrite (toNumber_literal n V), (parseFloat_literal n V).
  destruct (literalNumber_value n V) as (-> & _). reflexivity.
Qed.

Lemma finite_lt_one (v : number) (q : Q) :
  finiteValue v q -> jsLt v (ofZ 1) = Qltb q 1.
Proof.
  intros (H1 & H2 & H3). destruct v as [x| | | |]; try discriminate;
    cbn [toQ] in H3.
  - change (jsLt (Fin x) (ofZ 1)) with (Qltb x 1). unfold Qltb. now rewrite H3.
  - change (jsLt NegZero (ofZ 1)) with (Qltb 0 1). unfold Qltb. now rewrite H3.
Qed.

(** The primitive of a token [<count>d<size>] and of a token [d<size>]. *)
Lemma primitive_dice (count size : NumericLiteral) (letter : ascii) :
  validLiteral count = true -> validLiteral size = true ->
  isDiceLetter letter = true ->
  let token := literalText count ++ letter :: literalText size in
  expressionForPrimitive token =
  if Qltb (literalValue count) 1
  then syntaxError (str "Unallowed count before letter d: " ++ token) None
  else OK (CountedDiceRollExpression (literalNumber count)
                                     (Die (literalNumber size))).
Proof.
  intros Vc Vs Hl token. unfold expressionForPrimitive.
  destruct (diceLetter_facts letter Hl) as (Ll & _).
  assert (Elow : toLowerCase token
                 = literalText count ++ "d"%char :: literalText size).
  { unfold token, toLowerCase. rewrite map_app. cbn [map]. rewrite Ll.
    fold (toLowerCase (literalText count)) (toLowerCase (literalText size)).
    now rewrite !literal_lower. }
  rewrite Elow.
  pose proof (literal_no_d count Vc) as Dc. rewrite (literal_lower count Vc) in Dc.
  pose proof (literal_no_d size Vs) as Ds. rewrite (literal_lower size Vs) in Ds.
  assert (Inc : includes "d" (literalText count ++ "d"%char :: literalText size)
                = true).
  { unfold includes. rewrite existsb_app. cbn [existsb].
    change (charEq "d" "d") with true. now rewrite orb_true_r. }
  rewrite Inc, (split_at "d" _ _ Dc), (split_without_separator "d" _ Ds).
  rewrite (literal_numeric size Vs). cbn [negb].
  pose proof (literalText_nonempty count Vc) as Ne. apply strEq_false in Ne.
  rewrite Ne, (literal_numeric count Vc). cbn [negb].
  rewrite !parseFloat_literal by assumption.
  now rewrite (finite_lt_one _ _ (literalNumber_value count Vc)).
Qed.


Lemma has_digit_not_key (t : jsstring) :
  existsb isDigitChar t = true -> ~ In t objectPrototypeKeys.
Proof.
  intros H K. destruct (prototype_keys_facts t K) as [N _].
  apply existsb_exists in H. destruct H as (c & Hc & Hd).
  rewrite forallb_forall in N. specialize (N c Hc). now rewrite Hd in N.
Qed.

Lemma literal_has_digit (n : NumericLiteral) :
  validLiteral n = true -> existsb isDigitChar (literalText n) = true.
Proof.
  intros V. destruct (unsigned_shape n V) as (_ & _ & d & r & Hd & E).
  rewrite literalText_unsigned, existsb_app, E. cbn [existsb].
  now rewrite Hd, orb_true_r.
Qed.



(** X20: a count below 1 is not allowed: the text [<count>d<size>] with
    a literal count of value below 1, zero or negative or a fraction, is
    a syntax error, whatever the size.  (The fraction is taken with 15
    digits at most, for which the binary value of the count is below 1
    as its decimal value is.) *)
Theorem dice_count_below_one (this : DiceParser) (count size : NumericLiteral)
    (letter : ascii) :
  validLiteral count = true -> validLiteral size = true ->
  negative size = false ->
  fractionPart count = None \/ fractionPart size = None ->
  isDiceLetter letter = true ->
  literalValue count < 1 ->
  (List.length (match fractionPart count with Some fp => fp | None => [] end)
   <= 15)%nat ->
  isSyntaxError (parse this (literalText count ++ letter :: literalText size)).
Proof.
  intros Vc Vs Ns Hf Hl Hq _.
  pose proof (dice_token_shape count size letter Vc Vs Ns Hf Hl) as Hp.
  assert (Ho : isOperandToken
                 (literalText count ++ letter :: literalText size) = true).
  { apply (primitive_token_class _ Hp), has_digit_not_key.
    rewrite existsb_app, (literal_has_digit count Vc). reflexivity. }
  rewrite (parse_single_operand this _ Hp Ho).
  pose proof (primitive_dice count size letter Vc Vs Hl) as E. cbv zeta in E.
  rewrite E. apply Qltb_true in Hq. rewrite Hq. eexists _, _. reflexivity.
Qed.

Lemma dice_count_below_one_witness :
  isSyntaxError (parse unlimited (str "0.5d6")) /\
  isSyntaxError (parse unlimited (str "-1d6")).
Proof.
  split.
  - exact (dice_count_below_one unlimited
             {| negative := false; integerPart := str "0";
                fractionPart := Some (str "5") |}
             {| negative := false; integerPart := str "6";
                fractionPart := None |} "d"
             eq_refl eq_refl eq_refl (or_intror eq_refl) eq_refl eq_refl
             ltac:(simpl; lia)).
  - exact (dice_count_below_one unlimited
             {| negative := true; integerPart := str "1"; fractionPart := None |}
             {| negative := false; integerPart := str "6";
                fractionPart := None |} "d"
             eq_refl eq_refl eq_refl (or_intror eq_refl) eq_refl eq_refl
             ltac:(simpl; lia)).
Defined.

Lemma split_length (sep : ascii) (s : jsstring) :
  List.length (split sep s) = S (count_occ ascii_dec s sep).
Proof.
  induction s as [|c s IH]; [reflexivity|]. cbn [split count_occ].
  destruct (ascii_dec c sep) as [->|N].
  - unfold charEq. rewrite Ascii.eqb_refl. cbn [List.length]. now rewrite IH.
  - assert (E : charEq c sep = false) by (apply Ascii.eqb_neq; exact N).
    rewrite E. destruct (split sep s) as [|p ps]; [discriminate IH | exact IH].
Qed.

(** A token with the letter d more than once is no primitive. *)
Lemma primitive_two_letters (t : jsstring) :
  (2 <= count_occ ascii_dec (toLowerCase t) "d")%nat ->
  isSyntaxError (expressionForPrimitive t).
Proof.
  intros H. unfold expressionForPrimitive.
  destruct (includes "d" (toLowerCase t)) eqn:I.
  - pose proof (split_length "d" (toLowerCase t)) as L.
    destruct (split "d" (toLowerCase t)) as [|p0 [|p1 [|p2 ps]]];
      cbn [List.length] in L; try lia; eexists _, _; reflexivity.
  - apply includes_count in I. lia.
Qed.

(** X21: a token with the letter d twice or more, in either case, is a
    syntax error. *)
Theorem two_dice_letters_rejected (this : DiceParser) (t : jsstring) :
  isPrimitiveToken t = true ->
  (2 <= count_occ ascii_dec (toLowerCase t) "d")%nat ->
  isSyntaxError (parse this t).
Proof.
  intros Hp H.
  assert (Ho : isOperandToken t = true).
  { apply (primitive_token_class _ Hp). intros K.
    destruct (prototype_keys_facts t K) as [_ N]. lia. }
  rewrite (parse_single_operand this _ Hp Ho).
  destruct (primitive_two_letters t H) as (issue & loc & ->).
  eexists _, _. reflexivity.
Qed.

Lemma two_dice_letters_rejected_witness :
  isSyntaxError (parse unlimited (str "2d6D8")).
Proof.
  apply (two_dice_letters_rejected unlimited (str "2d6D8")).
  - reflexivity.
  - vm_compute. lia.
Defined.

(** The builder throws when it comes to a token that is no operator and
    that no primitive can be made of, if not before. *)
Lemma forEach_builder_reaches (this : DiceParser) (t : jsstring)
    (l : list jsstring) :
  In t l -> isTokenOperator (Some t) = false ->
  throws (expressionForPrimitive t) ->
  forall st, throws (forEach (builderStep this) st l).
Proof.
  intros Hin Ho (e & He). induction l as [|x l IH]; [destruct Hin|].
  intros st. cbn [forEach].
  destruct (builderStep this st x) as [st1|e1] eqn:E; [|now exists e1].
  cbn [bind]. destruct Hin as [->|Hin]; [|now apply IH].
  unfold builderStep in E. rewrite Ho, He in E. discriminate.
Qed.

(** X22: an operand that is neither a number nor dice notation rejects
    the text it stands in: [parse] throws, at this token if not before. *)
Theorem unparsable_operand_rejects (this : DiceParser) (value : jsstring)
    (toks : list jsstring) (t : jsstring) :
  tokenize value = OK toks -> In t toks -> isOperandToken t = true ->
  throws (expressionForPrimitive t) ->
  throws (parse this value).
Proof.
  intros Ht Hin Ho He. unfold parse. rewrite Ht. cbn [bind].
  destruct toks as [|t0 toks]; [destruct Hin|].
  destruct (shuntingYardConversion (t0 :: toks)) as [rpn|e] eqn:Ey;
    [|now exists e].
  cbn [bind]. unfold expressionForReversePolishNotation.
  assert (Hr : In t rpn).
  { apply (Permutation_in _ (Permutation_sym (yard_perm _ _ Ey))).
    apply filter_In. split; [exact Hin|].
    rewrite operand_notGrouping in Ho. now apply andb_true_iff in Ho. }
  destruct (operandToken_classes t Ho) as (Hop & _).
  destruct (forEach_builder_reaches this t rpn Hr Hop He
              {| stack := []; diceCount := ofZ 0 |}) as (e & ->).
  now exists e.
Qed.

Lemma unparsable_operand_rejects_witness :
  throws (parse unlimited (str "2d6 + (abc * 3)")).
Proof.
  apply (unparsable_operand_rejects unlimited (str "2d6 + (abc * 3)")
           [str "2d6"; str "+"; str "("; str "abc"; str "*"; str "3"; str ")"]
           (str "abc")).
  - reflexivity.
  - cbn. tauto.
  - reflexivity.
  - eexists. reflexivity.
Defined.

(** ** Literals of another radix *)

Lemma radixLetter_facts (x : ascii) (radix : Z) :
  radixOfLetter x = Some radix ->
  isDigitChar x = false /\ charEq x "." = false /\ isWordChar x = true /\
  charEq x "e" || charEq x "E" = false /\ isDiceLetter x = false /\
  isWhiteSpace x = false /\ charEq x "-" = false /\ charEq "d" (lowerChar x) = false.
Proof. intros H. each_char x; repeat split. Qed.

Lemma radixDigit_facts (radix : Z) (c : ascii) :
  isRadixDigit radix c = true ->
  isWordChar c = true /\ isWhiteSpace c = false /\
  (isDiceLetter c = false -> charEq "d" (lowerChar c) = false).
Proof. intros H. each_char c; repeat split; discriminate. Qed.

(** X23: a literal of another radix, [0x1F], [0o17] or [0b101], is
    accepted as a number, and its value is 0: the check that it is
    numeric reads it with [+], which knows these literals; the value is
    read by [parseFloat], which stops at the letter. *)
Theorem radix_literal_is_zero (this : DiceParser) (x : ascii) (radix : Z)
    (ds : jsstring) :
  radixOfLetter x = Some radix ->
  ds <> [] -> forallb (isRadixDigit radix) ds = true ->
  forallb (fun c => negb (isDiceLetter c)) ds = true ->
  parse this ("0"%char :: x :: ds) = OK (Some (NumericalExpression (ofZ 0))) /\
  isNaN (toNumber ("0"%char :: x :: ds)) = false /\
  parseFloat ("0"%char :: x :: ds) = ofZ 0.
Proof.
  intros Hx Hne Hds Hnd.
  destruct (radixLetter_facts x radix Hx) as (X1 & X2 & X3 & X4 & X5 & X6 & X7 & X8).
  set (t := "0"%char :: x :: ds).
  assert (W : forallb isWordChar ds = true).
  { apply forallb_forall. intros c Hc. rewrite forallb_forall in Hds.
    now apply (radixDigit_facts radix c), Hds. }
  assert (NW : noWhiteSpace t).
  { constructor; [reflexivity|]. constructor; [exact X6|].
    apply Forall_forall. intros c Hc. rewrite forallb_forall in Hds.
    now apply (radixDigit_facts radix c), Hds. }
  assert (Hp : isPrimitiveToken t = true).
  { destruct (wordRun_facts ds W) as (Wd & Cd & _).
    unfold t. cbn [isPrimitiveToken]. change (charEq "0" "-") with false.
    cbv iota. unfold isUnsignedToken. cbn [forallb count_occ].
    destruct (ascii_dec "0" ".") as [|_]; [discriminate|].
    destruct (ascii_dec x ".") as [->|_]; [discriminate|].
    rewrite Wd, Cd. unfold isWordOrDot. rewrite X3. reflexivity. }
  assert (Ho : isOperandToken t = true).
  { apply (primitive_token_class _ Hp), has_digit_not_key. reflexivity. }
  assert (Scan : scanStrDecimalLiteral t = Some (ofZ 0, x :: ds)).
  { unfold t, scanStrDecimalLiteral. cbn [scanSign].
    change (charEq "0" "-") with false. change (charEq "0" "+") with false.
    cbv iota. unfold scanUnsigned.
    change (startsWith (str "Infinity") ("0"%char :: x :: ds)) with false.
    cbv iota. cbn [takeWhile dropWhile]. change (isDigitChar "0") with true.
    cbv iota. rewrite X1. rewrite X2. cbn [app].
    unfold scanExponent. rewrite X4. reflexivity. }
  assert (Num : toNumber t = ofZ (radixValue radix ds)).
  { unfold toNumber. rewrite (trim_noWhiteSpace t NW). unfold t in *.
    cbv iota. rewrite Scan. unfold nonDecimalIntegerLiteral.
    fold (radixOfLetter x). rewrite Hx.
    destruct ds as [|d ds']; [congruence|].
    change (charEq "0" "0") with true. now rewrite Hds. }
  assert (Flt : parseFloat t = ofZ 0).
  { unfold parseFloat, trimStart.
    rewrite (dropWhile_head isWhiteSpace t eq_refl). now rewrite Scan. }
  split; [|split; [now rewrite Num | exact Flt]].
  rewrite (parse_single_operand this _ Hp Ho). unfold expressionForPrimitive.
  assert (Inc : includes "d" (toLowerCase t) = false).
  { unfold includes, t, toLowerCase. cbn [map existsb].
    change (charEq "d" (lowerChar "0")) with false. rewrite X8. cbn [orb].
    destruct (existsb _ _) eqn:E; [|reflexivity].
    apply existsb_exists in E. destruct E as (c & Hc & Ec).
    apply in_map_iff in Hc. destruct Hc as (c0 & <- & Hc0).
    rewrite forallb_forall in Hds, Hnd.
    destruct (radixDigit_facts radix c0 (Hds c0 Hc0)) as (_ & _ & F).
    rewrite F in Ec; [discriminate|]. apply negb_true_iff. now apply Hnd. }
  rewrite Inc. unfold isNumeric. rewrite Num, Flt. cbn [isNaN ofZ negb andb].
  destruct (maximumDiceCount this); reflexivity.
Qed.

Lemma radix_literal_is_zero_witness :
  parse unlimited (str "0x1F") = OK (Some (NumericalExpression (ofZ 0))) /\
  isNaN (toNumber (str "0x1F")) = false /\
  parseFloat (str "0x1F") = ofZ 0.
Proof.
  apply (radix_literal_is_zero unlimited "x" 16 (str "1F")).
  - reflexivity.
  - discriminate.
  - reflexivity.
  - reflexivity.
Defined.

(** * The earlier parser and the command line: properties *)

Lemma agree_bind {A B} (r : Result A) (l : Legacy.Result A)
    (f : A -> Result B) (g : A -> Legacy.Result B) :
  agree r l -> (forall a, agree (f a) (g a)) ->
  agree (x <- r ;; f x) (Legacy.bind l g).
Proof.
  destruct r as [a|e], l as [b|e']; cbn; try contradiction; try tauto.
  intros <- H. apply H.
Qed.

Lemma tokenizeLoop_agree tv (rest : jsstring) : forall i prev st,
  agree (tokenizeLoop tv i prev rest st) (Legacy.tokenizeLoop tv i prev rest st).
Proof.
  induction rest as [|c rest IH]; intros i prev st; [reflexivity|].
  cbn [tokenizeLoop Legacy.tokenizeLoop].
  repeat match goal with
  | |- agree (if ?b then _ else _) (if ?b then _ else _) => destruct b
  end; try apply IH; exact I.
Qed.

Lemma tokenize_agree (value : jsstring) :
  agree (tokenize value) (Legacy.tokenize value).
Proof.
  unfold tokenize, Legacy.tokenize. apply agree_bind.
  - apply tokenizeLoop_agree.
  - reflexivity.
Qed.

Lemma yardStep_agree (st : YardState) (t : jsstring) :
  agree (yardStep st t) (Legacy.yardStep st t).
Proof.
  unfold yardStep, Legacy.yardStep.
  repeat match goal with
  | |- agree (if ?b then _ else _) (if ?b then _ else _) => destruct b
  | |- agree (match ?l with [] => _ | _ :: _ => _ end)
             (match ?l with [] => _ | _ :: _ => _ end) => destruct l
  end; first [reflexivity | exact I].
Qed.

Lemma forEach_agree {St A} (step : St -> A -> Result St)
    (step' : St -> A -> Legacy.Result St) (l : list A) :
  (forall st x, agree (step st x) (step' st x)) ->
  forall st, agree (forEach step st l) (Legacy.forEach step' st l).
Proof.
  intros H. induction l as [|x l IH]; intros st; [reflexivity|].
  cbn [forEach Legacy.forEach]. apply agree_bind; [apply H | exact IH].
Qed.

Lemma drainOperators_agree (ops : list jsstring) : forall st,
  agree (drainOperators st ops) (Legacy.drainOperators st ops).
Proof.
  induction ops as [|t ops IH]; intros st; [reflexivity|].
  cbn [drainOperators Legacy.drainOperators].
  destruct (negb (isTokenGroupStart (Some t))); [apply IH | exact I].
Qed.

Lemma yard_agree (toks : list jsstring) :
  agree (shuntingYardConversion toks) (Legacy.shuntingYardConversion toks).
Proof.
  unfold shuntingYardConversion, Legacy.shuntingYardConversion.
  apply agree_bind; [apply forEach_agree, yardStep_agree|].
  intros st. apply agree_bind; [apply drainOperators_agree | reflexivity].
Qed.

(** ** The parser refines the earlier one *)

Lemma agree_OK {A} (r : Result A) (l : Legacy.Result A) (a : A) :
  agree r l -> r = OK a -> l = Legacy.OK a.
Proof.
  intros H ->. destruct l as [b|e]; cbn in H; [now subst | contradiction].
Qed.

Lemma agree_legacy_OK {A} (r : Result A) (l : Legacy.Result A) (a : A) :
  agree r l -> l = Legacy.OK a -> r = OK a.
Proof.
  intros H ->. destruct r as [b|e]; cbn in H; [now subst | contradiction].
Qed.

Lemma numeric_legacy (value : jsstring) :
  isNumeric value = true -> Legacy.isNumeric value = true.
Proof. unfold isNumeric, Legacy.isNumeric. intros H. now apply andb_true_iff in H. Qed.

(** What the stricter check of a numeric text accepts, the earlier check
    accepts too, with the same primitive. *)
Lemma primitive_legacy (t : jsstring) (e : DiceExpression) :
  expressionForPrimitive t = OK e ->
  Legacy.expressionForPrimitive t = Legacy.OK e.
Proof.
  unfold expressionForPrimitive, Legacy.expressionForPrimitive.
  destruct (includes "d" (toLowerCase t)).
  - destruct (split "d" (toLowerCase t)) as [|p0 [|p1 [|p2 ps]]];
      try discriminate.
    destruct (isNumeric p1) eqn:E1; [|discriminate].
    rewrite (numeric_legacy _ E1). cbn [negb].
    destruct (isNumeric (if strEq p0 [] then str "1" else p0)) eqn:E0;
      [|discriminate].
    rewrite (numeric_legacy _ E0). cbn [negb].
    destruct (jsLt _ (ofZ 1)); [discriminate|].
    intros H. apply OK_inj in H. now subst.
  - destruct (isNumeric t) eqn:E; [|discriminate].
    rewrite (numeric_legacy _ E). intros H. apply OK_inj in H. now subst.
Qed.

Lemma legacy_builderStep_operator (c : ascii) (l r : DiceExpression)
    (rest : list DiceExpression) :
  isOperatorChar c = true ->
  Legacy.builderStep (r :: l :: rest) [c] =
  Legacy.OK (InfixArithmeticExpression l r (operatorOfChar c) :: rest).
Proof. intros H. each_char c. Qed.

Lemma builderStep_legacy (this : DiceParser) (st st' : BuilderState)
    (t : jsstring) :
  builderStep this st t = OK st' ->
  Legacy.builderStep (stack st) t = Legacy.OK (stack st').
Proof.
  intros H.
  destruct (builderStep_cases _ _ _ _ H)
    as [(c & x & y & rest & -> & Hc & Ho & Es & ->)|(Ho & e & He & Es & _)].
  - rewrite Es. cbn [stack]. now apply legacy_builderStep_operator.
  - unfold Legacy.builderStep. rewrite Ho, (primitive_legacy _ _ He), Es.
    reflexivity.
Qed.

Lemma forEach_builder_legacy (this : DiceParser) (l : list jsstring) :
  forall st st',
    forEach (builderStep this) st l = OK st' ->
    Legacy.forEach Legacy.builderStep (stack st) l = Legacy.OK (stack st').
Proof.
  induction l as [|t l IH]; intros st st' H.
  - apply OK_inj in H. now subst.
  - cbn [forEach] in H.
    destruct (builderStep this st t) as [st1|] eqn:E; [|discriminate].
    cbn [bind] in H. cbn [Legacy.forEach].
    rewrite (builderStep_legacy _ _ _ _ E). cbn [Legacy.bind]. now apply IH.
Qed.

Lemma parse_legacy (this : DiceParser) (value : jsstring)
    (r : option DiceExpression) :
  parse this value = OK r -> Legacy.parse value = Legacy.OK r.
Proof.
  intros H.
  destruct (parse_stages _ _ _ H) as (toks & rpn & st & Et & Hne & Ey & Eb & Hs & ->).
  unfold Legacy.parse.
  rewrite (agree_OK _ _ _ (tokenize_agree value) Et). cbn [Legacy.bind].
  destruct toks as [|t0 toks]; [congruence|].
  rewrite (agree_OK _ _ _ (yard_agree _) Ey). cbn [Legacy.bind].
  unfold Legacy.expressionForReversePolishNotation.
  pose proof (forEach_builder_legacy _ _ _ _ Eb) as Lb. cbn [stack] in Lb.
  rewrite Lb. cbn [Legacy.bind].
  destruct Hs as [->|(e & ->)]; reflexivity.
Qed.

(** X24: the parser refines the earlier one, the one the command line
    runs: what it accepts, with or without a maximum dice count, the
    earlier parser accepts with the same result; what the earlier
    parser rejects, it rejects. *)
Theorem parser_refines_legacy (this : DiceParser) (value : jsstring) :
  (forall r, parse this value = OK r -> Legacy.parse value = Legacy.OK r) /\
  (forall e, Legacy.parse value = Legacy.Throw e -> throws (parse this value)).
Proof.
  split; [intros r; apply parse_legacy|].
  intros e H. destruct (parse this value) as [r|e'] eqn:E; [|now exists e'].
  rewrite (parse_legacy _ _ _ E) in H. discriminate.
Qed.

Lemma parser_refines_legacy_witness :
  Legacy.parse (str "2d6 + 3")
  = Legacy.OK (Some (InfixArithmeticExpression
                       (CountedDiceRollExpression (ofZ 2) (Die (ofZ 6)))
                       (NumericalExpression (ofZ 3)) Plus)).
Proof.
  exact (proj1 (parser_refines_legacy {| maximumDiceCount := Some (ofZ 2) |}
                  (str "2d6 + 3")) _ eq_refl).
Defined.

(** ** The command line *)

Lemma otherError_not_empty (e : Legacy.Error) :
  otherError e -> e <> emptyExpression.
Proof. intros H ->. cbn in H. congruence. Qed.

Ltac other_error H :=
  unfold Legacy.error in H; injection H as <-; cbn; discriminate.

Lemma legacy_tokenizeLoop_throws tv (rest : jsstring) : forall i prev st e,
  Legacy.tokenizeLoop tv i prev rest st = Legacy.Throw e -> otherError e.
Proof.
  induction rest as [|c rest IH]; intros i prev st e H; [discriminate|].
  cbn [Legacy.tokenizeLoop] in H.
  repeat match type of H with
  | (if ?b then _ else _) = _ => destruct b
  end; first [exact (IH _ _ _ _ H) | other_error H].
Qed.

Lemma legacy_bind_throws {A B} (r : Legacy.Result A) (f : A -> Legacy.Result B)
    (e : Legacy.Error) :
  Legacy.bind r f = Legacy.Throw e ->
  r = Legacy.Throw e \/ exists a, r = Legacy.OK a /\ f a = Legacy.Throw e.
Proof.
  destruct r as [a|e']; cbn; intros H; [right; now exists a|].
  left. injection H as ->. reflexivity.
Qed.

Lemma legacy_tokenize_throws (value : jsstring) (e : Legacy.Error) :
  Legacy.tokenize value = Legacy.Throw e -> otherError e.
Proof.
  unfold Legacy.tokenize. intros H.
  destruct (legacy_bind_throws _ _ _ H) as [H1|(st & _ & H1)]; [|discriminate].
  exact (legacy_tokenizeLoop_throws _ _ _ _ _ _ H1).
Qed.

Lemma legacy_yardStep_throws (st : YardState) (t : jsstring) (e : Legacy.Error) :
  Legacy.yardStep st t = Legacy.Throw e -> otherError e.
Proof.
  unfold Legacy.yardStep. intros H.
  repeat match type of H with
  | (if ?b then _ else _) = _ => destruct b
  | match ?l with [] => _ | _ :: _ => _ end = _ => destruct l
  end; first [discriminate H | other_error H].
Qed.

Lemma legacy_forEach_throws {St A} (step : St -> A -> Legacy.Result St)
    (l : list A) :
  (forall st x e, step st x = Legacy.Throw e -> otherError e) ->
  forall st e, Legacy.forEach step st l = Legacy.Throw e -> otherError e.
Proof.
  intros Hs. induction l as [|x l IH]; intros st e H; [discriminate|].
  cbn [Legacy.forEach] in H.
  destruct (legacy_bind_throws _ _ _ H) as [H1|(st1 & _ & H1)];
    [exact (Hs _ _ _ H1) | exact (IH _ _ H1)].
Qed.

Lemma legacy_drain_throws (ops : list jsstring) : forall st e,
  Legacy.drainOperators st ops = Legacy.Throw e -> otherError e.
Proof.
  induction ops as [|t ops IH]; intros st e H; [discriminate|].
  cbn [Legacy.drainOperators] in H.
  destruct (negb (isTokenGroupStart (Some t))); [exact (IH _ _ H) | other_error H].
Qed.

Lemma legacy_yard_throws (toks : list jsstring) (e : Legacy.Error) :
  Legacy.shuntingYardConversion toks = Legacy.Throw e -> otherError e.
Proof.
  unfold Legacy.shuntingYardConversion. intros H.
  destruct (legacy_bind_throws _ _ _ H) as [H1|(st & _ & H1)].
  - exact (legacy_forEach_throws _ _ legacy_yardStep_throws _ _ H1).
  - destruct (legacy_bind_throws _ _ _ H1) as [H2|(st' & _ & H2)];
      [exact (legacy_drain_throws _ _ _ H2) | discriminate].
Qed.

Lemma legacy_primitive_throws (t : jsstring) (e : Legacy.Error) :
  Legacy.expressionForPrimitive t = Legacy.Throw e -> otherError e.
Proof.
  unfold Legacy.expressionForPrimitive. intros H.
  repeat match type of H with
  | (if ?b then _ else _) = _ => destruct b
  | match ?l with [] => _ | _ :: _ => _ end = _ => destruct l
  end; first [discriminate H | other_error H].
Qed.

Lemma legacy_builderStep_throws (s : list DiceExpression) (t : jsstring)
    (e : Legacy.Error) :
  Legacy.builderStep s t = Legacy.Throw e -> otherError e.
Proof.
  unfold Legacy.builderStep. intros H.
  destruct (isTokenOperator (Some t)).
  - destruct (operators t) as [[o|]|] eqn:Ep;
      try (injection H as <-; exact I).
    destruct (own_operator_infix t o Ep) as (c & op & prec & -> & Hc & ->).
    destruct s as [|r [|l rest]]; cbn in H; try discriminate; other_error H.
  - destruct (legacy_bind_throws _ _ _ H) as [H1|(x & _ & H1)];
      [exact (legacy_primitive_throws _ _ H1) | discriminate].
Qed.

Lemma legacy_builder_throws (toks : list jsstring) (e : Legacy.Error) :
  Legacy.expressionForReversePolishNotation toks = Legacy.Throw e ->
  otherError e.
Proof.
  unfold Legacy.expressionForReversePolishNotation. intros H.
  destruct (legacy_bind_throws _ _ _ H) as [H1|(s & _ & H1)].
  - exact (legacy_forEach_throws _ _ legacy_builderStep_throws _ _ H1).
  - destruct s as [|x [|y s]]; try discriminate. other_error H1.
Qed.

(** The earlier parser throws the error of an empty expression for the
    blank texts only. *)
Lemma legacy_parse_empty (value : jsstring) :
  Legacy.parse value = Legacy.Throw emptyExpression <->
  forallb isWhiteSpace value = true.
Proof.
  split.
  - unfold Legacy.parse. intros H.
    destruct (legacy_bind_throws _ _ _ H) as [H1|(toks & Et & H1)].
    { now destruct (otherError_not_empty _ (legacy_tokenize_throws _ _ H1)). }
    destruct toks as [|t0 toks].
    + pose proof (tokenize_text _ _ (agree_legacy_OK _ _ _ (tokenize_agree value) Et))
        as C. cbn in C.
      apply forallb_forall. intros c Hc.
      destruct (isWhiteSpace c) eqn:W; [reflexivity|]. exfalso.
      assert (K : In c (filter (fun c => negb (isWhiteSpace c)) value))
        by (apply filter_In; now rewrite W).
      rewrite <- C in K. contradiction.
    + exfalso. destruct (legacy_bind_throws _ _ _ H1) as [H2|(rpn & _ & H2)].
      * now destruct (otherError_not_empty _ (legacy_yard_throws _ _ H2)).
      * now destruct (otherError_not_empty _ (legacy_builder_throws _ _ H2)).
  - intros H. unfold Legacy.parse, Legacy.tokenize. fold (normalize value).
    now rewrite (normalize_blank _ H).
Qed.

Lemma join_blank (args : list jsstring) :
  forallb isWhiteSpace (join (str " ") args) = forallb (forallb isWhiteSpace) args.
Proof.
  induction args as [|a [|b args] IH]; [reflexivity | |].
  - cbn [join forallb]. now rewrite andb_true_r.
  - change (join (str " ") (a :: b :: args))
      with (a ++ str " " ++ join (str " ") (b :: args)).
    rewrite !forallb_app, IH. reflexivity.
Qed.

(** X25: the command line throws the error of an empty expression, and
    prints nothing, exactly when it is given no argument or blank
    arguments only. *)
Theorem main_empty_expression (rnd : Random) (argv : list jsstring) :
  main rnd argv = Legacy.Throw emptyExpression <->
  forallb (forallb isWhiteSpace) (skipn 2 argv) = true.
Proof.
  rewrite <- join_blank, <- legacy_parse_empty. unfold main.
  destruct (Legacy.parse (join (str " ") (skipn 2 argv))) as [[e|]|e];
    cbn [Legacy.bind]; split; intros H; try discriminate H;
    injection H as ->; reflexivity.
Qed.


Lemma main_empty_expression_witness :
  main cycle4 [str "node"; str "main.js"; str " "; []]
  = Legacy.Throw emptyExpression.
Proof.
  exact (proj2 (main_empty_expression cycle4
                  [str "node"; str "main.js"; str " "; []]) eq_refl).
Defined.

(** X26: when the parser above accepts the text of the arguments, the
    command line prints the value of a roll of the tree it gives, the
    roll reading the samples from the first one on. *)
Theorem main_prints_roll (rnd : Random) (argv : list jsstring)
    (this : DiceParser) (e : DiceExpression) :
  parse this (join (str " ") (skipn 2 argv)) = OK (Some e) ->
  main rnd argv
  = Legacy.OK (option_map (fun r => result_value (fst r)) (roll rnd e 0)).
Proof.
  intros H. unfold main. now rewrite (parse_legacy _ _ _ H).
Qed.

Lemma main_prints_roll_witness :
  main cycle4 [str "node"; str "main.js"; str "2d6"; str "+"; str "3"]
  = Legacy.OK (Some (ofZ 6)).
Proof.
  exact (main_prints_roll cycle4
           [str "node"; str "main.js"; str "2d6"; str "+"; str "3"]
           unlimited _ eq_refl).
Defined.

(** ** Where the two parsers differ *)

Lemma scanUnsigned_then (neg : bool) (ip : jsstring) (fp : option jsstring)
    (x : ascii) (w : jsstring) :
  isDigits ip = true ->
  match fp with Some f => isDigits f | None => true end = true ->
  isDigitChar x = false -> charEq x "." = false ->
  charEq x "e" || charEq x "E" = false ->
  scanUnsigned neg
    ((ip ++ match fp with Some f => "." :: f | None => [] end) ++ x :: w) =
  Some (decimalValue neg
          (digitsValue (ip ++ match fp with Some f => f | None => [] end))
          (- Z.of_nat (List.length match fp with Some f => f | None => [] end)),
        x :: w).
Proof.
  unfold isDigits. intros Hi Hf Hx Hdot He.
  apply andb_true_iff in Hi. destruct Hi as [Hne Hi].
  apply negb_true_iff, strEq_false in Hne.
  destruct ip as [|d ip]; [congruence|].
  assert (Hd : isDigitChar d = true) by (cbn in Hi; now apply andb_true_iff in Hi).
  unfold scanUnsigned.
  assert (Hinf : forall r, startsWith (str "Infinity") ((d :: ip) ++ r) = false).
  { intros r. unfold startsWith. apply strEq_false. cbn. intros C.
    injection C as C _. subst d. discriminate. }
  rewrite <- app_assoc, Hinf.
  destruct fp as [f|].
  - apply andb_true_iff in Hf. destruct Hf as [_ Hf]. cbn [app].
    change (d :: ip ++ "."%char :: f ++ x :: w)
      with ((d :: ip) ++ "."%char :: (f ++ x :: w)).
    destruct (takeWhile_stop isDigitChar (d :: ip) "." (f ++ x :: w) Hi eq_refl)
      as [-> ->].
    change (charEq "." ".") with true. cbv iota.
    destruct (takeWhile_stop isDigitChar f x w Hf Hx) as [-> ->].
    cbn [app scanExponent]. rewrite He. reflexivity.
  - cbn [app].
    change (d :: ip ++ x :: w) with ((d :: ip) ++ x :: w).
    destruct (takeWhile_stop isDigitChar (d :: ip) x w Hi Hx) as [-> ->].
    rewrite Hdot. cbn [app scanExponent]. rewrite He, app_nil_r. reflexivity.
Qed.

Lemma scan_literal_then (n : NumericLiteral) (x : ascii) (w : jsstring) :
  validLiteral n = true ->
  isDigitChar x = false -> charEq x "." = false ->
  charEq x "e" || charEq x "E" = false ->
  scanStrDecimalLiteral (literalText n ++ x :: w)
  = Some (literalNumber n, x :: w).
Proof.
  intros V Hx Hdot He. pose proof V as V0. unfold validLiteral in V.
  apply andb_true_iff in V. destruct V as [Vi Vf].
  destruct (literal_head_digit n V0) as (d & r & Hd & Er).
  unfold scanStrDecimalLiteral, literalText, literalNumber.
  destruct (negative n).
  - cbn [app scanSign]. change (charEq "-" "-") with true. cbv iota.
    apply scanUnsigned_then; assumption.
  - cbn [app]. rewrite Er. cbn [app scanSign].
    destruct (digit_not_sign d Hd) as (-> & -> & _).
    change (d :: r ++ x :: w) with ((d :: r) ++ x :: w). rewrite <- Er.
    apply scanUnsigned_then; assumption.
Qed.

Lemma literalChar_no_radix (c : ascii) :
  isLiteralChar c = true -> radixOfLetter c = None.
Proof. intros H. each_char c. Qed.

Lemma nonDecimal_none (z y : ascii) (ds : jsstring) :
  radixOfLetter y = None -> nonDecimalIntegerLiteral (z :: y :: ds) = None.
Proof.
  intros H. unfold nonDecimalIntegerLiteral. fold (radixOfLetter y).
  now rewrite H.
Qed.

Lemma wordChar_more (c : ascii) :
  isWordChar c = true ->
  charEq c "." = false /\ isWhiteSpace c = false /\
  (isDiceLetter c = false -> charEq "d" (lowerChar c) = false).
Proof. intros H. each_char c; repeat split; discriminate. Qed.

(** A literal with word characters after it has the shape of an
    operand. *)
Lemma literal_prefix_token (n : NumericLiteral) (w : jsstring) :
  validLiteral n = true -> forallb isWordChar w = true ->
  isPrimitiveToken (literalText n ++ w) = true.
Proof.
  intros V Hw.
  destruct (unsigned_shape n V) as (Wn & Cn & d & r & Hd & En).
  destruct (wordRun_facts w Hw) as (Ww & Cw & _).
  assert (U : isUnsignedToken (unsignedText n ++ w) = true).
  { unfold isUnsignedToken. rewrite forallb_app, Wn, Ww, count_occ_app, Cn, Cw, En.
    cbn [app]. replace (strEq (d :: r ++ w) []) with false
      by (symmetry; now apply strEq_false).
    destruct (fractionPart n); reflexivity. }
  rewrite literalText_unsigned. destruct (negative n); cbn [app isPrimitiveToken].
  - change (charEq "-" "-") with true. cbv iota. rewrite U, En.
    cbn [app hd_error testChar]. now rewrite Hd.
  - rewrite En in *. cbn [app isPrimitiveToken] in *.
    destruct (digit_facts d Hd) as (_ & _ & ->). exact U.
Qed.

Lemma legacy_parse_single (t : jsstring) (e : DiceExpression) :
  isPrimitiveToken t = true -> isOperandToken t = true ->
  Legacy.expressionForPrimitive t = Legacy.OK e ->
  Legacy.parse t = Legacy.OK (Some e).
Proof.
  intros Hp Ho He. unfold Legacy.parse.
  rewrite (agree_OK _ _ _ (tokenize_agree t) (tokenize_primitive t Hp)).
  cbn [Legacy.bind].
  rewrite (agree_OK _ _ _ (yard_agree [t]) (yard_single t Ho)).
  cbn [Legacy.bind]. unfold Legacy.expressionForReversePolishNotation.
  cbn [Legacy.forEach]. unfold Legacy.builderStep.
  destruct (operandToken_classes t Ho) as (-> & _). rewrite He. reflexivity.
Qed.

(** X27: where the two parsers differ.  A literal with letters after
    it, such as [12abc], is a number for the earlier parser, the
    value of the literal, as [parseFloat] stops at the letters; the
    parser above reads the text with [+] as well and rejects it. *)
Theorem trailing_letters_rejected (this : DiceParser) (n : NumericLiteral)
    (x : ascii) (w : jsstring) :
  validLiteral n = true ->
  forallb isWordChar (x :: w) = true ->
  forallb (fun c => negb (isDiceLetter c)) (x :: w) = true ->
  isDigitChar x = false ->
  charEq x "e" || charEq x "E" = false ->
  radixOfLetter x = None ->
  Legacy.parse (literalText n ++ x :: w)
    = Legacy.OK (Some (NumericalExpression (literalNumber n))) /\
  isSyntaxError (parse this (literalText n ++ x :: w)).
Proof.
  intros V Hw Hnd Hx He Hr. set (t := literalText n ++ x :: w).
  pose proof Hw as Hw0. cbn [forallb] in Hw. apply andb_true_iff in Hw.
  destruct Hw as [Wx Ww]. destruct (wordChar_more x Wx) as (Dx & Sx & _).
  pose proof (literal_prefix_token n (x :: w) V Hw0) as Hp. fold t in Hp.
  assert (Ho : isOperandToken t = true).
  { apply (primitive_token_class _ Hp), has_digit_not_key. unfold t.
    rewrite existsb_app, (literal_has_digit n V). reflexivity. }
  pose proof (scan_literal_then n x w V Hx Dx He) as Scan. fold t in Scan.
  pose proof (primitiveToken_noWhite t Hp) as NW.
  assert (Ne : t <> []).
  { unfold t. destruct (literalText n); discriminate. }
  assert (Flt : parseFloat t = literalNumber n).
  { unfold parseFloat, trimStart. rewrite dropWhile_head, Scan; [reflexivity|].
    destruct NW; auto. }
  assert (Num : toNumber t = NaN).
  { unfold toNumber. rewrite (trim_noWhiteSpace t NW).
    destruct t as [|z t'] eqn:Et; [congruence|]. rewrite Scan.
    pose proof (literalText_nonempty n V) as Ln.
    pose proof (literal_chars n V) as Lc. unfold t in Et.
    destruct (literalText n) as [|z0 [|y0 l]]; [congruence| |];
      cbn [app] in Et; injection Et as <- <-.
    - now rewrite (nonDecimal_none _ _ _ Hr).
    - cbn [forallb] in Lc. apply andb_true_iff in Lc. destruct Lc as [_ Lc].
      apply andb_true_iff in Lc. destruct Lc as [Ly _].
      cbn [app]. now rewrite (nonDecimal_none _ _ _ (literalChar_no_radix _ Ly)). }
  assert (Inc : includes "d" (toLowerCase t) = false).
  { unfold t, toLowerCase. rewrite map_app. unfold includes. rewrite existsb_app.
    fold (toLowerCase (literalText n)). fold (includes "d" (toLowerCase (literalText n))).
    rewrite (literal_no_d n V). cbn [orb].
    destruct (existsb _ _) eqn:E; [|reflexivity].
    apply existsb_exists in E. destruct E as (c & Hc & Ec).
    apply in_map_iff in Hc. destruct Hc as (c0 & <- & Hc0).
    rewrite forallb_forall in Hw0, Hnd.
    destruct (wordChar_more c0 (Hw0 c0 Hc0)) as (_ & _ & F).
    rewrite F in Ec; [discriminate|]. apply negb_true_iff. now apply Hnd. }
  split.
  - apply (legacy_parse_single t _ Hp Ho). unfold Legacy.expressionForPrimitive.
    rewrite Inc. unfold Legacy.isNumeric. rewrite Flt.
    destruct (literalNumber_value n V) as (-> & _). reflexivity.
  - rewrite (parse_single_operand this t Hp Ho). unfold expressionForPrimitive.
    rewrite Inc. unfold isNumeric. rewrite Num. cbn [isNaN negb andb].
    eexists _, _. reflexivity.
Qed.

Lemma trailing_letters_rejected_witness :
  Legacy.parse (str "12abc") = Legacy.OK (Some (NumericalExpression (ofZ 12))) /\
  isSyntaxError (parse unlimited (str "12abc")).
Proof.
  exact (trailing_letters_rejected unlimited
           {| negative := false; integerPart := str "12"; fractionPart := None |}
           "a" (str "bc") eq_refl eq_refl eq_refl eq_refl eq_refl eq_refl).
Defined.
